(** * swagger-to-flowtype: the schema-to-type synthesis engine of [src/index.js]

    A shallow embedding of the synchronous part of [src/index.js] (the
    reference resolver, the type synthesizer, the property-list builder, the
    import resolver, the definition collector and the text assembly of the
    emitter), and the properties of it that the specification states.

    Conventions of the embedding.
    - A JavaScript string is a [string]; every character stands for one
      UTF-16 code unit, so the model covers the strings whose code units are
      below 256 (U+2028 and U+2029, the two other line terminators of the
      regular-expression dot, are outside this alphabet).
    - A parsed document is a [json] value; an object keeps its entries in
      the order [Object.keys] enumerates them.
    - [undefined] is [None] of an [option].
    - A call either returns, or throws, or leaves the modelled fragment
      ([Unmodelled]: a value inherited from [Object.prototype] reached
      through [typeMapping], or a sort of 64 elements or more).
    - The engine is modelled twice: on documents as values, and in [Store]
      on documents as objects of a store, with the two writes the engine
      makes in place; the second model is proved to compute what the first
      computes. *)

From Stdlib Require Import String List Ascii NArith ZArith Lia Bool
  DecimalString Permutation.
Import ListNotations.
Open Scope list_scope.
Open Scope string_scope.

(** ** Outcomes of a call *)

Inductive outcome (E A : Type) : Type :=
| Return (a : A)
| Throw (e : E)
| Unmodelled.
Arguments Return {E A} a.
Arguments Throw {E A} e.
Arguments Unmodelled {E A}.

(** The engine itself raises nothing but the TypeErrors of the language. *)
Inductive type_error : Type := TypeError.

(** [generatorArray] adds [throw new Error("There is no definition")]. *)
Inductive exn : Type :=
| Uncaught (e : type_error)
| Error (message : string).

Definition M (A : Type) : Type := outcome type_error A.

Definition bind {E A B} (m : outcome E A) (k : A -> outcome E B) : outcome E B :=
  match m with
  | Return a => k a
  | Throw e => Throw e
  | Unmodelled => Unmodelled
  end.

Declare Scope js_scope.
Delimit Scope js_scope with js.
Notation "x <- m ;; k" := (bind m (fun x => k))
  (at level 61, m at next level, right associativity) : js_scope.
Notation "' p <- m ;; k" := (bind m (fun x => match x with p => k end))
  (at level 61, p pattern, m at next level, right associativity) : js_scope.
Open Scope js_scope.

Definition lift {A} (m : M A) : outcome exn A :=
  match m with
  | Return a => Return a
  | Throw e => Throw (Uncaught e)
  | Unmodelled => Unmodelled
  end.

(** [Array.prototype.map] with a callback that may throw: left to right, the
    first exception aborts the traversal. *)
Definition mapM {E A B} (f : A -> outcome E B) : list A -> outcome E (list B) :=
  fix go (l : list A) : outcome E (list B) :=
    match l with
    | [] => Return []
    | a :: r => b <- f a ;; bs <- go r ;; Return (b :: bs)
    end.

(** The same over the elements of an array seen as an object: the callback
    also receives the key of the element, its decimal index. *)
Definition index_key (i : nat) : string := NilZero.string_of_uint (Nat.to_uint i).

Definition mapMi {E A B} (f : string -> A -> outcome E B) : nat -> list A -> outcome E (list B) :=
  fix go (i : nat) (l : list A) : outcome E (list B) :=
    match l with
    | [] => Return []
    | a :: r => b <- f (index_key i) a ;; bs <- go (S i) r ;; Return (b :: bs)
    end.

(** ** Strings *)

Definition ascii_is (c d : ascii) : bool := Ascii.eqb c d.

Fixpoint filter_string (keep : ascii -> bool) (s : string) : string :=
  match s with
  | EmptyString => EmptyString
  | String c r => if keep c then String c (filter_string keep r) else filter_string keep r
  end.

(** [Some rest] when [s] is [p ++ rest]. *)
Fixpoint strip_prefix (p s : string) : option string :=
  match p, s with
  | EmptyString, _ => Some s
  | String a p', String b s' => if ascii_is a b then strip_prefix p' s' else None
  | String _ _, EmptyString => None
  end.

(** [s.indexOf(sub) >= 0] on strings. *)
Fixpoint contains (sub s : string) : bool :=
  match strip_prefix sub s with
  | Some _ => true
  | None => match s with
            | EmptyString => false
            | String _ r => contains sub r
            end
  end.

(** [Array.prototype.join] on an array of strings. *)
Fixpoint join (sep : string) (l : list string) : string :=
  match l with
  | [] => ""
  | [a] => a
  | a :: r => a ++ sep ++ join sep r
  end.

(** A string or [undefined]: what [typeFor], [definitionTypeName] and
    [JSON.stringify] hand back. *)
Definition tyval : Type := option string.

(** [join] turns an [undefined] element into the empty string. *)
Definition join_vals (sep : string) (l : list tyval) : string :=
  join sep (map (fun t => match t with Some s => s | None => "" end) l).

(** A template literal prints [undefined] by name. *)
Definition tpl (t : tyval) : string :=
  match t with Some s => s | None => "undefined" end.

(** [a || b] on strings and [undefined]. *)
Definition js_or (a b : tyval) : tyval :=
  match a with
  | Some EmptyString | None => b
  | Some _ => a
  end.

(** The double quote, U+0022. *)
Definition dquote : ascii := "034"%char.

(** [x.replace(re, "")] with [re] the global pattern of one double quote: every
    double quote goes; a TypeError on [undefined]. *)
Definition strip_dquotes (s : string) : string :=
  filter_string (fun c => negb (ascii_is c dquote)) s.

Definition replace_dquotes (t : tyval) : M string :=
  match t with
  | Some s => Return (strip_dquotes s)
  | None => Throw TypeError
  end.

(** ** Parsed documents *)

#[warnings="-register-all"]
Inductive json : Type :=
| JNull
| JBool (b : bool)
| JNum (repr : string)      (* the number, as [String(n)] prints it *)
| JStr (s : string)
| JArr (elems : list json)
| JObj (fields : list (string * json)).

(** A JavaScript value read out of a document: a [json] or [undefined]. *)
Definition value : Type := option json.

Definition truthy (v : json) : bool :=
  match v with
  | JNull => false
  | JBool b => b
  | JNum r => negb (String.eqb r "0" || String.eqb r "NaN")
  | JStr s => negb (String.eqb s "")
  | JArr _ | JObj _ => true
  end.

Definition truthy_v (v : value) : bool :=
  match v with Some j => truthy j | None => false end.

Fixpoint assoc {A} (k : string) (fs : list (string * A)) : option A :=
  match fs with
  | [] => None
  | (k', v) :: r => if String.eqb k' k then Some v else assoc k r
  end.

Definition has_key {A} (k : string) (fs : list (string * A)) : bool :=
  match assoc k fs with Some _ => true | None => false end.

(** [o.k] for one of the fixed names the program reads ([type], [items],
    [$ref], ...) on a value that is not [null]: none of them is inherited
    from a prototype, so only an object's own entries can answer. *)
Definition get (o : json) (k : string) : value :=
  match o with
  | JObj fs => assoc k fs
  | _ => None
  end.

(** The same read, in the form the recursive functions use: the branch taken
    when the entry exists receives the sub-document itself. *)
Definition assoc_elim {A} (k : string) (fs : list (string * json))
    (absent : A) (present : json -> A) : A :=
  (fix go (fs : list (string * json)) : A :=
     match fs with
     | [] => absent
     | (k', v) :: r => if String.eqb k' k then present v else go r
     end) fs.

Definition field {A} (o : json) (k : string) (absent : A) (present : json -> A) : A :=
  match o with
  | JObj fs => assoc_elim k fs absent present
  | _ => absent
  end.

(** [v === "lit"]. *)
Definition is_str (v : value) (lit : string) : bool :=
  match v with
  | Some (JStr s) => String.eqb s lit
  | _ => false
  end.

(** The own enumerable entries [Object.keys] and [Object.values] walk. *)
Fixpoint indexed {A} (i : nat) (l : list A) : list (string * A) :=
  match l with
  | [] => []
  | a :: r => (index_key i, a) :: indexed (S i) r
  end.

Fixpoint code_units (s : string) : list json :=
  match s with
  | EmptyString => []
  | String c r => JStr (String c EmptyString) :: code_units r
  end.

Definition own_entries (o : json) : list (string * json) :=
  match o with
  | JObj fs => fs
  | JArr l => indexed 0 l
  | JStr s => indexed 0 (code_units s)
  | _ => []
  end.

(** [String(v)], as a template literal and a computed property key apply it.
    An object that carries an own [toString] entry (never a function in a
    parsed document) cannot be converted. *)
Fixpoint to_string (v : json) : M string :=
  match v with
  | JNull => Return "null"
  | JBool true => Return "true"
  | JBool false => Return "false"
  | JNum r => Return r
  | JStr s => Return s
  | JArr l =>
      parts <- mapM (fun e => match e with
                              | JNull => Return ""
                              | _ => to_string e
                              end) l ;;
      Return (join "," parts)
  | JObj fs => if has_key "toString" fs then Throw TypeError
               else Return "[object Object]"
  end.

(** ** The primitive table *)

Definition typeMapping : list (string * string) :=
  [ ("array", "Array<*>");
    ("boolean", "boolean");
    ("integer", "number");
    ("number", "number");
    ("null", "null");
    ("object", "Object");
    ("Object", "Object");
    ("string", "string");
    ("enum", "string") ].

(** [typeMapping] is an object literal: a name it does not own is looked up
    in [Object.prototype]. *)
Definition Object_prototype_names : list string :=
  [ "constructor"; "hasOwnProperty"; "isPrototypeOf"; "propertyIsEnumerable";
    "toLocaleString"; "toString"; "valueOf"; "__proto__";
    "__defineGetter__"; "__defineSetter__"; "__lookupGetter__"; "__lookupSetter__" ].

(** [typeMapping[t]]. *)
Definition typeMapping_get (t : value) : M tyval :=
  key <- match t with
         | None => Return "undefined"
         | Some v => to_string v
         end ;;
  match assoc key typeMapping with
  | Some text => Return (Some text)
  | None => if existsb (String.eqb key) Object_prototype_names
            then Unmodelled
            else Return None
  end.

(** ** Reference Resolver *)

Definition is_line_terminator (c : ascii) : bool :=
  ascii_is c "010"%char || ascii_is c "013"%char.

(** A greedy capture of any characters: the dot stops at the first line
    terminator. *)
Fixpoint dot_star (s : string) : string :=
  match s with
  | EmptyString => EmptyString
  | String c r => if is_line_terminator c then EmptyString else String c (dot_star r)
  end.

(** [ref.match(re)], [re] being the alternative of [#/definitions/] and of
    [#/components/schemas/], each followed by a greedy capture: the leftmost
    position where an alternative matches, the first alternative tried
    first; the result is the pair of the two capture groups. *)
Fixpoint ref_match (s : string) : option (tyval * tyval) :=
  match strip_prefix "#/definitions/" s with
  | Some rest => Some (Some (dot_star rest), None)
  | None =>
      match strip_prefix "#/components/schemas/" s with
      | Some rest => Some (None, Some (dot_star rest))
      | None => match s with
                | EmptyString => None
                | String _ r => ref_match r
                end
      end
  end.

Definition definitionTypeName (ref : value) : M tyval :=
  match ref with
  | Some (JStr s) =>
      match ref_match s with
      | None => Return (Some "")
      | Some (found1, found2) => Return (js_or found1 found2)
      end
  | _ => Throw TypeError          (* no callable [match] on anything else *)
  end.

(** [name.replace(/[[\]']+/g, "")] *)
Definition stripBrackets (name : string) : string :=
  filter_string (fun c => negb (ascii_is c "["%char || ascii_is c "]"%char
                                || ascii_is c "'"%char)) name.

(** [value.split(l).join("").split(r).join("")] with [l] and [r] the two
    guillemets, U+00AB and U+00BB. *)
Definition removeGenericsBug (value : string) : string :=
  filter_string (fun c => negb (ascii_is c "187"%char))
    (filter_string (fun c => negb (ascii_is c "171"%char)) value).

(** ** Property lists *)

(** What [propertiesList] returns: a type text (or [undefined]), an object
    whose values are type texts, or, for [allOf], an array of such results.
    The merge marker [{ $ref: name }] is an object with the one key [$ref]. *)
#[warnings="-register-all"]
Inductive plist : Type :=
| PText (t : tyval)
| PObj (entries : list (string * tyval))
| PArr (members : list plist).

(** *** Own property order

    An object enumerates its array-index keys first, in ascending numeric
    order, then its other keys in the order they were created. *)

Definition digit_of (c : ascii) : option N :=
  let n := N_of_ascii c in
  if ((48 <=? n) && (n <=? 57))%N then Some (n - 48)%N else None.

Fixpoint parse_digits (acc : N) (s : string) : option N :=
  match s with
  | EmptyString => Some acc
  | String c r => match digit_of c with
                  | Some d => parse_digits (10 * acc + d)%N r
                  | None => None
                  end
  end.

(** A canonical numeric string below 2^32 - 1. *)
Definition array_index (k : string) : option N :=
  match k with
  | EmptyString => None
  | String c r =>
      if ascii_is c "0"%char && negb (String.eqb r "") then None
      else match parse_digits 0 k with
           | Some n => if (n <? 4294967295)%N then Some n else None
           | None => None
           end
  end.

Fixpoint obj_update {A} (k : string) (v : A) (o : list (string * A)) : list (string * A) :=
  match o with
  | [] => []
  | (k', v') :: r => if String.eqb k' k then (k', v) :: r else (k', v') :: obj_update k v r
  end.

Fixpoint obj_insert_index {A} (i : N) (k : string) (v : A) (o : list (string * A))
  : list (string * A) :=
  match o with
  | [] => [(k, v)]
  | (k', v') :: r =>
      match array_index k' with
      | Some j => if (j <? i)%N then (k', v') :: obj_insert_index i k v r
                  else (k, v) :: o
      | None => (k, v) :: o
      end
  end.

(** [o[k] = v] *)
Definition obj_set {A} (o : list (string * A)) (k : string) (v : A) : list (string * A) :=
  if has_key k o then obj_update k v o
  else match array_index k with
       | Some i => obj_insert_index i k v o
       | None => (o ++ [(k, v)])%list
       end.

(** [Object.assign(target, ...sources)] on a target that inherits from
    [Object.prototype]: every entry of a source is assigned to the target.
    The assignment to [__proto__] goes to the inherited setter, which
    ignores a value that is not an object (the values here are type texts
    or [undefined]). *)
Definition assign_entry {A} (target : list (string * A)) (kv : string * A) : list (string * A) :=
  if String.eqb (fst kv) "__proto__" then target
  else obj_set target (fst kv) (snd kv).

Definition Object_assign {A} (target : list (string * A)) (sources : list (list (string * A)))
  : list (string * A) :=
  fold_left (fun t source => fold_left assign_entry source t) sources target.

(** *** JSON.stringify *)

Definition backslash : ascii := "092"%char.

Definition hex_digit (n : nat) : ascii :=
  nth n [ "0"; "1"; "2"; "3"; "4"; "5"; "6"; "7"; "8"; "9";
          "a"; "b"; "c"; "d"; "e"; "f" ]%char "0"%char.

Definition json_escape (c : ascii) : string :=
  let n := nat_of_ascii c in
  if ascii_is c dquote then String backslash (String dquote EmptyString)
  else if ascii_is c backslash then String backslash (String backslash EmptyString)
  else if (n =? 8)%nat then String backslash "b"
  else if (n =? 12)%nat then String backslash "f"
  else if (n =? 10)%nat then String backslash "n"
  else if (n =? 13)%nat then String backslash "r"
  else if (n =? 9)%nat then String backslash "t"
  else if (n <? 32)%nat then
    String backslash ("u00" ++ String (hex_digit (n / 16)) (String (hex_digit (n mod 16)) EmptyString))
  else String c EmptyString.

Fixpoint json_escape_all (s : string) : string :=
  match s with
  | EmptyString => EmptyString
  | String c r => json_escape c ++ json_escape_all r
  end.

Definition JSON_quote (s : string) : string :=
  String dquote (json_escape_all s ++ String dquote EmptyString).

(** The members of an object literal: an entry whose value is [undefined] is
    left out. *)
Fixpoint stringify_entries (es : list (string * tyval)) : list string :=
  match es with
  | [] => []
  | (k, Some v) :: r => (JSON_quote k ++ ":" ++ JSON_quote v) :: stringify_entries r
  | (_, None) :: r => stringify_entries r
  end.

(** The text of a value other than [undefined]; [undefined] itself only
    prints as an array element, and then as [null]. *)
Fixpoint stringify (p : plist) : string :=
  match p with
  | PText None => "null"
  | PText (Some s) => JSON_quote s
  | PObj es => "{" ++ join "," (stringify_entries es) ++ "}"
  | PArr ms => "[" ++ join "," (map stringify ms) ++ "]"
  end.

Definition JSON_stringify (p : plist) : tyval :=
  match p with
  | PText None => None
  | _ => Some (stringify p)
  end.

(** *** Exact object delimiters *)

(** [s.replace(re, "{|")], [re] the global pattern of an opening brace
    followed by one character other than a bar: both characters go. *)
Fixpoint replace_open (s : string) : string :=
  match s with
  | EmptyString => EmptyString
  | String c r =>
      if ascii_is c "{"%char then
        match r with
        | String d r' => if ascii_is d "|"%char then String c (replace_open r)
                         else "{|" ++ replace_open r'
        | EmptyString => String c EmptyString
        end
      else String c (replace_open r)
  end.

(** [s.replace(re, "|}")], [re] the global pattern of one character other
    than a bar followed by a closing brace. *)
Fixpoint replace_close (s : string) : string :=
  match s with
  | EmptyString => EmptyString
  | String c r =>
      if ascii_is c "|"%char then String c (replace_close r)
      else match r with
           | String d r' => if ascii_is d "}"%char then "|}" ++ replace_close r'
                            else String c (replace_close r)
           | EmptyString => String c EmptyString
           end
  end.

Definition withExact (property : string) : string :=
  replace_close (replace_open property).

(** *** Array.prototype.sort

    The comparator of [propertiesTemplate] looks at its first argument only,
    so it is not a consistent comparison and the language leaves the order
    to the engine. The model follows the engine the program runs on (V8, the
    sort of Node 11 and later): an array of fewer than 64 elements is one
    run, found by [CountAndMakeRun] and completed by [BinaryInsertionSort];
    the merging of several runs, for longer arrays, is not modelled. *)

Section Sort.
Context {A : Type}.
Variable comparefn : A -> A -> Z.

(** The elements after the second one that continue the run. *)
Fixpoint count_run (isDescending : bool) (previousElement : A) (rest : list A) : nat :=
  match rest with
  | [] => 0
  | currentElement :: rest' =>
      let order := comparefn currentElement previousElement in
      if (if isDescending then (0 <=? order)%Z else (order <? 0)%Z) then 0
      else S (count_run isDescending currentElement rest')
  end.

(** The array after the run at its start was made ascending, and the
    length of that run. *)
Definition CountAndMakeRun (a : list A) : list A * nat :=
  match a with
  | elementHigh :: elementLow :: rest =>
      let order := comparefn elementLow elementHigh in
      let isDescending := (order <? 0)%Z in
      let runLength := 2 + count_run isDescending elementLow rest in
      (if isDescending then (rev (firstn runLength a) ++ skipn runLength a)%list else a,
       runLength)
  | _ => (a, length a)
  end.

(** The loop [while (left < right)]; [right - left] shrinks at every turn,
    and [fuel] starts at least that large. *)
Fixpoint binary_search (pivot : A) (a : list A) (fuel left right : nat) : nat :=
  match fuel with
  | 0 => left
  | S fuel' =>
      if (left <? right)%nat then
        let mid := left + Nat.div2 (right - left) in
        let order := comparefn pivot (nth mid a pivot) in
        if (order <? 0)%Z then binary_search pivot a fuel' left mid
        else binary_search pivot a fuel' (mid + 1) right
      else left
  end.

(** [sorted] is the part of the array before [start], [rest] the part from
    [start] on. *)
Fixpoint BinaryInsertionSort (sorted rest : list A) : list A :=
  match rest with
  | [] => sorted
  | pivot :: rest' =>
      let left := binary_search pivot sorted (length sorted) 0 (length sorted) in
      BinaryInsertionSort (firstn left sorted ++ pivot :: skipn left sorted)%list rest'
  end.

Definition Array_sort (a : list A) : M (list A) :=
  if (length a <? 2)%nat then Return a
  else if (length a <? 64)%nat then
    let (a', runLength) := CountAndMakeRun a in
    Return (BinaryInsertionSort (firstn runLength a') (skipn runLength a'))
  else Unmodelled.
(** Before V8 7.0 (Node 10 and earlier) an array of at most 10 elements was
    sorted by insertion, the element moving left past every [tmp] with
    [comparefn(tmp, element) > 0]. The program is not modelled on that
    engine; the function is kept to compare the two orders. [placed] is the
    sorted part, its last element first. *)
Fixpoint insert_element (element : A) (placed : list A) : list A :=
  match placed with
  | [] => [element]
  | tmp :: rest =>
      if (0 <? comparefn tmp element)%Z then tmp :: insert_element element rest
      else element :: placed
  end.

Definition InsertionSort (a : list A) : list A :=
  rev (fold_left (fun placed element => insert_element element placed) a []).
End Sort.

(** ** The flags of the command line *)

Record options : Type := {
  destination : option string;
  checkRequired : bool;
  exact : bool
}.

(** ** Emitter: rendering a property list *)

(** The comparator [a => (a[0] === "&" ? 1 : -1)], called as
    [comparefn(x, y)]. *)
Definition refs_last (a b : string) : Z :=
  match a with
  | String c _ => if ascii_is c "&"%char then 1%Z else (-1)%Z
  | EmptyString => (-1)%Z
  end.

(** [property.$ref] on a value that is not [undefined]. *)
Definition member_ref (property : plist) : tyval :=
  match property with
  | PObj es => match assoc "$ref" es with
               | Some t => t
               | None => None
               end
  | _ => None
  end.

Definition truthy_t (t : tyval) : bool :=
  match t with
  | Some EmptyString | None => false
  | Some _ => true
  end.

Section Emitter.
Variable program : options.

(** The callback mapped over an [allOf] list. *)
Definition render_member (property : plist) : M string :=
  match property with
  | PText None => Throw TypeError
  | _ =>
      if truthy_t (member_ref property) then Return ("& " ++ tpl (member_ref property))
      else
        let p := stringify property in
        Return (if exact program then withExact p else p)
  end.

Definition propertiesTemplate (properties : plist) : M tyval :=
  match properties with
  | PText (Some s) => Return (Some s)
  | PArr members =>
      rendered <- mapM render_member members ;;
      sorted <- Array_sort refs_last rendered ;;
      Return (Some (join " " sorted))
  | _ =>
      if exact program then
        match JSON_stringify properties with
        | Some text => Return (Some (withExact text))
        | None => Throw TypeError
        end
      else Return (JSON_stringify properties)
  end.
End Emitter.

(** ** Type Synthesizer and Property-List Builder *)

(** [definition.required && definition.required.indexOf(propertyName) >= 0],
    as the condition of [propertyKeyForDefinition] reads it. *)
Definition isRequired (propertyName : string) (definition : json) : M bool :=
  match definition with
  | JNull => Throw TypeError          (* [null.required] *)
  | _ =>
      match get definition "required" with
      | None => Return false
      | Some required =>
          if truthy required then
            match required with
            | JArr names => Return (existsb (fun e => is_str (Some e) propertyName) names)
            | JStr s => Return (contains propertyName s)
            | _ => Throw TypeError    (* no callable [indexOf] *)
            end
          else Return false
      end
  end.

(** [k in o], for the same fixed names, on an object or an array (on a
    primitive the operator raises a TypeError). *)
Definition js_has (k : string) (o : json) : bool :=
  match o with
  | JObj fs => has_key k fs
  | _ => false
  end.

Section Engine.
Variable program : options.

Definition propertyKeyForDefinition (propName : string) (definition : json) : M string :=
  if checkRequired program then
    required <- isRequired propName definition ;;
    Return (propName ++ (if required then "" else "?"))
  else Return propName.

(** The body of [typeFor], the two recursive functions being parameters;
    they are applied to sub-documents of [property] only. *)
Definition typeFor_body (typeFor : json -> M tyval) (propertiesList : json -> M plist)
    (property : json) : M tyval :=
  match property with
  | JNull => Throw TypeError
  | _ =>
    if is_str (get property "type") "array" then
      field property "items" (Throw TypeError) (fun items =>
        match items with
        | JObj _ | JArr _ =>
            field items "oneOf"
              (if js_has "$ref" items then
                 name <- definitionTypeName (get items "$ref") ;;
                 Return (Some ("Array<" ++ tpl name ++ ">"))
               else if is_str (get items "type") "object" then
                 pl <- propertiesList items ;;
                 text <- propertiesTemplate program pl ;;
                 child <- replace_dquotes text ;;
                 Return (Some ("Array<" ++ child ++ ">"))
               else
                 mapped <- typeMapping_get (get items "type") ;;
                 Return (Some ("Array<" ++ tpl mapped ++ ">")))
              (fun oneOf =>
                 match oneOf with
                 | JArr alternatives =>
                     parts <- mapM (fun e =>
                                match e with
                                | JNull => Throw TypeError
                                | _ =>
                                    if is_str (get e "type") "object" then
                                      pl <- field e "items" (Throw TypeError) propertiesList ;;
                                      text <- propertiesTemplate program pl ;;
                                      s <- replace_dquotes text ;;
                                      Return (Some s)
                                    else typeFor e
                                end) alternatives ;;
                     Return (Some ("Array<" ++ join_vals " | " parts ++ ">"))
                 | _ => Throw TypeError       (* no callable [map] *)
                 end)
        | _ => Throw TypeError                (* [in] on a primitive *)
        end)
    else if is_str (get property "type") "string" && js_has "enum" property then
      match get property "enum" with
      | Some (JArr values) =>
          literals <- mapM (fun e => s <- to_string e ;; Return ("'" ++ s ++ "'")) values ;;
          Return (Some (join " | " literals))
      | _ => Throw TypeError                  (* no callable [map] *)
      end
    else
      mapped <- typeMapping_get (get property "type") ;;
      if truthy_t mapped then Return mapped
      else definitionTypeName (get property "$ref")
  end.

(** One single-entry object of the [reduce] in [propertiesList]: the key
    is computed before the value. *)
Definition property_entry (typeFor : json -> M tyval) (definition : json)
    (propName : string) (node : json) : M (string * tyval) :=
  key <- propertyKeyForDefinition propName definition ;;
  text <- typeFor node ;;
  Return (key, text).

Definition merge_entries (entries : list (string * tyval)) : plist :=
  PObj (Object_assign [] (map (fun e => [e]) entries)).

Definition propertiesList_body (typeFor : json -> M tyval) (propertiesList : json -> M plist)
    (definition : json) : M plist :=
  match definition with
  | JObj _ | JArr _ =>
      field definition "allOf"
        (if truthy_v (get definition "$ref") then
           name <- definitionTypeName (get definition "$ref") ;;
           Return (PObj [("$ref", name)])
         else if js_has "type" definition
                 && negb (is_str (get definition "type") "object") then
           text <- typeFor_body typeFor propertiesList definition ;;
           Return (PText text)
         else
           field definition "properties" (Return (PObj []))
             (fun properties =>
                if negb (truthy properties) then Return (PObj [])
                else
                  match properties with
                  | JObj [] => Return (PObj [])
                  | JObj props =>
                      entries <- mapM (fun kv => property_entry typeFor definition
                                                   (fst kv) (snd kv)) props ;;
                      Return (merge_entries entries)
                  | JArr elems =>
                      entries <- mapMi (property_entry typeFor definition) 0 elems ;;
                      Return (merge_entries entries)
                  | JStr _ =>
                      (* the keys are the indices of the code units, and
                         [typeFor] of a string raises a TypeError *)
                      _ <- propertyKeyForDefinition (index_key 0) definition ;;
                      Throw TypeError
                  | _ => Return (PObj [])
                  end))
        (fun allOf =>
           match allOf with
           | JArr members =>
               results <- mapM propertiesList members ;;
               Return (PArr results)
           | _ => Throw TypeError             (* no callable [map] *)
           end)
  | _ => Throw TypeError                      (* [in] on a primitive *)
  end.

Fixpoint typeFor (property : json) {struct property} : M tyval :=
  typeFor_body typeFor propertiesList property
with propertiesList (definition : json) {struct definition} : M plist :=
  propertiesList_body typeFor propertiesList definition.

(** ** Import Resolver *)

Definition reduceM {X Y} (f : Y -> X -> M Y) : list X -> Y -> M Y :=
  fix go (l : list X) (acc : Y) : M Y :=
    match l with
    | [] => Return acc
    | x :: r => acc' <- f acc x ;; go r acc'
    end.

Definition importsList (definition : json) : M (list tyval) :=
  match definition with
  | JNull => Throw TypeError
  | _ =>
      if negb (truthy_v (get definition "properties")) then Return []
      else
        match get definition "properties" with
        | Some properties =>
            reduceM (fun acc value =>
                if truthy value && truthy_v (get value "$ref") then
                  name <- definitionTypeName (get value "$ref") ;;
                  Return (acc ++ [name])%list
                else if truthy value && is_str (get value "type") "array"
                        && truthy_v (get value "items")
                        && truthy_v (match get value "items" with
                                     | Some items => get items "$ref"
                                     | None => None
                                     end) then
                  name <- definitionTypeName (match get value "items" with
                                              | Some items => get items "$ref"
                                              | None => None
                                              end) ;;
                  Return (acc ++ [name])%list
                else Return acc)
              (map snd (own_entries properties)) []
        | None => Return []
        end
  end.

(** ** Definition Collector *)

Record generated : Type := {
  title : string;
  properties : plist;
  imports : list tyval
}.

Definition generatorArray (swagger : json) : outcome exn (list generated) :=
  match swagger with
  | JNull => Throw (Uncaught TypeError)
  | _ =>
      let defs : value :=
        if truthy_v (get swagger "definitions") then get swagger "definitions"
        else match get swagger "components" with
             | Some components =>
                 if truthy components then get components "schemas" else None
             | None => None
             end in
      match defs with
      | Some defs' =>
          if truthy defs' then
            mapM (fun kv =>
                    let definitionName := fst kv in
                    lift (props <- propertiesList (snd kv) ;;
                          imps <- importsList (snd kv) ;;
                          Return {| title := stripBrackets (removeGenericsBug definitionName);
                                    properties := props;
                                    imports := imps |}))
                 (own_entries defs')
          else Throw (Error "There is no definition")
      | None => Throw (Error "There is no definition")
      end
  end.

(** ** Emitter: declaration text *)

Definition importTemplate (typeName : tyval) : string :=
  "import type { " ++ tpl typeName ++ " } from './" ++ tpl typeName ++ "';".

Definition tyval_eqb (a b : tyval) : bool :=
  match a, b with
  | Some x, Some y => String.eqb x y
  | None, None => true
  | _, _ => false
  end.

(** [Array.from(new Set(names))]: the first occurrence of every value, in
    the order of insertion. *)
Definition Array_from_Set (names : list tyval) : list tyval :=
  fold_left (fun set name => if existsb (tyval_eqb name) set then set
                             else (set ++ [name])%list) names [].

Definition newline : string := String "010"%char EmptyString.

Definition importTemplates (definition : generated) : string :=
  join newline (map importTemplate (Array_from_Set (imports definition))).

Definition generateTypeFile (definition : generated) : M string :=
  text <- propertiesTemplate program (properties definition) ;;
  expression <- replace_dquotes text ;;
  let s := "export type " ++ title definition ++ " = " ++ expression ++ ";" in
  Return (importTemplates definition ++ s).

(** The declaration texts of a run, definition by definition, before
    formatting: the file name without directory and extension, and the text
    handed to the formatter without its [// @flow] line. A run that fails
    at some definition has handed over the texts before it; the model keeps
    the failure only. *)
Definition declarations (swagger : json) : outcome exn (list (string * string)) :=
  results <- generatorArray swagger ;;
  mapM (fun definition =>
          text <- lift (generateTypeFile definition) ;;
          Return (removeGenericsBug (title definition), removeGenericsBug text))
       results.
End Engine.

(** ** The single-file generator *)

Section Generate.
Variable program : options.

(** [generate]: the collector and the rendering in one function. The titles
    go through [stripBrackets] only, every property list is built before
    any of them is rendered, and the function returns the array of the
    declarations (the result of [g.join] is dropped). *)
Definition generate (swagger : json) : outcome exn (list string) :=
  match swagger with
  | JNull => Throw (Uncaught TypeError)
  | _ =>
      let defs : value :=
        if truthy_v (get swagger "definitions") then get swagger "definitions"
        else match get swagger "components" with
             | Some components =>
                 if truthy components then get components "schemas" else None
             | None => None
             end in
      match defs with
      | Some defs' =>
          if truthy defs' then
            g <- mapM (fun kv =>
                         let definitionName := fst kv in
                         lift (props <- propertiesList program (snd kv) ;;
                               Return (stripBrackets definitionName, props)))
                      (own_entries defs') ;;
            mapM (fun definition =>
                    lift (text <- propertiesTemplate program (snd definition) ;;
                          expression <- replace_dquotes text ;;
                          Return ("export type " ++ fst definition ++ " = "
                                  ++ expression ++ ";")))
                 g
          else Throw (Error "There is no definition")
      | None => Throw (Error "There is no definition")
      end
  end.
End Generate.

(** ** Input and output names *)

(** [value.match(re) !== null], [re] the pattern of [http], an optional
    [s], and [://], at any position. *)
Definition isUrl (v : string) : bool :=
  contains "http://" v || contains "https://" v.

(** [s.replace(pattern, replacement)] with a string pattern and a
    replacement without dollar sign: the first occurrence is replaced. *)
Fixpoint replace_first (pattern replacement s : string) : string :=
  match strip_prefix pattern s with
  | Some rest => replacement ++ rest
  | None => match s with
            | EmptyString => EmptyString
            | String c r => String c (replace_first pattern replacement r)
            end
  end.

Section DistFile.
(** [path.parse(name).ext], of the platform's [path] module. *)
Variable path_parse_ext : string -> string.

Definition distFile (p : options) (inputFileName : string) : string :=
  if truthy_t (destination p) then tpl (destination p)
  else if isUrl inputFileName then "./flowtype.js"
  else
    let ext := path_parse_ext inputFileName in
    replace_first ext ".js" inputFileName.
End DistFile.

(** The name of the file a definition is written to, in the action of the
    command. *)
Definition fileName (dist : string) (definition : generated) : string :=
  dist ++ "/" ++ removeGenericsBug (title definition) ++ ".js".

(** The line that imports a definition into the index file. *)
Definition index_import (definition : generated) : string :=
  "import type { " ++ title definition ++ " as _" ++ title definition
  ++ " } from './" ++ title definition ++ "';".

(** * The engine over a store

    In JavaScript the parsed document is a graph of mutable objects that
    every call receives by reference, and two calls in the engine write to
    an object in place: [Object.assign] to its target and [sort] to its
    array. Whether a second run over the same document sees what the first
    one saw depends on where those writes go. This part models the engine
    once more with the objects in a store: a value is a primitive or the
    location of a cell, a read goes through the store, an object that a
    function writes to or returns is allocated in it. An array or object
    that one expression creates and consumes without writing to it (the
    accumulators of [reduce], the single-entry sources of [Object.assign],
    the array that [join] prints) is kept as a list. *)

Module Store.

Inductive hval : Type :=
| HNull
| HBool (b : bool)
| HNum (repr : string)
| HStr (s : string)
| HRef (l : nat).

(** A value or [undefined]. *)
Definition hvalue : Type := option hval.

Inductive cell : Type :=
| CObj (fields : list (string * hvalue))
| CArr (elems : list hvalue).

Definition heap : Type := list cell.

(** A call: from the store before it to its outcome and the store after. *)
Definition St (E A : Type) : Type := heap -> outcome E A * heap.

Definition ret {E A} (a : A) : St E A := fun h => (Return a, h).

(** A call that allocates and writes nothing, its outcome read off the
    store. *)
Definition reading {E A} (m : heap -> outcome E A) : St E A := fun h => (m h, h).

Definition bindS {E A B} (m : St E A) (k : A -> St E B) : St E B :=
  fun h => match m h with
           | (Return a, h') => k a h'
           | (Throw e, h') => (Throw e, h')
           | (Unmodelled, h') => (Unmodelled, h')
           end.

Declare Scope store_scope.
Delimit Scope store_scope with store.
Notation "x <~ m ;; k" := (bindS m (fun x => k))
  (at level 61, m at next level, right associativity) : store_scope.

(** A new object: its location is the first one not in use. *)
Definition alloc {E} (c : cell) : St E hval :=
  fun h => (Return (HRef (length h)), (h ++ [c])%list).

Fixpoint update (l : nat) (c : cell) (h : heap) : heap :=
  match h, l with
  | [], _ => []
  | _ :: r, 0 => c :: r
  | c' :: r, S l' => c' :: update l' c r
  end.

(** A write to an object: its cell is replaced, its location stays. *)
Definition write {E} (o : hval) (c : cell) : St E unit :=
  fun h => (Return tt, match o with HRef l => update l c h | _ => h end).

Definition liftS {A} (m : St type_error A) : St exn A :=
  fun h => (lift (fst (m h)), snd (m h)).

Definition mapS {E A B} (f : A -> St E B) : list A -> St E (list B) :=
  fix go (l : list A) : St E (list B) :=
    match l with
    | [] => ret []
    | a :: r => (b <~ f a ;; bs <~ go r ;; ret (b :: bs))%store
    end.

(** ** Reads *)

Definition cell_at (h : heap) (o : hval) : option cell :=
  match o with
  | HRef l => nth_error h l
  | _ => None
  end.

Definition truthy (v : hval) : bool :=
  match v with
  | HNull => false
  | HBool b => b
  | HNum r => negb (String.eqb r "0" || String.eqb r "NaN")
  | HStr s => negb (String.eqb s "")
  | HRef _ => true
  end.

Definition truthy_v (v : hvalue) : bool :=
  match v with Some x => truthy x | None => false end.

Definition is_null (v : hval) : bool :=
  match v with HNull => true | _ => false end.

(** An object or an array: what [in] accepts on its right. *)
Definition is_object (v : hval) : bool :=
  match v with HRef _ => true | _ => false end.

(** [o.k], for the fixed names the program reads, on a value that is
    neither [null] nor [undefined]. *)
Definition get (h : heap) (o : hval) (k : string) : hvalue :=
  match cell_at h o with
  | Some (CObj fs) => match assoc k fs with
                      | Some v => v
                      | None => None
                      end
  | _ => None
  end.

Definition is_str (v : hvalue) (lit : string) : bool :=
  match v with
  | Some (HStr s) => String.eqb s lit
  | _ => false
  end.

(** [k in o] on an object or an array. *)
Definition js_has (h : heap) (k : string) (o : hval) : bool :=
  match cell_at h o with
  | Some (CObj fs) => has_key k fs
  | _ => false
  end.

Fixpoint code_units (s : string) : list hvalue :=
  match s with
  | EmptyString => []
  | String c r => Some (HStr (String c EmptyString)) :: code_units r
  end.

Definition own_entries (h : heap) (o : hval) : list (string * hvalue) :=
  match o with
  | HRef l => match nth_error h l with
              | Some (CObj fs) => fs
              | Some (CArr elems) => indexed 0 elems
              | None => []
              end
  | HStr s => indexed 0 (code_units s)
  | _ => []
  end.

(** [String(v)]; the elements of an array are converted in turn, [null] and
    [undefined] to the empty string. [fuel] bounds the nesting of arrays. *)
Fixpoint to_string (fuel : nat) (h : heap) (v : hval) : M string :=
  match v with
  | HNull => Return "null"
  | HBool true => Return "true"
  | HBool false => Return "false"
  | HNum r => Return r
  | HStr s => Return s
  | HRef l =>
      match nth_error h l with
      | Some (CArr elems) =>
          match fuel with
          | 0 => Unmodelled
          | S fuel' =>
              parts <- mapM (fun e => match e with
                                      | None | Some HNull => Return ""
                                      | Some e' => to_string fuel' h e'
                                      end) elems ;;
              Return (join "," parts)
          end
      | Some (CObj fs) => if has_key "toString" fs then Throw TypeError
                          else Return "[object Object]"
      | None => Unmodelled
      end
  end.

(** A value inside a template literal. *)
Definition template (fuel : nat) (h : heap) (v : hvalue) : M string :=
  match v with
  | None => Return "undefined"
  | Some x => to_string fuel h x
  end.

Definition typeMapping_get (fuel : nat) (h : heap) (t : hvalue) : M tyval :=
  key <- template fuel h t ;;
  match assoc key typeMapping with
  | Some text => Return (Some text)
  | None => if existsb (String.eqb key) Object_prototype_names
            then Unmodelled
            else Return None
  end.

Definition definitionTypeName (ref : hvalue) : M tyval :=
  match ref with
  | Some (HStr s) =>
      match ref_match s with
      | None => Return (Some "")
      | Some (found1, found2) => Return (js_or found1 found2)
      end
  | _ => Throw TypeError
  end.

(** A type text as a value. *)
Definition text_value (t : tyval) : hvalue :=
  match t with Some s => Some (HStr s) | None => None end.

(** ** Emitter *)

(** The members of an object literal, for an object whose values are type
    texts or [undefined]: the engine builds no other property list. *)
Fixpoint stringify_entries (es : list (string * hvalue)) : M (list string) :=
  match es with
  | [] => Return []
  | (k, Some (HStr v)) :: r =>
      rest <- stringify_entries r ;;
      Return ((JSON_quote k ++ ":" ++ JSON_quote v) :: rest)
  | (_, None) :: r => stringify_entries r
  | _ => Unmodelled
  end.

(** The text of a value other than [undefined]. *)
Fixpoint stringify (fuel : nat) (h : heap) (v : hvalue) : M string :=
  match v with
  | None => Return "null"
  | Some (HStr s) => Return (JSON_quote s)
  | Some (HRef l) =>
      match nth_error h l with
      | Some (CObj es) =>
          members <- stringify_entries es ;;
          Return ("{" ++ join "," members ++ "}")
      | Some (CArr ms) =>
          match fuel with
          | 0 => Unmodelled
          | S fuel' =>
              members <- mapM (stringify fuel' h) ms ;;
              Return ("[" ++ join "," members ++ "]")
          end
      | None => Unmodelled
      end
  | _ => Unmodelled
  end.

Definition JSON_stringify (fuel : nat) (h : heap) (v : hvalue) : M tyval :=
  match v with
  | None => Return None
  | _ => text <- stringify fuel h v ;; Return (Some text)
  end.

Section Emitter.
Variable program : options.
Variable fuel : nat.

Definition render_member (h : heap) (property : hvalue) : M string :=
  match property with
  | None => Throw TypeError
  | Some o =>
      if truthy_v (get h o "$ref") then
        name <- template fuel h (get h o "$ref") ;;
        Return ("& " ++ name)
      else
        p <- stringify fuel h property ;;
        Return (if exact program then withExact p else p)
  end.

Definition propertiesTemplate (properties : hvalue) : St type_error tyval :=
  (match properties with
   | Some (HStr s) => ret (Some s)
   | _ =>
       members <~ reading (fun h => Return (match properties with
                                            | Some o => cell_at h o
                                            | None => None
                                            end)) ;;
       match members with
       | Some (CArr members) =>
           rendered <~ reading (fun h => mapM (render_member h) members) ;;
           a <~ alloc (CArr (map (fun s => Some (HStr s)) rendered)) ;;
           sorted <~ reading (fun _ => Array_sort refs_last rendered) ;;
           _ <~ write a (CArr (map (fun s => Some (HStr s)) sorted)) ;;
           ret (Some (join " " sorted))
       | _ =>
           text <~ reading (fun h => JSON_stringify fuel h properties) ;;
           if exact program then
             match text with
             | Some text => ret (Some (withExact text))
             | None => reading (fun _ => Throw TypeError)
             end
           else ret text
       end
   end)%store.
End Emitter.

(** ** Type Synthesizer and Property-List Builder *)

Definition isRequired (h : heap) (propertyName : string) (definition : hval) : M bool :=
  match definition with
  | HNull => Throw TypeError
  | _ =>
      match get h definition "required" with
      | None => Return false
      | Some required =>
          if truthy required then
            match required with
            | HStr s => Return (contains propertyName s)
            | HRef l =>
                match nth_error h l with
                | Some (CArr names) =>
                    Return (existsb (fun e => is_str e propertyName) names)
                | _ => Throw TypeError
                end
            | _ => Throw TypeError
            end
          else Return false
      end
  end.

(** [Object.assign(target, ...sources)]: the entries are written to the
    target, in its cell. *)
Definition Object_assign {E} (target : hval) (sources : list (list (string * hvalue)))
  : St E hval :=
  (cell <~ reading (fun h => Return (cell_at h target)) ;;
   match cell with
   | Some (CObj fs) =>
       _ <~ write target (CObj (Object_assign fs sources)) ;;
       ret target
   | _ => reading (fun _ => Unmodelled)
   end)%store.

Section Engine.
Variable program : options.
Variable fuel : nat.

Definition propertyKeyForDefinition (h : heap) (propName : string) (definition : hval)
  : M string :=
  if checkRequired program then
    required <- isRequired h propName definition ;;
    Return (propName ++ (if required then "" else "?"))
  else Return propName.

Definition typeFor_body (typeFor : hvalue -> St type_error tyval)
    (propertiesList : hvalue -> St type_error hvalue)
    (property : hvalue) : St type_error tyval :=
  (match property with
   | None => reading (fun _ => Throw TypeError)
   | Some property =>
     if is_null property then reading (fun _ => Throw TypeError)
     else
       type <~ reading (fun h => Return (get h property "type")) ;;
       if is_str type "array" then
         items <~ reading (fun h => Return (get h property "items")) ;;
         match items with
         | None => reading (fun _ => Throw TypeError)
         | Some items =>
           if negb (is_object items) then reading (fun _ => Throw TypeError)
           else
             oneOf <~ reading (fun h => Return (js_has h "oneOf" items,
                                               get h items "oneOf")) ;;
             if fst oneOf then
               alternatives <~ reading (fun h => Return (match snd oneOf with
                                                         | Some o => cell_at h o
                                                         | None => None
                                                         end)) ;;
               match alternatives with
               | Some (CArr alternatives) =>
                   parts <~ mapS (fun e =>
                              match e with
                              | None => reading (fun _ => Throw TypeError)
                              | Some e' =>
                                if is_null e' then reading (fun _ => Throw TypeError)
                                else
                                  etype <~ reading (fun h => Return (get h e' "type")) ;;
                                  if is_str etype "object" then
                                    eitems <~ reading (fun h => Return (get h e' "items")) ;;
                                    pl <~ propertiesList eitems ;;
                                    text <~ propertiesTemplate program fuel pl ;;
                                    s <~ reading (fun _ => replace_dquotes text) ;;
                                    ret (Some s)
                                  else typeFor e
                              end) alternatives ;;
                   ret (Some ("Array<" ++ join_vals " | " parts ++ ">"))
               | _ => reading (fun _ => Throw TypeError)
               end
             else
               ref <~ reading (fun h => Return (js_has h "$ref" items,
                                               get h items "$ref")) ;;
               if fst ref then
                 name <~ reading (fun _ => definitionTypeName (snd ref)) ;;
                 ret (Some ("Array<" ++ tpl name ++ ">"))
               else
                 itype <~ reading (fun h => Return (get h items "type")) ;;
                 if is_str itype "object" then
                   pl <~ propertiesList (Some items) ;;
                   text <~ propertiesTemplate program fuel pl ;;
                   child <~ reading (fun _ => replace_dquotes text) ;;
                   ret (Some ("Array<" ++ child ++ ">"))
                 else
                   mapped <~ reading (fun h => typeMapping_get fuel h itype) ;;
                   ret (Some ("Array<" ++ tpl mapped ++ ">"))
         end
       else
         enum <~ reading (fun h => Return (js_has h "enum" property,
                                          get h property "enum")) ;;
         if is_str type "string" && fst enum then
           values <~ reading (fun h => Return (match snd enum with
                                               | Some o => cell_at h o
                                               | None => None
                                               end)) ;;
           match values with
           | Some (CArr values) =>
               literals <~ reading (fun h =>
                             mapM (fun e => s <- template fuel h e ;;
                                            Return ("'" ++ s ++ "'")) values) ;;
               ret (Some (join " | " literals))
           | _ => reading (fun _ => Throw TypeError)
           end
         else
           mapped <~ reading (fun h => typeMapping_get fuel h type) ;;
           if truthy_t mapped then ret mapped
           else reading (fun h => definitionTypeName (get h property "$ref"))
   end)%store.

(** One single-entry object of the [reduce] in [propertiesList]. *)
Definition property_entry (typeFor : hvalue -> St type_error tyval) (definition : hval)
    (kv : string * hvalue) : St type_error (string * hvalue) :=
  (key <~ reading (fun h => propertyKeyForDefinition h (fst kv) definition) ;;
   text <~ typeFor (snd kv) ;;
   ret (key, text_value text))%store.

Definition propertiesList_body (typeFor : hvalue -> St type_error tyval)
    (propertiesList : hvalue -> St type_error hvalue)
    (definition : hvalue) : St type_error hvalue :=
  (match definition with
   | None => reading (fun _ => Throw TypeError)
   | Some definition =>
     if negb (is_object definition) then reading (fun _ => Throw TypeError)
     else
       allOf <~ reading (fun h => Return (js_has h "allOf" definition,
                                         get h definition "allOf")) ;;
       if fst allOf then
         members <~ reading (fun h => Return (match snd allOf with
                                              | Some o => cell_at h o
                                              | None => None
                                              end)) ;;
         match members with
         | Some (CArr members) =>
             results <~ mapS propertiesList members ;;
             a <~ alloc (CArr results) ;;
             ret (Some a)
         | _ => reading (fun _ => Throw TypeError)
         end
       else
         ref <~ reading (fun h => Return (get h definition "$ref")) ;;
         if truthy_v ref then
           name <~ reading (fun _ => definitionTypeName ref) ;;
           marker <~ alloc (CObj [("$ref", text_value name)]) ;;
           ret (Some marker)
         else
           type <~ reading (fun h => Return (js_has h "type" definition,
                                            get h definition "type")) ;;
           if fst type && negb (is_str (snd type) "object") then
             text <~ typeFor_body typeFor propertiesList (Some definition) ;;
             ret (text_value text)
           else
             properties <~ reading (fun h => Return (get h definition "properties")) ;;
             keys <~ reading (fun h => Return (match properties with
                                               | Some p => own_entries h p
                                               | None => []
                                               end)) ;;
             if negb (truthy_v properties) || (length keys =? 0)%nat then
               empty <~ alloc (CObj []) ;;
               ret (Some empty)
             else
               target <~ alloc (CObj []) ;;
               entries <~ mapS (property_entry typeFor definition) keys ;;
               merged <~ Object_assign target (map (fun e => [e]) entries) ;;
               ret (Some merged)
   end)%store.
End Engine.

Section Run.
Variable program : options.

Fixpoint typeFor (fuel : nat) (property : hvalue) {struct fuel} : St type_error tyval :=
  match fuel with
  | 0 => reading (fun _ => Unmodelled)
  | S fuel' => typeFor_body program (S fuel') (typeFor fuel') (propertiesList fuel') property
  end
with propertiesList (fuel : nat) (definition : hvalue) {struct fuel}
  : St type_error hvalue :=
  match fuel with
  | 0 => reading (fun _ => Unmodelled)
  | S fuel' =>
      propertiesList_body program (S fuel') (typeFor fuel') (propertiesList fuel') definition
  end.

(** ** Import Resolver *)

Definition importsList (definition : hvalue) : St type_error hval :=
  (match definition with
   | None => reading (fun _ => Throw TypeError)
   | Some definition =>
     if is_null definition then reading (fun _ => Throw TypeError)
     else
       properties <~ reading (fun h => Return (get h definition "properties")) ;;
       match properties with
       | Some properties =>
           if negb (truthy properties) then alloc (CArr [])
           else
             names <~ reading (fun h =>
                 reduceM (fun acc value =>
                     match value with
                     | Some value =>
                         if truthy value && truthy_v (get h value "$ref") then
                           name <- definitionTypeName (get h value "$ref") ;;
                           Return (acc ++ [name])%list
                         else if truthy value && is_str (get h value "type") "array"
                                 && truthy_v (get h value "items")
                                 && truthy_v (match get h value "items" with
                                              | Some items => get h items "$ref"
                                              | None => None
                                              end) then
                           name <- definitionTypeName (match get h value "items" with
                                                       | Some items => get h items "$ref"
                                                       | None => None
                                                       end) ;;
                           Return (acc ++ [name])%list
                         else Return acc
                     | None => Return acc
                     end)
                   (map snd (own_entries h properties)) []) ;;
             alloc (CArr (map text_value names))
       | None => alloc (CArr [])
       end
   end)%store.

(** ** Definition Collector *)

Definition generatorArray (fuel : nat) (swagger : hval) : St exn hval :=
  (if is_null swagger then reading (fun _ => Throw (Uncaught TypeError))
   else
       defs <~ reading (fun h => Return
                 (if truthy_v (get h swagger "definitions") then get h swagger "definitions"
                  else match get h swagger "components" with
                       | Some components =>
                           if truthy components then get h components "schemas" else None
                       | None => None
                       end)) ;;
       if truthy_v defs then
         keys <~ reading (fun h => Return (match defs with
                                           | Some d => own_entries h d
                                           | None => []
                                           end)) ;;
         records <~ mapS (fun kv =>
                       liftS (props <~ propertiesList fuel (snd kv) ;;
                              imps <~ importsList (snd kv) ;;
                              record <~ alloc (CObj
                                 [ ("title", Some (HStr (stripBrackets
                                                           (removeGenericsBug (fst kv)))));
                                   ("properties", props);
                                   ("imports", Some imps) ]) ;;
                              ret (Some record)))
                     keys ;;
         alloc (CArr records)
       else reading (fun _ => Throw (Error "There is no definition")))%store.

(** ** Emitter: declaration text *)

(** The elements of an array of type texts. *)
Definition texts_of (elems : list hvalue) : M (list tyval) :=
  mapM (fun e => match e with
                 | None => Return None
                 | Some (HStr s) => Return (Some s)
                 | _ => Unmodelled
                 end) elems.

Definition importTemplates (h : heap) (definition : hval) : M string :=
  match get h definition "imports" with
  | Some (HRef l) =>
      match nth_error h l with
      | Some (CArr elems) =>
          names <- texts_of elems ;;
          Return (join newline (map importTemplate (Array_from_Set names)))
      | _ => Unmodelled
      end
  | _ => Unmodelled
  end.

Definition generateTypeFile (fuel : nat) (definition : hval) : St type_error string :=
  (title <~ reading (fun h => template fuel h (get h definition "title")) ;;
   properties <~ reading (fun h => Return (get h definition "properties")) ;;
   text <~ propertiesTemplate program fuel properties ;;
   expression <~ reading (fun _ => replace_dquotes text) ;;
   imports <~ reading (fun h => importTemplates h definition) ;;
   ret (imports ++ "export type " ++ title ++ " = " ++ expression ++ ";"))%store.

(** ** A run

    What the action of the command does with a parsed document, up to the
    formatter: the definitions are collected, and for each of them in turn
    the name of its file and the text of its declaration are built. *)
Definition run (fuel : nat) (content : hval) : St exn (list (string * string)) :=
  (results <~ generatorArray fuel content ;;
   definitions <~ reading (fun h => match cell_at h results with
                                    | Some (CArr definitions) => Return definitions
                                    | _ => Throw (Uncaught TypeError)
                                    end) ;;
   mapS (fun definition =>
           match definition with
           | None => reading (fun _ => Throw (Uncaught TypeError))
           | Some definition =>
             if is_null definition then reading (fun _ => Throw (Uncaught TypeError))
             else
               title <~ reading (fun h => match get h definition "title" with
                                          | Some (HStr title) => Return title
                                          | _ => Throw (Uncaught TypeError)
                                          end) ;;
               text <~ liftS (generateTypeFile fuel definition) ;;
               ret (removeGenericsBug title, removeGenericsBug text)
           end) definitions)%store.
End Run.

End Store.

(** * Vocabulary of the properties *)

(** [precedes k1 k2]: an object that holds both keys may enumerate [k1]
    before [k2] when they were created in that order. *)
Definition precedes (k1 k2 : string) : bool :=
  match array_index k1, array_index k2 with
  | Some i, Some j => (i <? j)%N
  | Some _, None => true
  | None, Some _ => false
  | None, None => negb (String.eqb k1 k2)
  end.

(** A sequence of keys as an object enumerates them: no key twice, the array
    indices first and ascending. *)
Fixpoint own_property_order (ks : list string) : bool :=
  match ks with
  | [] => true
  | k :: r => forallb (precedes k) r && own_property_order r
  end.

(** A key that an assignment to an ordinary object creates. *)
Definition assignable (k : string) : bool := negb (String.eqb k "__proto__").

(** The [required] list of a definition; a definition without the entry
    requires nothing. *)
Definition required_list (definition : json) (names : list json) : Prop :=
  (get definition "required" = None /\ names = []) \/
  get definition "required" = Some (JArr names).

(** The key the Property-List Builder gives to the property [propName]. *)
Definition key_for (program : options) (required : list json) (propName key : string) : Prop :=
  (checkRequired program = false -> key = propName) /\
  (checkRequired program = true ->
   (In (JStr propName) required -> key = propName) /\
   (~ In (JStr propName) required -> key = propName ++ "?")).

(** One mapping entry for one property: the key above, the value
    synthesized by [typeFor]. *)
Definition entry_for (program : options) (required : list json)
    (property : string * json) (entry : string * tyval) : Prop :=
  key_for program required (fst property) (fst entry) /\
  typeFor program (snd property) = Return (snd entry).


(** A rendered member that starts with an ampersand: an intersection
    operand. *)
Definition is_operand (s : string) : bool :=
  match s with
  | String c _ => ascii_is c "&"%char
  | EmptyString => false
  end.

(** The test the Emitter applies to a member of an [allOf] list, the
    truthiness of [property.$ref]: the member is printed as an operand when
    it holds and as a literal when it fails. It is the test of the code and
    not the notion of a reference: the property list of an object schema
    that declares a property named [$ref] passes it, and the marker of a
    pointer that does not resolve fails it. *)
Definition ref_is_truthy (property : plist) : bool := truthy_t (member_ref property).

(** The two renderings of a member. *)
Definition intersection_operand (property : plist) : string :=
  "& " ++ tpl (member_ref property).

Definition object_literal (program : options) (property : plist) : string :=
  if exact program then withExact (stringify property) else stringify property.


(** The pointer through which a property refers to a named schema: its own
    [$ref], or else, for an array, the [$ref] of its items. *)
Definition items_ref (property : json) : value :=
  match get property "items" with
  | Some items => get items "$ref"
  | None => None
  end.

Definition referenced_pointer (property : json) : option value :=
  if truthy property && truthy_v (get property "$ref") then Some (get property "$ref")
  else if truthy property && is_str (get property "type") "array"
          && truthy_v (get property "items") && truthy_v (items_ref property)
       then Some (items_ref property)
  else None.

Definition referenced_pointers (values : list json) : list value :=
  flat_map (fun v => match referenced_pointer v with
                     | Some p => [p]
                     | None => []
                     end) values.

(** A list without its repetitions, the earliest occurrence of every value
    kept, in the order of the list. *)
Fixpoint first_occurrences (l : list tyval) : list tyval :=
  match l with
  | [] => []
  | x :: r => x :: filter (fun y => negb (tyval_eqb x y)) (first_occurrences r)
  end.

(** The size of a document: every sub-document is smaller. *)
Fixpoint json_size (j : json) : nat :=
  match j with
  | JArr l => S (list_sum (map json_size l))
  | JObj fs => S (list_sum (map (fun kv => json_size (snd kv)) fs))
  | _ => 1
  end.

(** A call that, when it returns, returns a string. *)
Definition returns_text (m : M tyval) : Prop := forall t, m = Return t -> t <> None.

(** The characters of a text. *)
Definition chars (s : string) : list ascii := list_ascii_of_string s.

(** The map of schemas the collectors select: [definitions] when that is
    truthy, else [components.schemas] when [components] is. *)
Definition selected_definitions (swagger : json) : value :=
  if truthy_v (get swagger "definitions") then get swagger "definitions"
  else match get swagger "components" with
       | Some components =>
           if truthy components then get components "schemas" else None
       | None => None
       end.

(** The characters a title never holds: the two brackets, the apostrophe
    and the two guillemets. *)
Definition title_character (c : ascii) : bool :=
  negb (ascii_is c "["%char || ascii_is c "]"%char || ascii_is c "'"%char
        || ascii_is c "171"%char || ascii_is c "187"%char).

Definition guillemet_free (s : string) : Prop :=
  ~ In "171"%char (chars s) /\ ~ In "187"%char (chars s).


(** What the Definition Collector makes of one entry of the selected map. *)
Definition collected (program : options) (entry : string * json) (d : generated) : Prop :=
  title d = stripBrackets (removeGenericsBug (fst entry)) /\
  propertiesList program (snd entry) = Return (properties d) /\
  importsList (snd entry) = Return (imports d).

(** The shapes of a document the engine tells apart. *)
Definition is_null (j : json) : bool :=
  match j with JNull => true | _ => false end.

Definition is_object (j : json) : bool :=
  match j with JObj _ | JArr _ => true | _ => false end.

(** ** Documents and property lists in a store *)

(** The value [v] is, in the store [h], the parsed document [j]: a
    primitive is itself, an object or an array is a location whose cell
    holds the entries or the elements, each of them the sub-document. *)
#[warnings="-register-all"]
Inductive doc_at (h : Store.heap) : Store.hval -> json -> Prop :=
| doc_null : doc_at h Store.HNull JNull
| doc_bool (b : bool) : doc_at h (Store.HBool b) (JBool b)
| doc_num (r : string) : doc_at h (Store.HNum r) (JNum r)
| doc_str (s : string) : doc_at h (Store.HStr s) (JStr s)
| doc_arr (l : nat) (vs : list Store.hvalue) (elems : list json) :
    nth_error h l = Some (Store.CArr vs) ->
    Forall2 (fun v j => exists x, v = Some x /\ doc_at h x j) vs elems ->
    doc_at h (Store.HRef l) (JArr elems)
| doc_obj (l : nat) (fs : list (string * Store.hvalue)) (fields : list (string * json)) :
    nth_error h l = Some (Store.CObj fs) ->
    Forall2 (fun f e => fst f = fst e /\ exists x, snd f = Some x /\ doc_at h x (snd e))
            fs fields ->
    doc_at h (Store.HRef l) (JObj fields).

(** The same for a value that may be [undefined]. *)
Definition val_at (h : Store.heap) (v : Store.hvalue) (j : value) : Prop :=
  match v, j with
  | None, None => True
  | Some x, Some y => doc_at h x y
  | _, _ => False
  end.

(** The value [v] is, in the store [h], the property list [p]. *)
#[warnings="-register-all"]
Inductive plist_at (h : Store.heap) : Store.hvalue -> plist -> Prop :=
| plist_text (t : tyval) : plist_at h (Store.text_value t) (PText t)
| plist_obj (l : nat) (es : list (string * tyval)) :
    nth_error h l = Some (Store.CObj (map (fun e => (fst e, Store.text_value (snd e))) es)) ->
    plist_at h (Some (Store.HRef l)) (PObj es)
| plist_arr (l : nat) (vs : list Store.hvalue) (ms : list plist) :
    nth_error h l = Some (Store.CArr vs) ->
    Forall2 (plist_at h) vs ms ->
    plist_at h (Some (Store.HRef l)) (PArr ms).

(** The value [v] is, in the store [h], the collected definition [d]. *)
Definition generated_at (h : Store.heap) (v : Store.hvalue) (d : generated) : Prop :=
  exists l props imps,
    v = Some (Store.HRef l) /\
    nth_error h l = Some (Store.CObj [ ("title", Some (Store.HStr (title d)));
                                       ("properties", props);
                                       ("imports", Some (Store.HRef imps)) ]) /\
    plist_at h props (properties d) /\
    nth_error h imps = Some (Store.CArr (map Store.text_value (imports d))).

(** The nesting of the lists in a property list. *)
Fixpoint plist_size (p : plist) : nat :=
  match p with
  | PArr ms => S (list_sum (map plist_size ms))
  | _ => 0
  end.

(** A store that has grown: the cells of [h] are where they were. *)
Definition extends (h h' : Store.heap) : Prop := exists extra, h' = (h ++ extra)%list.

(** The call [m], started in the store [h], ends like the pure call [p]:
    with a result that is [p]'s in the store it leaves, or the same
    exception; and that store is [h], grown. *)
Definition sim {E A B} (R : Store.heap -> A -> B -> Prop) (h : Store.heap)
    (m : Store.St E A) (p : outcome E B) : Prop :=
  extends h (snd (m h)) /\
  match fst (m h), p with
  | Return a, Return b => R (snd (m h)) a b
  | Throw e, Throw e' => e = e'
  | Unmodelled, Unmodelled => True
  | _, _ => False
  end.

(** An entry of an object, or an element of an array with its index. *)
Definition entry_at (h : Store.heap) (f : string * Store.hvalue) (e : string * json) : Prop :=
  fst f = fst e /\ exists x, snd f = Some x /\ doc_at h x (snd e).

(** The value [a] is, in the store [h], the array of the names. *)
Definition imports_at (h : Store.heap) (a : Store.hval) (names : list tyval) : Prop :=
  exists l, a = Store.HRef l /\ nth_error h l = Some (Store.CArr (map Store.text_value names)).

(** The value [a] is, in the store [h], the array of the collected
    definitions. *)
Definition results_at (h : Store.heap) (a : Store.hval) (results : list generated) : Prop :=
  exists l vs, a = Store.HRef l /\ nth_error h l = Some (Store.CArr vs) /\
               Forall2 (generated_at h) vs results.

(** * Properties *)

(** ** Reading a document *)

Lemma field_get {A} (o : json) (k : string) (absent : A) (present : json -> A) :
  field o k absent present =
  match get o k with
  | Some v => present v
  | None => absent
  end.
Proof.
  destruct o as [| | | | |fs]; try reflexivity.
  simpl. induction fs as [|[k' v] r IH]; simpl; [reflexivity|].
  destruct (String.eqb k' k); [reflexivity|exact IH].
Qed.

Lemma js_has_get (o : json) (k : string) :
  js_has k o = match get o k with Some _ => true | None => false end.
Proof. destruct o; reflexivity. Qed.

Lemma typeFor_eq (program : options) (property : json) :
  typeFor program property =
  typeFor_body program (typeFor program) (propertiesList program) property.
Proof. destruct property; reflexivity. Qed.

Lemma propertiesList_eq (program : options) (definition : json) :
  propertiesList program definition =
  propertiesList_body program (typeFor program) (propertiesList program) definition.
Proof. destruct definition; reflexivity. Qed.

(** [typeFor] of a string raises a TypeError: the case [propertiesList] meets
    when [properties] is itself a string. *)
Lemma typeFor_string (program : options) (s : string) :
  typeFor program (JStr s) = Throw TypeError.
Proof. reflexivity. Qed.

(** ** Reference Resolver *)

Lemma strip_prefix_app (p s : string) : strip_prefix p (p ++ s) = Some s.
Proof.
  induction p as [|a p IH]; simpl; [reflexivity|].
  unfold ascii_is. rewrite Ascii.eqb_refl. exact IH.
Qed.

Lemma strip_prefix_sound (p s rest : string) :
  strip_prefix p s = Some rest -> s = p ++ rest.
Proof.
  revert s. induction p as [|a p IH]; intros s H; simpl in *.
  - now inversion H.
  - destruct s as [|b s]; [discriminate|].
    unfold ascii_is in H. destruct (Ascii.eqb a b) eqn:E; [|discriminate].
    apply Ascii.eqb_eq in E. subst b. simpl. f_equal. now apply IH.
Qed.

Lemma ref_match_eq (s : string) :
  ref_match s =
  match strip_prefix "#/definitions/" s with
  | Some rest => Some (Some (dot_star rest), None)
  | None =>
      match strip_prefix "#/components/schemas/" s with
      | Some rest => Some (None, Some (dot_star rest))
      | None => match s with
                | EmptyString => None
                | String _ r => ref_match r
                end
      end
  end.
Proof. destruct s; reflexivity. Qed.

(** A pointer in which neither pattern occurs, at any position, has no
    match. *)
Lemma ref_match_none (s : string) :
  ref_match s = None <->
  forall before after,
    s <> before ++ "#/definitions/" ++ after /\
    s <> before ++ "#/components/schemas/" ++ after.
Proof.
  split.
  - induction s as [|c s IH]; intros H before after.
    + split; intro E; destruct before; discriminate.
    + rewrite ref_match_eq in H.
      destruct (strip_prefix "#/definitions/" (String c s)) eqn:E1; [discriminate|].
      destruct (strip_prefix "#/components/schemas/" (String c s)) eqn:E2; [discriminate|].
      specialize (IH H).
      split; intro E; destruct before as [|b before].
      * rewrite E in E1. change (EmptyString ++ ?x) with x in E1.
        rewrite strip_prefix_app in E1. discriminate.
      * cbn [append] in E. inversion E; subst.
        exact (proj1 (IH before after) eq_refl).
      * rewrite E in E2. change (EmptyString ++ ?x) with x in E2.
        rewrite strip_prefix_app in E2. discriminate.
      * cbn [append] in E. inversion E; subst.
        exact (proj2 (IH before after) eq_refl).
  - induction s as [|c s IH]; intros H.
    + reflexivity.
    + assert (E1 : strip_prefix "#/definitions/" (String c s) = None).
      { destruct (strip_prefix "#/definitions/" (String c s)) eqn:E; [|reflexivity].
        apply strip_prefix_sound in E. exfalso.
        now apply (proj1 (H EmptyString s0)). }
      assert (E2 : strip_prefix "#/components/schemas/" (String c s) = None).
      { destruct (strip_prefix "#/components/schemas/" (String c s)) eqn:E; [|reflexivity].
        apply strip_prefix_sound in E. exfalso.
        now apply (proj2 (H EmptyString s0)). }
      rewrite ref_match_eq, E1, E2. apply IH. intros before after.
      split; intro E; subst s.
      * now apply (proj1 (H (String c before) after)).
      * now apply (proj2 (H (String c before) after)).
Qed.

(** The first half of the resolver's contract: a pointer string that
    matches neither pattern resolves to the empty string, and nothing is
    raised. *)
Lemma definitionTypeName_no_match (s : string) :
  (forall before after,
      s <> before ++ "#/definitions/" ++ after /\
      s <> before ++ "#/components/schemas/" ++ after) ->
  definitionTypeName (Some (JStr s)) = Return (Some "").
Proof.
  intro H. apply ref_match_none in H. unfold definitionTypeName. now rewrite H.
Qed.

(** A pointer that starts with [#/definitions/] resolves to what follows on
    the same line, when that is not empty. *)
Lemma definitionTypeName_definitions (name : string) :
  dot_star name = name -> name <> "" ->
  definitionTypeName (Some (JStr ("#/definitions/" ++ name))) = Return (Some name).
Proof.
  intros Hline Hne. unfold definitionTypeName.
  destruct name as [|c name]; [congruence|].
  change (ref_match ("#/definitions/" ++ String c name))
    with (Some (Some (dot_star (String c name)), @None string)).
  rewrite Hline. reflexivity.
Qed.

(** C5. The resolver on a pointer that matches with nothing after the
    prefix: after [#/definitions/] the first capture is the empty string,
    which [found[1] || found[2]] passes over for the second, unset capture,
    so the call returns [undefined]; after [#/components/schemas/] the same
    expression returns the empty trailing segment. *)
Theorem definitionTypeName_empty_segment :
  definitionTypeName (Some (JStr "#/definitions/")) = Return None /\
  definitionTypeName (Some (JStr "#/components/schemas/")) = Return (Some "").
Proof. split; reflexivity. Qed.

(** ** Type Synthesizer *)

Lemma is_str_true (v : value) (lit : string) :
  is_str v lit = true -> v = Some (JStr lit).
Proof.
  destruct v as [[| | |s| |]|]; simpl; try discriminate.
  intro H. apply String.eqb_eq in H. now subst.
Qed.

Lemma mapM_map {E X Y Z} (f : Y -> outcome E Z) (g : X -> Y) (l : list X) :
  mapM f (map g l) = mapM (fun x => f (g x)) l.
Proof.
  induction l as [|x l IH]; simpl; [reflexivity|]. now rewrite IH.
Qed.

Lemma mapM_pure {E X Y} (f : X -> outcome E Y) (g : X -> Y) (l : list X) :
  (forall x, f x = Return (g x)) -> mapM f l = Return (map g l).
Proof.
  intro H. induction l as [|x l IH]; simpl; [reflexivity|].
  now rewrite H, IH.
Qed.

(** C8. A schema node whose [type] has no entry in the primitive table and
    which has no [$ref]: [typeFor] hands the absent pointer to the Reference
    Resolver, whose [ref.match] then raises a TypeError; the call does not
    return. *)
Theorem typeFor_unmapped_without_ref (program : options) (property : json) :
  typeMapping_get (get property "type") = Return None ->
  get property "$ref" = None ->
  typeFor program property = Throw TypeError.
Proof.
  intros Hmap Href. rewrite typeFor_eq. unfold typeFor_body.
  destruct (is_str (get property "type") "array") eqn:Earray.
  { apply is_str_true in Earray. rewrite Earray in Hmap. discriminate. }
  destruct (is_str (get property "type") "string") eqn:Estring.
  { apply is_str_true in Estring. rewrite Estring in Hmap. discriminate. }
  rewrite Hmap, Href. destruct property; reflexivity.
Qed.

Lemma typeFor_unmapped_without_ref_witness :
  typeFor {| destination := None; checkRequired := false; exact := false |}
    (JObj [("type", JStr "file")]) = Throw TypeError.
Proof.
  apply (typeFor_unmapped_without_ref
           {| destination := None; checkRequired := false; exact := false |}
           (JObj [("type", JStr "file")])); reflexivity.
Defined.

(** The same on a node that has neither [type] nor [$ref]. *)
Example typeFor_empty_node :
  typeFor {| destination := None; checkRequired := false; exact := false |} (JObj []) =
  Throw TypeError.
Proof. reflexivity. Qed.

Lemma mapM_then {E X Y Z} (f : X -> outcome E Y) (g : Y -> Z) (l : list X) (ys : list Y) :
  mapM f l = Return ys ->
  mapM (fun x => y <- f x ;; Return (g y)) l = Return (map g ys).
Proof.
  revert ys. induction l as [|x l IH]; simpl; intros ys H.
  - now inversion H.
  - destruct (f x) as [y| |]; simpl in *; try discriminate.
    destruct (mapM f l) as [ys'| |]; simpl in *; try discriminate.
    inversion H. now rewrite (IH ys' eq_refl).
Qed.

Lemma mapM_to_string_strings (names : list string) :
  mapM to_string (map JStr names) = Return names.
Proof.
  rewrite mapM_map. rewrite (mapM_pure _ (fun s => s)); [now rewrite map_id|].
  reflexivity.
Qed.

(** An array of references synthesizes to the array of the resolved name. *)
Example typeFor_array_of_ref :
  typeFor {| destination := None; checkRequired := false; exact := false |}
    (JObj [("type", JStr "array"); ("items", JObj [("$ref", JStr "#/definitions/Pet")])]) =
  Return (Some "Array<Pet>").
Proof. reflexivity. Qed.

(** C6. A node with [type: string] and an [enum] list synthesizes to the
    union of its values between single quotes, one literal per value, in
    the order of the list; a value that is a string is its own text. *)
Theorem typeFor_enum (program : options) (fs : list (string * json))
    (values : list json) (texts : list string) :
  get (JObj fs) "type" = Some (JStr "string") ->
  get (JObj fs) "enum" = Some (JArr values) ->
  mapM to_string values = Return texts ->
  typeFor program (JObj fs) =
    Return (Some (join " | " (map (fun s => "'" ++ s ++ "'") texts))) /\
  length texts = length values /\
  (forall names, values = map JStr names -> texts = names).
Proof.
  intros Htype Henum Htexts. split; [|split].
  - rewrite typeFor_eq. unfold typeFor_body.
    rewrite Htype, js_has_get, Henum. cbn [is_str String.eqb Ascii.eqb Bool.eqb andb].
    now rewrite (mapM_then _ (fun s => "'" ++ s ++ "'") _ _ Htexts).
  - clear - Htexts. revert texts Htexts.
    induction values as [|v values IH]; simpl; intros texts H.
    + now inversion H.
    + destruct (to_string v); simpl in H; try discriminate.
      destruct (mapM to_string values) as [ts| |]; simpl in H; try discriminate.
      inversion H. simpl. now rewrite (IH ts eq_refl).
  - intros names Hnames. subst values.
    rewrite mapM_to_string_strings in Htexts. now inversion Htexts.
Qed.

Lemma typeFor_enum_witness :
  typeFor {| destination := None; checkRequired := false; exact := false |}
    (JObj [("type", JStr "string"); ("enum", JArr [JStr "a"; JStr "b"; JStr "c"])]) =
  Return (Some "'a' | 'b' | 'c'").
Proof.
  apply (typeFor_enum _ [("type", JStr "string");
                         ("enum", JArr [JStr "a"; JStr "b"; JStr "c"])]
                      [JStr "a"; JStr "b"; JStr "c"] ["a"; "b"; "c"]); reflexivity.
Defined.

(** ** Property-List Builder *)

Lemma append_empty_r (s : string) : s ++ "" = s.
Proof. induction s as [|c s IH]; simpl; [reflexivity|now rewrite IH]. Qed.

Lemma mapM_Forall2 {E X Y} (f : X -> outcome E Y) (l : list X) (l' : list Y) :
  Forall2 (fun x y => f x = Return y) l l' -> mapM f l = Return l'.
Proof.
  induction 1 as [|x y l l' Hxy _ IH]; simpl; [reflexivity|].
  now rewrite Hxy, IH.
Qed.

Lemma precedes_neq (k1 k2 : string) :
  precedes k1 k2 = true -> String.eqb k1 k2 = false.
Proof.
  unfold precedes. intro H.
  destruct (String.eqb k1 k2) eqn:E; [|reflexivity].
  apply String.eqb_eq in E. subst k2.
  destruct (array_index k1) as [i|].
  - apply N.ltb_lt in H. lia.
  - discriminate.
Qed.

Lemma has_key_preceded {A} (k : string) (o : list (string * A)) :
  Forall (fun k' => precedes k' k = true) (map fst o) -> has_key k o = false.
Proof.
  unfold has_key. induction o as [|[k' v'] o IH]; simpl; intro H; [reflexivity|].
  inversion H as [|? ? Hk Ho]; subst.
  rewrite (precedes_neq _ _ Hk). now apply IH.
Qed.

Lemma obj_insert_index_last {A} (i : N) (k : string) (v : A) (o : list (string * A)) :
  array_index k = Some i ->
  Forall (fun k' => precedes k' k = true) (map fst o) ->
  obj_insert_index i k v o = (o ++ [(k, v)])%list.
Proof.
  intros Hk. induction o as [|[k' v'] o IH]; simpl; intro H; [reflexivity|].
  inversion H as [|? ? Hp Ho]; subst.
  unfold precedes in Hp. rewrite Hk in Hp.
  destruct (array_index k') as [j|]; [|discriminate].
  rewrite Hp. now rewrite IH.
Qed.

Lemma obj_set_last {A} (o : list (string * A)) (k : string) (v : A) :
  Forall (fun k' => precedes k' k = true) (map fst o) ->
  obj_set o k v = (o ++ [(k, v)])%list.
Proof.
  intro H. unfold obj_set. rewrite (has_key_preceded _ _ H).
  destruct (array_index k) as [i|] eqn:E; [|reflexivity].
  now apply obj_insert_index_last.
Qed.

Lemma own_property_order_before (l1 l2 : list string) (k : string) :
  own_property_order (l1 ++ k :: l2)%list = true ->
  Forall (fun k' => precedes k' k = true) l1.
Proof.
  induction l1 as [|a l1 IH]; simpl; intro H; [constructor|].
  apply andb_prop in H. destruct H as [Ha Hr].
  constructor; [|now apply IH].
  rewrite forallb_forall in Ha. apply Ha. apply in_or_app. right. now left.
Qed.

(** Assigning single-entry objects whose keys already stand in enumeration
    order builds the object that lists them in that order. *)
Lemma Object_assign_in_order {A} (acc es : list (string * A)) :
  own_property_order (map fst (acc ++ es)%list) = true ->
  forallb assignable (map fst es) = true ->
  Object_assign acc (map (fun e => [e]) es) = (acc ++ es)%list.
Proof.
  revert acc. induction es as [|[k v] es IH]; intros acc H Hassign; simpl.
  - now rewrite app_nil_r.
  - simpl in Hassign. apply andb_prop in Hassign. destruct Hassign as [Hk Hes].
    unfold Object_assign in *. simpl. unfold assign_entry at 2. simpl.
    unfold assignable in Hk. apply negb_true_iff in Hk. rewrite Hk.
    rewrite obj_set_last.
    + rewrite IH; [now rewrite <- app_assoc|now rewrite <- app_assoc|exact Hes].
    + rewrite map_app in H. simpl in H.
      now apply own_property_order_before in H.
Qed.

Lemma existsb_is_str (propName : string) (names : list json) :
  existsb (fun e => is_str (Some e) propName) names = true <-> In (JStr propName) names.
Proof.
  rewrite existsb_exists. split.
  - intros [e [Hin He]]. apply is_str_true in He. now inversion He; subst.
  - intro Hin. exists (JStr propName). split; [exact Hin|].
    simpl. apply String.eqb_refl.
Qed.

Lemma propertyKeyForDefinition_key (program : options) (definition : json)
    (required : list json) (propName key : string) :
  definition <> JNull ->
  required_list definition required ->
  key_for program required propName key ->
  propertyKeyForDefinition program propName definition = Return key.
Proof.
  intros Hnull Hreq [Hoff Hon]. unfold propertyKeyForDefinition.
  destruct (checkRequired program) eqn:Ec.
  - destruct (Hon eq_refl) as [Hin Hout].
    assert (Hdef : isRequired propName definition =
                   match get definition "required" with
                   | None => Return false
                   | Some required =>
                       if truthy required then
                         match required with
                         | JArr names =>
                             Return (existsb (fun e => is_str (Some e) propName) names)
                         | JStr s => Return (contains propName s)
                         | _ => Throw TypeError
                         end
                       else Return false
                   end) by (destruct definition; [congruence | reflexivity ..]).
    rewrite Hdef. clear Hdef.
    destruct Hreq as [[Hnone Hnil]|Hsome].
    + rewrite Hnone. subst required. simpl. now rewrite Hout.
    + rewrite Hsome. cbn [truthy bind].
      destruct (existsb (fun e => is_str (Some e) propName) required) eqn:Ee.
      * apply existsb_is_str in Ee. rewrite (Hin Ee). now rewrite append_empty_r.
      * rewrite Hout; [reflexivity|]. intro Hc. apply existsb_is_str in Hc. congruence.
  - now rewrite Hoff.
Qed.

(** C1, as amended. An object schema node with a properties map yields the
    mapping that has, in the key order of the map, one entry per property:
    its value is synthesized by [typeFor]; its key is the bare property name
    when [checkRequired] is off, and when it is on the name, followed by a
    question mark exactly when the name is not in the [required] list -
    provided these keys stand in the order an object enumerates them (no key
    twice, array indices first and ascending), which the keys of the map do
    themselves, and that none of them is [__proto__], whose assignment an
    object does not keep. *)
Theorem propertiesList_object_entries (program : options)
    (fs props : list (string * json)) (required : list json)
    (entries : list (string * tyval)) :
  get (JObj fs) "allOf" = None ->
  truthy_v (get (JObj fs) "$ref") = false ->
  (get (JObj fs) "type" = None \/ get (JObj fs) "type" = Some (JStr "object")) ->
  get (JObj fs) "properties" = Some (JObj props) ->
  required_list (JObj fs) required ->
  Forall2 (entry_for program required) props entries ->
  own_property_order (map fst entries) = true ->
  forallb assignable (map fst entries) = true ->
  propertiesList program (JObj fs) = Return (PObj entries).
Proof.
  intros Hall Href Htype Hprops Hreq Hentries Horder Hassign.
  rewrite propertiesList_eq. unfold propertiesList_body.
  rewrite field_get, Hall, Href.
  assert (Hobj : js_has "type" (JObj fs)
                 && negb (is_str (get (JObj fs) "type") "object") = false).
  { rewrite js_has_get. destruct Htype as [H|H]; rewrite H; reflexivity. }
  rewrite Hobj, field_get, Hprops. cbn [truthy negb].
  assert (Hmap : mapM (fun kv => property_entry program (typeFor program) (JObj fs)
                                   (fst kv) (snd kv)) props = Return entries).
  { apply mapM_Forall2.
    eapply Forall2_impl; [|exact Hentries].
    intros [name node] [key text] [Hkey Htext]. simpl in *.
    unfold property_entry.
    assert (Hnull : JObj fs <> JNull) by discriminate.
    rewrite (propertyKeyForDefinition_key _ _ _ _ _ Hnull Hreq Hkey).
    cbn [bind]. now rewrite Htext. }
  destruct props as [|p props].
  - inversion Hentries. reflexivity.
  - rewrite Hmap. cbn [bind]. unfold merge_entries.
    rewrite Object_assign_in_order; [reflexivity|exact Horder|exact Hassign].
Qed.

Lemma propertiesList_object_entries_witness :
  propertiesList {| destination := None; checkRequired := true; exact := false |}
    (JObj [ ("type", JStr "object");
            ("required", JArr [JStr "id"]);
            ("properties", JObj [ ("id", JObj [("type", JStr "integer")]);
                                  ("name", JObj [("type", JStr "string")]) ]) ]) =
  Return (PObj [("id", Some "number"); ("name?", Some "string")]).
Proof.
  apply (propertiesList_object_entries _ _
           [ ("id", JObj [("type", JStr "integer")]);
             ("name", JObj [("type", JStr "string")]) ]
           [JStr "id"]).
  - reflexivity.
  - reflexivity.
  - right. reflexivity.
  - reflexivity.
  - right. reflexivity.
  - constructor; [|constructor; [|constructor]].
    + split; [|reflexivity]. split; [discriminate|]. intros _. split.
      * reflexivity.
      * intro H. exfalso. apply H. simpl. now left.
    + split; [|reflexivity]. split; [discriminate|]. intros _. split.
      * simpl. intros [H|[]]. discriminate.
      * reflexivity.
  - reflexivity.
  - reflexivity.
Defined.

(** The same schema without a [required] list, [checkRequired] off: the
    mapping is [{id: number, name: string}], in the order of the map. *)
Example propertiesList_pet_plain :
  propertiesList {| destination := None; checkRequired := false; exact := false |}
    (JObj [ ("type", JStr "object");
            ("properties", JObj [ ("id", JObj [("type", JStr "integer")]);
                                  ("name", JObj [("type", JStr "string")]) ]) ]) =
  Return (PObj [("id", Some "number"); ("name", Some "string")]).
Proof. reflexivity. Qed.

(** With [checkRequired] off the keys of the mapping are the keys of the
    properties map, so a map that is itself in enumeration order satisfies
    the first proviso of the theorem above. *)
Lemma entry_keys_unchecked (program : options) (required : list json)
    (props : list (string * json)) (entries : list (string * tyval)) :
  checkRequired program = false ->
  Forall2 (entry_for program required) props entries ->
  map fst entries = map fst props.
Proof.
  intros Hoff H. induction H as [|p e props entries [[Hk _] _] _ IH]; simpl.
  - reflexivity.
  - now rewrite (Hk Hoff), IH.
Qed.

(** C1, the statement as the specification has it, fails where two
    properties receive the same key: with [checkRequired] on, properties [a]
    (not required) and [a?] (required) both map to the key [a?]; each has
    the entry the claim describes, and the merged mapping keeps one. *)
Lemma propertiesList_key_collision :
  let program := {| destination := None; checkRequired := true; exact := false |} in
  let props := [ ("a", JObj [("type", JStr "integer")]);
                 ("a?", JObj [("type", JStr "string")]) ] in
  let definition := JObj [ ("type", JStr "object");
                           ("required", JArr [JStr "a?"]);
                           ("properties", JObj props) ] in
  Forall2 (entry_for program [JStr "a?"]) props
          [("a?", Some "number"); ("a?", Some "string")] /\
  propertiesList program definition = Return (PObj [("a?", Some "string")]).
Proof.
  cbv zeta. split; [|reflexivity].
  constructor; [|constructor; [|constructor]].
  - split; [|reflexivity]. split; [discriminate|]. intros _. split.
    + simpl. intros [H|[]]. discriminate.
    + reflexivity.
  - split; [|reflexivity]. split; [discriminate|]. intros _. split.
    + reflexivity.
    + intro H. exfalso. apply H. simpl. now left.
Qed.

(** The other ways the proviso fails: a key that is an array index moves
    ahead of the keys created before it, and the key [__proto__] is not
    kept. *)
Example propertiesList_index_key_moves :
  propertiesList {| destination := None; checkRequired := true; exact := false |}
    (JObj [ ("required", JArr [JStr "2"]);
            ("properties", JObj [ ("1", JObj [("type", JStr "integer")]);
                                  ("2", JObj [("type", JStr "string")]) ]) ]) =
  Return (PObj [("2", Some "string"); ("1?", Some "number")]).
Proof. reflexivity. Qed.

Example propertiesList_proto_key_dropped :
  propertiesList {| destination := None; checkRequired := false; exact := false |}
    (JObj [ ("properties", JObj [ ("__proto__", JObj [("type", JStr "integer")]);
                                  ("name", JObj [("type", JStr "string")]) ]) ]) =
  Return (PObj [("name", Some "string")]).
Proof. reflexivity. Qed.

(** ** The sort of the [allOf] members *)

Lemma refs_last_operand (a b : string) :
  refs_last a b = if is_operand a then 1%Z else (-1)%Z.
Proof. destruct a; reflexivity. Qed.

(** With the comparator of [propertiesTemplate] the binary search ends at
    the right end for an operand and at the left end for anything else. *)
Lemma binary_search_refs_last (pivot : string) (a : list string) (fuel left right : nat) :
  left <= right -> right - left <= fuel ->
  binary_search refs_last pivot a fuel left right =
  if is_operand pivot then right else left.
Proof.
  revert left right. induction fuel as [|fuel IH]; intros left right Hle Hfuel.
  - simpl. destruct (is_operand pivot); lia.
  - simpl. destruct (left <? right)%nat eqn:E.
    + apply Nat.ltb_lt in E.
      assert (Hhalf : Nat.div2 (right - left) < right - left)
        by (apply Nat.lt_div2; lia).
      set (half := Nat.div2 (right - left)) in *. clearbody half.
      rewrite refs_last_operand. destruct (is_operand pivot) eqn:Ep; simpl.
      * rewrite IH; [reflexivity|lia|lia].
      * rewrite IH; [reflexivity|lia|lia].
    + apply Nat.ltb_ge in E. destruct (is_operand pivot); lia.
Qed.

(** The search does not depend on the fuel it starts with, once that covers
    the interval. *)
Lemma binary_search_fuel {A} (comparefn : A -> A -> Z) (pivot : A) (a : list A)
    (fuel fuel' left right : nat) :
  right - left <= fuel -> right - left <= fuel' ->
  binary_search comparefn pivot a fuel left right =
  binary_search comparefn pivot a fuel' left right.
Proof.
  revert fuel' left right.
  induction fuel as [|fuel IH]; intros fuel' left right H H'.
  - destruct fuel' as [|fuel']; [reflexivity|]. simpl.
    destruct (left <? right)%nat eqn:E; [|reflexivity].
    apply Nat.ltb_lt in E. lia.
  - destruct fuel' as [|fuel']; simpl.
    + destruct (left <? right)%nat eqn:E; [|reflexivity].
      apply Nat.ltb_lt in E. lia.
    + destruct (left <? right)%nat eqn:E; [|reflexivity].
      apply Nat.ltb_lt in E.
      assert (Hhalf : Nat.div2 (right - left) < right - left)
        by (apply Nat.lt_div2; lia).
      set (half := Nat.div2 (right - left)) in *. clearbody half.
      destruct (comparefn pivot (nth (left + half) a pivot) <? 0)%Z;
        apply IH; lia.
Qed.

Lemma BinaryInsertionSort_refs_last (sorted rest : list string) :
  BinaryInsertionSort refs_last sorted rest =
  (rev (filter (fun s => negb (is_operand s)) rest) ++ sorted ++ filter is_operand rest)%list.
Proof.
  revert sorted. induction rest as [|pivot rest IH]; intro sorted; simpl.
  - now rewrite app_nil_r.
  - rewrite binary_search_refs_last by lia. rewrite IH.
    destruct (is_operand pivot); simpl.
    + rewrite firstn_all, skipn_all. rewrite <- !app_assoc. reflexivity.
    + rewrite <- !app_assoc. reflexivity.
Qed.

Lemma count_run_le {A} (comparefn : A -> A -> Z) (d : bool) (previous : A) (rest : list A) :
  count_run comparefn d previous rest <= length rest.
Proof.
  revert previous. induction rest as [|c rest IH]; intro previous; simpl; [lia|].
  destruct (if d then _ else _); [lia|]. specialize (IH c). lia.
Qed.

(** The elements that continue a run are of the kind of its second element:
    operands in an ascending run, the others in a descending one. *)
Lemma count_run_refs_last (d : bool) (previous : string) (rest : list string) :
  Forall (fun s => is_operand s = negb d)
         (firstn (count_run refs_last d previous rest) rest).
Proof.
  revert previous. induction rest as [|c rest IH]; intro previous; simpl; [constructor|].
  rewrite refs_last_operand.
  destruct d, (is_operand c) eqn:Ec; simpl; try constructor; auto.
Qed.

Lemma filter_all {A} (f : A -> bool) (l : list A) :
  Forall (fun x => f x = true) l -> filter f l = l.
Proof.
  induction 1 as [|x l Hx _ IH]; simpl; [reflexivity|]. now rewrite Hx, IH.
Qed.

Lemma filter_none {A} (f : A -> bool) (l : list A) :
  Forall (fun x => f x = false) l -> filter f l = [].
Proof.
  induction 1 as [|x l Hx _ IH]; simpl; [reflexivity|]. now rewrite Hx.
Qed.

(** What the engine's sort makes of an array of fewer than 64 rendered
    members: the members that are not operands, in reverse, then the
    operands, in their order. *)
Lemma Array_sort_refs_last (a : list string) :
  length a < 64 ->
  Array_sort refs_last a =
  Return (rev (filter (fun s => negb (is_operand s)) a) ++ filter is_operand a)%list.
Proof.
  intro Hlen. unfold Array_sort.
  destruct a as [|e0 [|e1 rest]].
  - reflexivity.
  - simpl. destruct (is_operand e0); reflexivity.
  - replace (length (e0 :: e1 :: rest) <? 2)%nat with false
      by (symmetry; apply Nat.ltb_ge; simpl; lia).
    replace (length (e0 :: e1 :: rest) <? 64)%nat with true
      by (symmetry; apply Nat.ltb_lt; exact Hlen).
    unfold CountAndMakeRun. rewrite refs_last_operand.
    set (d := ((if is_operand e1 then 1 else -1) <? 0)%Z).
    assert (Hd : is_operand e1 = negb d) by (subst d; destruct (is_operand e1); reflexivity).
    set (n := count_run refs_last d e1 rest).
    assert (Hn : n <= length rest) by apply count_run_le.
    assert (Hrun : Forall (fun s => is_operand s = negb d) (firstn n rest))
      by apply count_run_refs_last.
    assert (Hrest : rest = (firstn n rest ++ skipn n rest)%list)
      by (symmetry; apply firstn_skipn).
    set (run := firstn n rest) in *. set (remaining := skipn n rest) in *.
    assert (Hfirst : firstn (2 + n) (e0 :: e1 :: rest) = e0 :: e1 :: run) by reflexivity.
    assert (Hskip : skipn (2 + n) (e0 :: e1 :: rest) = remaining) by reflexivity.
    rewrite Hfirst, Hskip.
    assert (Hlenrun : length run = n)
      by (subst run; rewrite length_firstn; lia).
    destruct d.
    + (* a descending run, reversed in place *)
      assert (Hf : firstn (2 + n) (rev (e0 :: e1 :: run) ++ remaining)%list
                   = rev (e0 :: e1 :: run)).
      { rewrite firstn_app, firstn_all2 by (rewrite length_rev; simpl; lia).
        rewrite length_rev. simpl length.
        replace (2 + n - S (S (length run))) with 0 by lia.
        simpl. now rewrite app_nil_r. }
      assert (Hs : skipn (2 + n) (rev (e0 :: e1 :: run) ++ remaining)%list = remaining).
      { rewrite skipn_app, skipn_all2 by (rewrite length_rev; simpl; lia).
        rewrite length_rev. simpl length.
        replace (2 + n - S (S (length run))) with 0 by lia. reflexivity. }
      rewrite Hf, Hs, BinaryInsertionSort_refs_last. f_equal.
      rewrite Hrest. simpl filter. rewrite Hd. simpl negb.
      rewrite !filter_app.
      rewrite (filter_all (fun s => negb (is_operand s)) run)
        by (eapply Forall_impl; [|exact Hrun]; intros s Hs'; simpl in Hs'; now rewrite Hs').
      rewrite (filter_none is_operand run)
        by (eapply Forall_impl; [|exact Hrun]; intros s Hs'; exact Hs').
      destruct (is_operand e0); simpl;
        rewrite ?rev_app_distr; simpl; rewrite <- ?app_assoc; simpl;
        rewrite <- ?app_assoc; reflexivity.
    + (* an ascending run, left as it is *)
      rewrite Hfirst, Hskip, BinaryInsertionSort_refs_last. f_equal.
      rewrite Hrest. simpl filter. rewrite Hd. simpl negb.
      rewrite !filter_app.
      rewrite (filter_none (fun s => negb (is_operand s)) run)
        by (eapply Forall_impl; [|exact Hrun]; intros s Hs'; simpl in Hs'; now rewrite Hs').
      rewrite (filter_all is_operand run)
        by (eapply Forall_impl; [|exact Hrun]; intros s Hs'; exact Hs').
      destruct (is_operand e0); simpl; rewrite <- ?app_assoc; reflexivity.
Qed.

(** The insertion sort of the earlier engine separates the two groups as
    well; inside each group its order is the other one. *)
Lemma insert_element_refs_last (element : string) (operands others : list string) :
  Forall (fun s => is_operand s = true) operands ->
  Forall (fun s => is_operand s = false) others ->
  insert_element refs_last element (operands ++ others)%list =
  (operands ++ element :: others)%list.
Proof.
  intros Hops Hothers. induction Hops as [|o operands Ho _ IH]; simpl.
  - destruct Hothers as [|x others Hx _]; simpl; [reflexivity|].
    now rewrite refs_last_operand, Hx.
  - now rewrite refs_last_operand, Ho, IH.
Qed.

Lemma InsertionSort_refs_last (a : list string) :
  InsertionSort refs_last a =
  (filter (fun s => negb (is_operand s)) a ++ rev (filter is_operand a))%list.
Proof.
  unfold InsertionSort.
  assert (H : forall (operands others : list string),
             Forall (fun s => is_operand s = true) operands ->
             Forall (fun s => is_operand s = false) others ->
             fold_left (fun placed element => insert_element refs_last element placed) a
                       (operands ++ others)%list =
             ((operands ++ filter is_operand a)
              ++ rev (filter (fun s => negb (is_operand s)) a) ++ others)%list).
  { induction a as [|e a IH]; intros operands others Hops Hothers; simpl.
    - now rewrite app_nil_r.
    - rewrite (insert_element_refs_last e operands others Hops Hothers).
      destruct (is_operand e) eqn:Ee; simpl.
      + replace (operands ++ e :: others)%list with ((operands ++ [e]) ++ others)%list
          by (now rewrite <- app_assoc).
        rewrite IH; [|apply Forall_app; split; [exact Hops|now constructor]|exact Hothers].
        now rewrite <- !app_assoc.
      + rewrite (IH operands (e :: others) Hops); [|now constructor].
        now rewrite <- !app_assoc.
  }
  specialize (H [] [] (Forall_nil _) (Forall_nil _)). simpl in H. rewrite H.
  rewrite app_nil_r, rev_app_distr, rev_involutive. reflexivity.
Qed.

(** ** Emitter: the [allOf] list *)

Lemma replace_open_first (s : string) :
  is_operand s = false -> is_operand (replace_open s) = false.
Proof.
  destruct s as [|c s]; [reflexivity|]. simpl.
  destruct (ascii_is c "{") eqn:E; [|now simpl].
  intros _. destruct s as [|d s]; simpl.
  - unfold ascii_is in *. apply Ascii.eqb_eq in E. now subst c.
  - destruct (ascii_is d "|"); simpl; [|reflexivity].
    unfold ascii_is in *. apply Ascii.eqb_eq in E. now subst c.
Qed.

Lemma replace_close_first (s : string) :
  is_operand s = false -> is_operand (replace_close s) = false.
Proof.
  destruct s as [|c s]; [reflexivity|]. simpl. intro Hc.
  destruct (ascii_is c "|") eqn:E; [now simpl|].
  destruct s as [|d s]; simpl; [exact Hc|].
  destruct (ascii_is d "}"); simpl; [reflexivity|exact Hc].
Qed.

Lemma withExact_first (s : string) :
  is_operand s = false -> is_operand (withExact s) = false.
Proof.
  intro H. unfold withExact. now apply replace_close_first, replace_open_first.
Qed.

Lemma stringify_first (property : plist) : is_operand (stringify property) = false.
Proof. destruct property as [[s|]| |]; reflexivity. Qed.

Lemma object_literal_first (program : options) (property : plist) :
  is_operand (object_literal program property) = false.
Proof.
  unfold object_literal. destruct (exact program).
  - apply withExact_first, stringify_first.
  - apply stringify_first.
Qed.

(** A member whose [$ref] entry is truthy becomes [& name]; any other
    member becomes its own literal, with exact delimiters when the flag is
    set. *)
Lemma render_member_eq (program : options) (property : plist) :
  property <> PText None ->
  render_member program property =
  Return (if ref_is_truthy property then intersection_operand property
          else object_literal program property).
Proof.
  intro H. unfold render_member, ref_is_truthy, intersection_operand, object_literal.
  destruct property as [[s|]| |]; try congruence;
    destruct (truthy_t _); reflexivity.
Qed.

Lemma mapM_render_member (program : options) (members : list plist) :
  Forall (fun m => m <> PText None) members ->
  mapM (render_member program) members =
  Return (map (fun m => if ref_is_truthy m then intersection_operand m
                        else object_literal program m) members).
Proof.
  induction 1 as [|m members Hm _ IH]; simpl; [reflexivity|].
  now rewrite (render_member_eq _ _ Hm), IH.
Qed.

Lemma filter_rendered_operands (program : options) (members : list plist) :
  filter is_operand
    (map (fun m => if ref_is_truthy m then intersection_operand m
                   else object_literal program m) members) =
  map intersection_operand (filter ref_is_truthy members).
Proof.
  induction members as [|m members IH]; simpl; [reflexivity|].
  destruct (ref_is_truthy m); simpl.
  - now rewrite IH.
  - now rewrite object_literal_first, IH.
Qed.

Lemma filter_rendered_literals (program : options) (members : list plist) :
  filter (fun s => negb (is_operand s))
    (map (fun m => if ref_is_truthy m then intersection_operand m
                   else object_literal program m) members) =
  map (object_literal program) (filter (fun m => negb (ref_is_truthy m)) members).
Proof.
  induction members as [|m members IH]; simpl; [reflexivity|].
  destruct (ref_is_truthy m); simpl.
  - exact IH.
  - now rewrite object_literal_first, IH.
Qed.

(** The text of an [allOf] list, as the modelled engine orders it: the
    literals of the members whose [$ref] entry is not truthy, last member
    first, then the operands of the other members, first member first. *)
Lemma propertiesTemplate_allOf_text (program : options) (members : list plist) :
  length members < 64 ->
  Forall (fun m => m <> PText None) members ->
  propertiesTemplate program (PArr members) =
  Return (Some (join " "
    (rev (map (object_literal program) (filter (fun m => negb (ref_is_truthy m)) members))
     ++ map intersection_operand (filter ref_is_truthy members))%list)).
Proof.
  intros Hlen Hdef. unfold propertiesTemplate.
  rewrite (mapM_render_member _ _ Hdef). cbn [bind].
  rewrite Array_sort_refs_last by (now rewrite length_map).
  cbn [bind]. now rewrite filter_rendered_operands, filter_rendered_literals.
Qed.

Lemma returns_text_some (s : string) : returns_text (Return (Some s)).
Proof. intros t H. inversion H. discriminate. Qed.

Lemma returns_text_throw : returns_text (Throw TypeError).
Proof. intros t H. discriminate. Qed.

Lemma returns_text_bind {A} (m : M A) (k : A -> M tyval) :
  (forall a, returns_text (k a)) -> returns_text (m' <- m ;; k m').
Proof.
  intros Hk t H. destruct m as [a| |]; simpl in H; try discriminate.
  exact (Hk a t H).
Qed.

Lemma returns_text_field (o : json) (k : string) (a : M tyval) (p : json -> M tyval) :
  returns_text a -> (forall v, returns_text (p v)) -> returns_text (field o k a p).
Proof.
  intros Ha Hp. rewrite field_get. destruct (get o k); auto.
Qed.

Lemma typeFor_body_returns_text (program : options) (tf : json -> M tyval)
    (pl : json -> M plist) (definition : json) :
  truthy_v (get definition "$ref") = false ->
  returns_text (typeFor_body program tf pl definition).
Proof.
  intro Href. unfold typeFor_body.
  destruct definition as [| | | | |fs]; try (intros t H; discriminate).
  destruct (is_str (get (JObj fs) "type") "array").
  - apply returns_text_field; [apply returns_text_throw|]. intro items.
    destruct items; try apply returns_text_throw.
    + cbn [field]. cbn. apply returns_text_some.
    + apply returns_text_field.
      * destruct (js_has "$ref" _).
        { apply returns_text_bind. intro. apply returns_text_some. }
        destruct (is_str _ "object").
        { repeat (apply returns_text_bind; intro). apply returns_text_some. }
        apply returns_text_bind. intro. apply returns_text_some.
      * intro oneOf. destruct oneOf; try apply returns_text_throw.
        apply returns_text_bind. intro. apply returns_text_some.
  - destruct (is_str (get (JObj fs) "type") "string" && js_has "enum" (JObj fs)).
    + destruct (get (JObj fs) "enum") as [[| | | |values|]|]; try apply returns_text_throw.
      apply returns_text_bind. intro. apply returns_text_some.
    + apply returns_text_bind. intros mapped.
      destruct mapped as [[|c s]|]; cbn [truthy_t].
      * (* the table holds no empty text; the resolver decides *)
        destruct (get (JObj fs) "$ref") as [[| | |s| |]|]; simpl in *; try apply returns_text_throw;
          try discriminate.
        destruct s; [|discriminate]. apply returns_text_some.
      * apply returns_text_some.
      * destruct (get (JObj fs) "$ref") as [[| | |s| |]|]; simpl in *; try apply returns_text_throw;
          try discriminate.
        destruct s; [|discriminate]. apply returns_text_some.
Qed.

Lemma propertiesList_defined (program : options) (definition : json) (result : plist) :
  propertiesList program definition = Return result -> result <> PText None.
Proof.
  rewrite propertiesList_eq. unfold propertiesList_body.
  destruct definition; try discriminate.
  - cbn. intro H. inversion H. discriminate.
  - rewrite field_get.
    destruct (get (JObj fields) "allOf") as [allOf|].
    + destruct allOf; try discriminate.
      destruct (mapM (propertiesList program) elems); simpl; try discriminate.
      intro H. inversion H. discriminate.
    + destruct (truthy_v (get (JObj fields) "$ref")) eqn:Href.
      { destruct (definitionTypeName _); simpl; try discriminate.
        intro H. inversion H. discriminate. }
      destruct (js_has "type" (JObj fields) && negb (is_str (get (JObj fields) "type") "object")).
      { destruct (typeFor_body program (typeFor program) (propertiesList program) (JObj fields))
          as [t| |] eqn:Et; simpl; try discriminate.
        intro H. inversion H. subst. intro E. inversion E. subst.
        exact (typeFor_body_returns_text _ _ _ _ Href _ Et eq_refl). }
      rewrite field_get. destruct (get (JObj fields) "properties") as [properties|].
      * destruct (negb (truthy properties)); [intro H; inversion H; discriminate|].
        destruct properties as [| | |s|elems|props]; try (intro H; inversion H; discriminate).
        -- destruct (propertyKeyForDefinition _ _ _); simpl; discriminate.
        -- destruct (mapMi _ _ _); simpl; try discriminate. intro H; inversion H; discriminate.
        -- destruct props; [intro H; inversion H; discriminate|].
           destruct (mapM _ _); simpl; try discriminate. intro H; inversion H; discriminate.
      * intro H; inversion H; discriminate.
Qed.

Lemma mapM_Forall {E X Y} (f : X -> outcome E Y) (P : Y -> Prop) (l : list X) (ys : list Y) :
  (forall x y, f x = Return y -> P y) -> mapM f l = Return ys -> Forall P ys.
Proof.
  intro Hf. revert ys. induction l as [|x l IH]; simpl; intros ys H.
  - inversion H. constructor.
  - destruct (f x) as [y| |] eqn:Ey; simpl in H; try discriminate.
    destruct (mapM f l) as [ys'| |]; simpl in H; try discriminate.
    inversion H. constructor; [now apply (Hf x)|now apply IH].
Qed.

(** The members of a list built by [propertiesList] are values other than
    [undefined]: [render_member] can read their [$ref]. *)
Lemma propertiesList_members_defined (program : options) (definition : json)
    (members : list plist) :
  propertiesList program definition = Return (PArr members) ->
  Forall (fun m => m <> PText None) members.
Proof.
  rewrite propertiesList_eq. unfold propertiesList_body.
  destruct definition; try discriminate.
  rewrite field_get.
  destruct (get (JObj fields) "allOf") as [allOf|].
  - destruct allOf; try discriminate.
    destruct (mapM (propertiesList program) elems) as [results| |] eqn:Em;
      simpl; try discriminate.
    intro H. inversion H. subst.
    eapply mapM_Forall; [|exact Em]. apply propertiesList_defined.
  - destruct (truthy_v (get (JObj fields) "$ref")).
    { destruct (definitionTypeName _); simpl; discriminate. }
    destruct (js_has "type" (JObj fields) && negb (is_str (get (JObj fields) "type") "object")).
    { destruct (typeFor_body _ _ _ _); simpl; discriminate. }
    rewrite field_get. destruct (get (JObj fields) "properties") as [properties|];
      [|discriminate].
    destruct (negb (truthy properties)); [discriminate|].
    destruct properties as [| | |s|elems|props]; try discriminate.
    + destruct (propertyKeyForDefinition _ _ _); simpl; discriminate.
    + destruct (mapMi _ _ _); simpl; discriminate.
    + destruct props; [discriminate|]. destruct (mapM _ _); simpl; discriminate.
Qed.

(** X25. For a definition whose property list is a list (the [allOf] case)
    of fewer than 64 members, the Emitter prints every member whose [$ref]
    entry is truthy as the operand [& name] and every other member as its
    own literal, places every literal before every operand, the operands in
    the order of the list, and joins them with a single space. *)
Theorem propertiesTemplate_allOf_order (program : options) (definition : json)
    (members : list plist) :
  propertiesList program definition = Return (PArr members) ->
  length members < 64 ->
  exists literals operands,
    propertiesTemplate program (PArr members) =
      Return (Some (join " " (literals ++ operands)%list)) /\
    Permutation literals
      (map (object_literal program) (filter (fun m => negb (ref_is_truthy m)) members)) /\
    operands = map intersection_operand (filter ref_is_truthy members).
Proof.
  intros Hlist Hlen. apply propertiesList_members_defined in Hlist.
  exists (rev (map (object_literal program)
                   (filter (fun m => negb (ref_is_truthy m)) members))),
         (map intersection_operand (filter ref_is_truthy members)).
  split; [now apply propertiesTemplate_allOf_text|].
  split; [|reflexivity].
  apply Permutation_sym, Permutation_rev.
Qed.

Lemma propertiesTemplate_allOf_order_witness :
  exists literals operands,
    propertiesTemplate {| destination := None; checkRequired := false; exact := false |}
      (PArr [PObj [("$ref", Some "Base")]; PObj [("extra", Some "string")]]) =
      Return (Some (join " " (literals ++ operands)%list)) /\
    Permutation literals
      [stringify (PObj [("extra", Some "string")])] /\
    operands = ["& Base"].
Proof.
  apply (propertiesTemplate_allOf_order
           {| destination := None; checkRequired := false; exact := false |}
           (JObj [("allOf", JArr [
              JObj [("$ref", JStr "#/definitions/Base")];
              JObj [("properties", JObj [("extra", JObj [("type", JStr "string")])])] ])])
           [PObj [("$ref", Some "Base")]; PObj [("extra", Some "string")]]).
  - reflexivity.
  - simpl. lia.
Defined.

(** The example of the specification, from the schema to the declaration
    text: the concrete object first, the reference last. *)
Example declarations_allOf_example :
  declarations {| destination := None; checkRequired := false; exact := false |}
    (JObj [("definitions", JObj [
       ("Extended", JObj [("allOf", JArr [
          JObj [("$ref", JStr "#/definitions/Base")];
          JObj [("properties", JObj [("extra", JObj [("type", JStr "string")])])] ])]) ])]) =
  Return [("Extended", "export type Extended = {extra:string} & Base;")].
Proof. reflexivity. Qed.

(** C2. The Emitter tells a [$ref] marker from a concrete member by the
    truthiness of the member's [$ref] entry, and that test misses on both
    sides. A concrete object member that declares a property named [$ref]
    is printed as the operand [& string], its other property lost, where
    the claim has its own object literal, placed first. The marker of a
    pointer that does not resolve holds the empty name, and is printed as
    the literal of the marker and not as an operand. *)
Theorem propertiesTemplate_ref_test :
  let program := {| destination := None; checkRequired := false; exact := false |} in
  let concrete :=
    JObj [ ("type", JStr "object");
           ("properties", JObj [ ("$ref", JObj [("type", JStr "string")]);
                                 ("z", JObj [("type", JStr "number")]) ]) ] in
  propertiesList program concrete =
    Return (PObj [("$ref", Some "string"); ("z", Some "number")]) /\
  render_member program (PObj [("$ref", Some "string"); ("z", Some "number")]) =
    Return "& string" /\
  declarations program
    (JObj [("definitions", JObj [
       ("Extended", JObj [("allOf", JArr [
          JObj [("$ref", JStr "#/definitions/Base")]; concrete ])]) ])]) =
    Return [("Extended", "export type Extended = & Base & string;")] /\
  propertiesList program (JObj [("$ref", JStr "common.yaml")]) =
    Return (PObj [("$ref", Some "")]) /\
  declarations program
    (JObj [("definitions", JObj [
       ("Extended", JObj [("allOf", JArr [
          JObj [("$ref", JStr "common.yaml")];
          JObj [ ("type", JStr "object");
                 ("properties", JObj [("z", JObj [("type", JStr "number")])]) ] ])]) ])]) =
    Return [("Extended", "export type Extended = {z:number} {$ref:};")].
Proof. repeat split. Qed.

(** ** Emitter: exact objects *)

(** A mapping of two fields under [exact], after the quotes are removed:
    the markers stand inside the two braces. *)
Example declarations_exact_example :
  declarations {| destination := None; checkRequired := false; exact := true |}
    (JObj [("definitions", JObj [
       ("Pet", JObj [ ("type", JStr "object");
                      ("properties", JObj [ ("id", JObj [("type", JStr "integer")]);
                                            ("name", JObj [("type", JStr "string")]) ]) ]) ])]) =
  Return [("Pet", "export type Pet = {|id:number,name:string|};")].
Proof. reflexivity. Qed.

(** An operand of an intersection does not pass through [withExact]. *)
Lemma render_member_marker (program : options) (property : plist) :
  ref_is_truthy property = true ->
  render_member program property = Return (intersection_operand property).
Proof.
  intro H. rewrite render_member_eq; [now rewrite H|].
  intro E. subst property. discriminate.
Qed.

(** C3. The exact form of the empty object literal: the first pattern of
    [withExact] consumes the brace that follows the opening one, so the
    text loses its closing delimiter, and the declaration of a schema
    without properties ends in an unclosed [{|]. *)
Theorem withExact_empty_object :
  withExact "{}" = "{|" /\
  propertiesTemplate {| destination := None; checkRequired := false; exact := true |}
    (PObj []) = Return (Some "{|") /\
  declarations {| destination := None; checkRequired := false; exact := true |}
    (JObj [("definitions", JObj [("Empty", JObj [("type", JStr "object")])])]) =
  Return [("Empty", "export type Empty = {|;")].
Proof. repeat split. Qed.

(** ** Definition Collector *)

Lemma mapM_lift_no_error {X Y} (f : X -> M Y) (l : list X) (message : string) :
  mapM (fun x => lift (f x)) l <> Throw (Error message).
Proof.
  induction l as [|x l IH]; simpl; [discriminate|].
  destruct (f x) as [y|[]|]; simpl; try discriminate.
  destruct (mapM (fun x => lift (f x)) l) as [ys|e|]; simpl; try discriminate.
  exact IH.
Qed.

(** C4, as amended. On a parsed document, the collector raises the error
    [There is no definition], and returns no definition, exactly when the
    value it selects is not truthy: [definitions] is absent or holds a falsy
    value, and [components] is absent or falsy or its [schemas] is absent or
    falsy. So a document with neither entry raises it, and a document in
    which [definitions], or else [schemas] under [components], holds a map
    does not. *)
Theorem generatorArray_no_definition (program : options) (fields : list (string * json)) :
  generatorArray program (JObj fields) = Throw (Error "There is no definition") <->
  truthy_v (get (JObj fields) "definitions") = false /\
  (forall components, get (JObj fields) "components" = Some components ->
                      truthy components = true ->
                      truthy_v (get components "schemas") = false).
Proof.
  unfold generatorArray. split.
  - destruct (truthy_v (get (JObj fields) "definitions")) eqn:Et.
    + destruct (get (JObj fields) "definitions") as [d|]; [|discriminate].
      cbn [truthy_v] in Et. rewrite Et. intro H.
      now apply mapM_lift_no_error in H.
    + intro H. split; [reflexivity|]. intros components Hc Htruthy.
      rewrite Hc, Htruthy in H.
      destruct (get components "schemas") as [defs|]; [|reflexivity].
      cbn [truthy_v]. destruct (truthy defs); [|reflexivity].
      now apply mapM_lift_no_error in H.
  - intros [Hdefs Hcomp]. rewrite Hdefs.
    destruct (get (JObj fields) "components") as [components|]; [|reflexivity].
    destruct (truthy components) eqn:Htruthy; [|reflexivity].
    specialize (Hcomp components eq_refl Htruthy).
    destruct (get components "schemas") as [defs|]; [|reflexivity].
    cbn [truthy_v] in Hcomp. now rewrite Hcomp.
Qed.

Lemma generatorArray_no_definition_witness :
  generatorArray {| destination := None; checkRequired := false; exact := false |}
    (JObj [("swagger", JStr "2.0"); ("paths", JObj [])]) =
  Throw (Error "There is no definition")
  /\
  generatorArray {| destination := None; checkRequired := false; exact := false |}
    (JObj [("definitions", JNum "0"); ("components", JObj [("schemas", JObj [])])]) <>
  Throw (Error "There is no definition").
Proof.
  split.
  - apply (proj2 (generatorArray_no_definition _ [("swagger", JStr "2.0"); ("paths", JObj [])])).
    split; [reflexivity|]. intros components H. discriminate.
  - intro H.
    apply (proj1 (generatorArray_no_definition _ _)) in H as [_ H].
    specialize (H (JObj [("schemas", JObj [])]) eq_refl eq_refl). discriminate.
Defined.

(** C4, the statement as the specification has it, fails under both
    readings of a map being present. A [definitions] entry that holds
    [null] (an empty key of a YAML document) is present, and the error is
    raised; a [definitions] entry that holds [true] is no map, neither is
    there one under [components], and no error is raised: the collector
    returns the empty list. *)
Lemma generatorArray_entry_not_truthy :
  let program := {| destination := None; checkRequired := false; exact := false |} in
  get (JObj [("definitions", JNull)]) "definitions" = Some JNull /\
  generatorArray program (JObj [("definitions", JNull)]) =
    Throw (Error "There is no definition") /\
  get (JObj [("definitions", JBool true)]) "definitions" = Some (JBool true) /\
  get (JObj [("definitions", JBool true)]) "components" = None /\
  generatorArray program (JObj [("definitions", JBool true)]) = Return [].
Proof. repeat split. Qed.

(** ** Import Resolver *)

Lemma tyval_eqb_eq (a b : tyval) : tyval_eqb a b = true <-> a = b.
Proof.
  destruct a as [x|], b as [y|]; simpl; split; intro H; try congruence.
  - apply String.eqb_eq in H. now subst.
  - inversion H. apply String.eqb_refl.
Qed.

Lemma tyval_eqb_refl (a : tyval) : tyval_eqb a a = true.
Proof. now apply tyval_eqb_eq. Qed.

Lemma tyval_eqb_sym (a b : tyval) : tyval_eqb a b = tyval_eqb b a.
Proof.
  destruct (tyval_eqb a b) eqn:E, (tyval_eqb b a) eqn:E'; try reflexivity.
  - apply tyval_eqb_eq in E. subst. rewrite tyval_eqb_refl in E'. discriminate.
  - apply tyval_eqb_eq in E'. subst. rewrite tyval_eqb_refl in E. discriminate.
Qed.

Lemma tyval_eq_dec (a b : tyval) : {a = b} + {a <> b}.
Proof. decide equality. apply string_dec. Qed.

Lemma filter_twice {A} (f g : A -> bool) (l : list A) :
  filter f (filter g l) = filter (fun x => g x && f x) l.
Proof.
  induction l as [|x l IH]; simpl; [reflexivity|].
  destruct (g x); simpl; [|exact IH].
  destruct (f x); now rewrite IH.
Qed.

(** The set of the Emitter, filled in the order of the list, holds what was
    there, then the first occurrences of the values that were not. *)
Lemma Set_fill (names set : list tyval) :
  fold_left (fun set name => if existsb (tyval_eqb name) set then set
                             else (set ++ [name])%list) names set =
  (set ++ filter (fun y => negb (existsb (tyval_eqb y) set)) (first_occurrences names))%list.
Proof.
  revert set. induction names as [|x names IH]; intro set; simpl.
  - now rewrite app_nil_r.
  - rewrite IH. destruct (existsb (tyval_eqb x) set) eqn:Ex; simpl.
    + f_equal. rewrite filter_twice. apply filter_ext. intro y.
      destruct (tyval_eqb x y) eqn:Exy; simpl; [|reflexivity].
      apply tyval_eqb_eq in Exy. subst y. now rewrite Ex.
    + rewrite <- app_assoc. simpl. do 2 f_equal.
      rewrite filter_twice. apply filter_ext. intro y.
      rewrite existsb_app. simpl. rewrite orb_false_r, negb_orb.
      now rewrite (tyval_eqb_sym y x), andb_comm.
Qed.

Lemma Array_from_Set_first_occurrences (names : list tyval) :
  Array_from_Set names = first_occurrences names.
Proof.
  unfold Array_from_Set. rewrite Set_fill. simpl.
  apply filter_all. apply Forall_forall. reflexivity.
Qed.

Lemma first_occurrences_In (names : list tyval) (n : tyval) :
  In n (first_occurrences names) <-> In n names.
Proof.
  induction names as [|x names IH]; simpl; [tauto|].
  rewrite filter_In, IH. split.
  - intros [H|[H _]]; auto.
  - intros [H|H]; [now left|].
    destruct (tyval_eq_dec x n) as [E|E]; [now left|right].
    split; [exact H|].
    destruct (tyval_eqb x n) eqn:Eb; [|reflexivity].
    apply tyval_eqb_eq in Eb. contradiction.
Qed.

Lemma first_occurrences_NoDup (names : list tyval) : NoDup (first_occurrences names).
Proof.
  induction names as [|x names IH]; simpl; constructor.
  - rewrite filter_In, tyval_eqb_refl. simpl. intros [_ H]. discriminate.
  - now apply NoDup_filter.
Qed.

(** The reduction of [importsList] appends, property after property, the
    resolved name of the pointer the property refers through. *)
Lemma importsList_reduce (values : list json) (acc : list tyval) :
  reduceM (fun acc value =>
             if truthy value && truthy_v (get value "$ref") then
               name <- definitionTypeName (get value "$ref") ;;
               Return (acc ++ [name])%list
             else if truthy value && is_str (get value "type") "array"
                     && truthy_v (get value "items")
                     && truthy_v (match get value "items" with
                                  | Some items => get items "$ref"
                                  | None => None
                                  end) then
               name <- definitionTypeName (match get value "items" with
                                           | Some items => get items "$ref"
                                           | None => None
                                           end) ;;
               Return (acc ++ [name])%list
             else Return acc) values acc =
  (names <- mapM definitionTypeName (referenced_pointers values) ;;
   Return (acc ++ names)%list).
Proof.
  revert acc. induction values as [|v values IH]; intro acc; simpl.
  - now rewrite app_nil_r.
  - unfold referenced_pointer, items_ref.
    destruct (truthy v && truthy_v (get v "$ref")).
    + simpl. destruct (definitionTypeName (get v "$ref")) as [name| |]; simpl;
        try reflexivity.
      rewrite IH. destruct (mapM definitionTypeName (referenced_pointers values));
        simpl; try reflexivity.
      now rewrite <- app_assoc.
    + destruct (truthy v && is_str (get v "type") "array" && truthy_v (get v "items")
                && truthy_v match get v "items" with
                            | Some items => get items "$ref"
                            | None => None
                            end).
      * simpl.
        destruct (definitionTypeName match get v "items" with
                                     | Some items => get items "$ref"
                                     | None => None
                                     end) as [name| |]; simpl; try reflexivity.
        rewrite IH. destruct (mapM definitionTypeName (referenced_pointers values));
          simpl; try reflexivity.
        now rewrite <- app_assoc.
      * simpl. apply IH.
Qed.

(** A definition without a properties map imports nothing. *)
Lemma importsList_without_properties (definition : json) :
  definition <> JNull ->
  truthy_v (get definition "properties") = false ->
  importsList definition = Return [].
Proof.
  intros Hdef H. unfold importsList. rewrite H.
  destruct definition; try reflexivity. congruence.
Qed.

(** C7. The imports of a definition are the resolved names of the pointers
    its direct properties refer through - the property's own [$ref], or the
    [$ref] of the items of an array property - in the order of the
    properties; the import statements are written for these names without
    their repetitions, the earliest occurrence of each kept in its place, so
    a name referenced by two fields yields one statement. *)
Theorem importsList_names (definition properties : json) (names : list tyval)
    (collected : generated) :
  definition <> JNull ->
  get definition "properties" = Some properties ->
  truthy properties = true ->
  mapM definitionTypeName (referenced_pointers (map snd (own_entries properties)))
    = Return names ->
  imports collected = names ->
  importsList definition = Return names /\
  importTemplates collected = join newline (map importTemplate (first_occurrences names)) /\
  NoDup (first_occurrences names) /\
  (forall n, In n (first_occurrences names) <-> In n names) /\
  (forall n, In n names -> count_occ tyval_eq_dec (first_occurrences names) n = 1).
Proof.
  intros Hdef Hprops Htruthy Hnames Himports.
  split; [|split; [|split; [|split]]].
  - unfold importsList. rewrite Hprops. cbn [truthy_v]. rewrite Htruthy. cbn [negb].
    rewrite importsList_reduce, Hnames.
    destruct definition; try reflexivity. congruence.
  - unfold importTemplates. now rewrite Himports, Array_from_Set_first_occurrences.
  - apply first_occurrences_NoDup.
  - apply first_occurrences_In.
  - intros n Hn. apply NoDup_count_occ'.
    + apply first_occurrences_NoDup.
    + now apply first_occurrences_In.
Qed.

Lemma importsList_names_witness :
  importsList
    (JObj [("properties", JObj [
       ("owner", JObj [("$ref", JStr "#/definitions/User")]);
       ("tags", JObj [("type", JStr "array");
                      ("items", JObj [("$ref", JStr "#/definitions/Tag")])]);
       ("name", JObj [("type", JStr "string")]);
       ("editor", JObj [("$ref", JStr "#/definitions/User")]) ])]) =
    Return [Some "User"; Some "Tag"; Some "User"] /\
  importTemplates {| title := "Pet"; properties := PObj [];
                     imports := [Some "User"; Some "Tag"; Some "User"] |} =
    join newline (map importTemplate (first_occurrences [Some "User"; Some "Tag"; Some "User"])) /\
  NoDup (first_occurrences [Some "User"; Some "Tag"; Some "User"]) /\
  (forall n, In n (first_occurrences [Some "User"; Some "Tag"; Some "User"]) <->
             In n [Some "User"; Some "Tag"; Some "User"]) /\
  (forall n, In n [Some "User"; Some "Tag"; Some "User"] ->
             count_occ tyval_eq_dec (first_occurrences [Some "User"; Some "Tag"; Some "User"]) n = 1).
Proof.
  apply (importsList_names _
           (JObj [ ("owner", JObj [("$ref", JStr "#/definitions/User")]);
                   ("tags", JObj [("type", JStr "array");
                                  ("items", JObj [("$ref", JStr "#/definitions/Tag")])]);
                   ("name", JObj [("type", JStr "string")]);
                   ("editor", JObj [("$ref", JStr "#/definitions/User")]) ])).
  - discriminate.
  - reflexivity.
  - reflexivity.
  - reflexivity.
  - reflexivity.
Defined.

(** The import statements of that definition: [User] once, before [Tag]. *)
Example importTemplates_example :
  importTemplates {| title := "Pet"; properties := PObj [];
                     imports := [Some "User"; Some "Tag"; Some "User"] |} =
  "import type { User } from './User';" ++ newline ++ "import type { Tag } from './Tag';".
Proof. reflexivity. Qed.

(** ** Emitter: the declaration text *)

Lemma filter_string_chars (keep : ascii -> bool) (s : string) :
  list_ascii_of_string (filter_string keep s) = filter keep (list_ascii_of_string s).
Proof.
  induction s as [|c s IH]; simpl; [reflexivity|].
  destruct (keep c); simpl; now rewrite IH.
Qed.

Lemma strip_dquotes_clean (s : string) :
  ~ In dquote (list_ascii_of_string (strip_dquotes s)).
Proof.
  unfold strip_dquotes. rewrite filter_string_chars, filter_In.
  intros [_ H]. unfold ascii_is in H. now rewrite Ascii.eqb_refl in H.
Qed.

(** A declaration text is only returned for a property list that renders
    to a string. *)
Lemma generateTypeFile_returns (program : options) (definition : generated) (text : string) :
  generateTypeFile program definition = Return text ->
  exists rendered,
    propertiesTemplate program (properties definition) = Return (Some rendered) /\
    text = importTemplates definition
           ++ "export type " ++ title definition ++ " = " ++ strip_dquotes rendered ++ ";".
Proof.
  unfold generateTypeFile.
  destruct (propertiesTemplate program (properties definition)) as [[rendered|]| |];
    simpl; try discriminate.
  intro H. inversion H. now exists rendered.
Qed.

(** C10. The declaration text of a definition is its import statements,
    then [export type Title = Expression;] where the expression is the
    rendered property list with every double quote removed and every other
    character kept in its place: no double quote remains in it, so one that
    belonged to a property name or to an enum literal is deleted. *)
Theorem generateTypeFile_strips_dquotes (program : options) (definition : generated)
    (rendered : string) :
  propertiesTemplate program (properties definition) = Return (Some rendered) ->
  exists expression,
    generateTypeFile program definition =
      Return (importTemplates definition
              ++ "export type " ++ title definition ++ " = " ++ expression ++ ";") /\
    list_ascii_of_string expression =
      filter (fun c => negb (ascii_is c dquote)) (list_ascii_of_string rendered) /\
    ~ In dquote (list_ascii_of_string expression).
Proof.
  intro H. exists (strip_dquotes rendered). split; [|split].
  - unfold generateTypeFile. rewrite H. reflexivity.
  - apply filter_string_chars.
  - apply strip_dquotes_clean.
Qed.

Lemma generateTypeFile_strips_dquotes_witness :
  exists expression,
    generateTypeFile {| destination := None; checkRequired := false; exact := false |}
      {| title := "Quoted";
         properties := PObj [(String "a" (String dquote "b"), Some "string")];
         imports := [] |} =
      Return ("export type Quoted = " ++ expression ++ ";") /\
    list_ascii_of_string expression =
      filter (fun c => negb (ascii_is c dquote))
        (list_ascii_of_string
           (stringify (PObj [(String "a" (String dquote "b"), Some "string")]))) /\
    ~ In dquote (list_ascii_of_string expression).
Proof.
  apply (generateTypeFile_strips_dquotes
           {| destination := None; checkRequired := false; exact := false |}
           {| title := "Quoted";
              properties := PObj [(String "a" (String dquote "b"), Some "string")];
              imports := [] |}).
  reflexivity.
Defined.

(** The property named [a], double quote, [b]: the quote is gone from the
    declaration, the backslash that escaped it in the serialized text stays. *)
Example generateTypeFile_quoted_name :
  generateTypeFile {| destination := None; checkRequired := false; exact := false |}
    {| title := "Quoted";
       properties := PObj [(String "a" (String dquote "b"), Some "string")];
       imports := [] |} =
  Return ("export type Quoted = {a" ++ String backslash "b:string};").
Proof. reflexivity. Qed.

(** ** The size of a document

    The recursion through a document is followed by the size of the
    sub-documents. *)

Lemma json_size_elem (e : json) (l : list json) :
  In e l -> json_size e < json_size (JArr l).
Proof.
  simpl. induction l as [|a l IH]; simpl; [tauto|].
  intros [H|H]; [subst; lia|]. specialize (IH H). lia.
Qed.

Lemma json_size_entry (k : string) (v : json) (fs : list (string * json)) :
  In (k, v) fs -> json_size v < json_size (JObj fs).
Proof.
  simpl. induction fs as [|[k' v'] fs IH]; simpl; [tauto|].
  intros [H|H]; [inversion H; subst; lia|]. specialize (IH H). lia.
Qed.

Lemma json_size_assoc (k : string) (fs : list (string * json)) (v : json) :
  assoc k fs = Some v -> json_size v < json_size (JObj fs).
Proof.
  simpl. induction fs as [|[k' v'] fs IH]; simpl; [discriminate|].
  destruct (String.eqb k' k).
  - intro H. inversion H; subst. lia.
  - intro H. specialize (IH H). lia.
Qed.

Lemma json_size_get (o : json) (k : string) (v : json) :
  get o k = Some v -> json_size v < json_size o.
Proof.
  destruct o; simpl; try discriminate. apply json_size_assoc.
Qed.

(** A run: one declaration file, its import first. *)
Example declarations_pet_example :
  declarations {| destination := Some "types"; checkRequired := true; exact := true |}
    (JObj [("definitions", JObj [
      ("Pet", JObj [ ("type", JStr "object"); ("required", JArr [JStr "id"]);
                     ("properties", JObj [
                        ("id", JObj [("type", JStr "integer")]);
                        ("owner", JObj [("$ref", JStr "#/definitions/User")]) ]) ]) ])]) =
  Return [("Pet", "import type { User } from './User';"
                  ++ "export type Pet = {|id:number,owner?:User|};")].
Proof. reflexivity. Qed.

(** * Further properties of the program *)

(** ** Texts *)

Lemma append_assoc (a b c : string) : (a ++ b) ++ c = a ++ (b ++ c).
Proof. induction a as [|x a IH]; simpl; [reflexivity|now rewrite IH]. Qed.

Lemma length_append (a b : string) :
  String.length (a ++ b) = String.length a + String.length b.
Proof. induction a as [|x a IH]; simpl; [reflexivity|now rewrite IH]. Qed.

Lemma chars_append (a b : string) : chars (a ++ b) = (chars a ++ chars b)%list.
Proof. induction a as [|x a IH]; simpl; [reflexivity|]. unfold chars in *. simpl. now rewrite IH. Qed.

Lemma strip_prefix_length (p s rest : string) :
  strip_prefix p s = Some rest -> String.length s = String.length p + String.length rest.
Proof.
  intro H. apply strip_prefix_sound in H. subst. apply length_append.
Qed.

(** [contains] finds every occurrence, and only occurrences. *)
Lemma contains_occurrence (sub s : string) :
  contains sub s = true <-> exists before after, s = before ++ sub ++ after.
Proof.
  split.
  - induction s as [|c s IH]; simpl.
    + destruct (strip_prefix sub "") as [rest|] eqn:E; [|discriminate].
      intros _. apply strip_prefix_sound in E. now exists "", rest.
    + destruct (strip_prefix sub (String c s)) as [rest|] eqn:E.
      * intros _. apply strip_prefix_sound in E. now exists "", rest.
      * intro H. destruct (IH H) as [before [after Hs]].
        exists (String c before), after. simpl. now rewrite Hs.
  - intros [before [after Hs]]. subst s.
    induction before as [|c before IH].
    + simpl. destruct (sub ++ after) eqn:E; simpl; rewrite <- E;
        now rewrite strip_prefix_app.
    + cbn [append contains]. fold contains. rewrite IH.
      now destruct (strip_prefix sub (String c (before ++ sub ++ after))).
Qed.

(** ** Exact object delimiters *)

Lemma replace_open_cons (c : ascii) (r : string) :
  replace_open (String c r) =
  if ascii_is c "{"%char then
    match r with
    | String d r' => if ascii_is d "|"%char then String c (replace_open r)
                     else "{|" ++ replace_open r'
    | EmptyString => String c EmptyString
    end
  else String c (replace_open r).
Proof. reflexivity. Qed.

Lemma replace_close_cons (c : ascii) (r : string) :
  replace_close (String c r) =
  if ascii_is c "|"%char then String c (replace_close r)
  else match r with
       | String d r' => if ascii_is d "}"%char then "|}" ++ replace_close r'
                        else String c (replace_close r)
       | EmptyString => String c EmptyString
       end.
Proof. reflexivity. Qed.

Lemma replace_open_length (s : string) :
  String.length (replace_open s) = String.length s.
Proof.
  assert (H : forall n s, String.length s <= n ->
                          String.length (replace_open s) = String.length s).
  { clear s. induction n as [|n IH]; intros s Hn.
    - destruct s; [reflexivity|simpl in Hn; lia].
    - destruct s as [|c s]; [reflexivity|]. rewrite replace_open_cons.
      cbn [String.length] in Hn.
      destruct (ascii_is c "{").
      + destruct s as [|d s]; [reflexivity|]. cbn [String.length] in Hn.
        destruct (ascii_is d "|"); cbn [String.length append].
        * rewrite (IH (String d s)); [reflexivity|cbn [String.length]; lia].
        * rewrite (IH s); [reflexivity|lia].
      + cbn [String.length]. rewrite (IH s); [reflexivity|lia]. }
  now apply (H (String.length s)).
Qed.

Lemma replace_close_length (s : string) :
  String.length (replace_close s) = String.length s.
Proof.
  assert (H : forall n s, String.length s <= n ->
                          String.length (replace_close s) = String.length s).
  { clear s. induction n as [|n IH]; intros s Hn.
    - destruct s; [reflexivity|simpl in Hn; lia].
    - destruct s as [|c s]; [reflexivity|]. rewrite replace_close_cons.
      cbn [String.length] in Hn.
      destruct (ascii_is c "|").
      + cbn [String.length]. rewrite (IH s); [reflexivity|lia].
      + destruct s as [|d s]; [reflexivity|]. cbn [String.length] in Hn.
        destruct (ascii_is d "}"); cbn [String.length append].
        * rewrite (IH s); [reflexivity|lia].
        * rewrite (IH (String d s)); [reflexivity|cbn [String.length]; lia]. }
  now apply (H (String.length s)).
Qed.

(** X1. [withExact] never changes the length of a text: each of its two
    patterns matches two characters and writes two, so every marker it
    writes takes the place of the character that stood next to the brace. *)
Theorem withExact_length (property : string) :
  String.length (withExact property) = String.length property.
Proof.
  unfold withExact. now rewrite replace_close_length, replace_open_length.
Qed.

(** X2. A text without braces passes through [withExact] unchanged. *)
Theorem withExact_without_braces (property : string) :
  ~ In "{"%char (chars property) -> ~ In "}"%char (chars property) ->
  withExact property = property.
Proof.
  intros Hopen Hclose. unfold withExact.
  assert (H1 : replace_open property = property).
  { clear Hclose. induction property as [|c s IH]; [reflexivity|].
    rewrite replace_open_cons.
    destruct (ascii_is c "{") eqn:E.
    - exfalso. apply Hopen. unfold ascii_is in E. apply Ascii.eqb_eq in E.
      subst. now left.
    - rewrite IH; [reflexivity|]. intro H. apply Hopen. now right. }
  rewrite H1. clear H1 Hopen.
  induction property as [|c s IH]; [reflexivity|]. rewrite replace_close_cons.
  assert (Hs : replace_close s = s).
  { apply IH. intro H. apply Hclose. now right. }
  destruct (ascii_is c "|"); [now rewrite Hs|].
  destruct s as [|d s]; [reflexivity|].
  destruct (ascii_is d "}") eqn:E.
  - exfalso. apply Hclose. unfold ascii_is in E. apply Ascii.eqb_eq in E.
    subst. right. now left.
  - now rewrite Hs.
Qed.

Lemma withExact_without_braces_witness :
  withExact "& Base" = "& Base".
Proof.
  apply (withExact_without_braces "& Base"); simpl; intuition discriminate.
Defined.

(** ** Input and output names *)

(** X3. A name is taken for a URL exactly when [http://] or [https://]
    occurs in it, at its start or anywhere after it. *)
Theorem isUrl_occurrence (v : string) :
  isUrl v = true <->
  exists before after,
    v = before ++ "http://" ++ after \/ v = before ++ "https://" ++ after.
Proof.
  unfold isUrl. rewrite orb_true_iff, !contains_occurrence. split.
  - intros [[b [a H]]|[b [a H]]]; exists b, a; auto.
  - intros [b [a [H|H]]]; [left|right]; now exists b, a.
Qed.

Lemma replace_first_eq (pattern replacement s : string) :
  replace_first pattern replacement s =
  match strip_prefix pattern s with
  | Some rest => replacement ++ rest
  | None => match s with
            | EmptyString => EmptyString
            | String c r => String c (replace_first pattern replacement r)
            end
  end.
Proof. destruct s; reflexivity. Qed.

(** The first occurrence of a pattern that starts with a character the text
    before it does not hold. *)
Lemma replace_first_at (c : ascii) (pattern replacement before after : string) :
  ~ In c (chars before) ->
  replace_first (String c pattern) replacement (before ++ String c pattern ++ after) =
  before ++ replacement ++ after.
Proof.
  intro Hc. induction before as [|b before IH].
  - change ("" ++ String c pattern ++ after) with (String c pattern ++ after).
    rewrite replace_first_eq, strip_prefix_app. reflexivity.
  - assert (Hb : ascii_is c b = false).
    { unfold ascii_is. destruct (Ascii.eqb c b) eqn:E; [|reflexivity].
      apply Ascii.eqb_eq in E. subst. exfalso. apply Hc. now left. }
    rewrite replace_first_eq.
    change (String b before ++ String c pattern ++ after)
      with (String b (before ++ String c pattern ++ after)).
    cbn [strip_prefix]. rewrite Hb.
    rewrite IH; [reflexivity|]. intro H. apply Hc. now right.
Qed.

(** X4. Without a destination and for a name that is not a URL, [distFile]
    replaces by [.js] the first occurrence of the extension in the name:
    the extension itself when no dot stands before it (then [rest] is
    empty), an earlier occurrence otherwise. *)
Theorem distFile_first_occurrence (path_parse_ext : string -> string) (p : options)
    (inputFileName before e rest : string) :
  truthy_t (destination p) = false ->
  isUrl inputFileName = false ->
  path_parse_ext inputFileName = String "." e ->
  inputFileName = before ++ String "." e ++ rest ->
  ~ In "."%char (chars before) ->
  distFile path_parse_ext p inputFileName = before ++ ".js" ++ rest.
Proof.
  intros Hdest Hurl Hext Hname Hdot. unfold distFile.
  rewrite Hdest, Hurl, Hext. subst inputFileName.
  now apply replace_first_at.
Qed.

Lemma distFile_first_occurrence_witness :
  distFile (fun _ => ".json") {| destination := None; checkRequired := false; exact := false |}
    "api.json" = "api.js"
  /\
  distFile (fun _ => ".json") {| destination := None; checkRequired := false; exact := false |}
    "v1.json/api.json" = "v1.js/api.json".
Proof.
  split.
  - apply (distFile_first_occurrence (fun _ => ".json") _ "api.json" "api" "json" "");
      try reflexivity.
    simpl. intuition discriminate.
  - apply (distFile_first_occurrence (fun _ => ".json") _ "v1.json/api.json" "v1" "json"
             "/api.json"); try reflexivity.
    simpl. intuition discriminate.
Defined.

(** X5. For a local name without extension, [distFile] puts [.js] in
    front of the name: the empty pattern matches at the start. *)
Theorem distFile_without_extension (path_parse_ext : string -> string) (p : options)
    (inputFileName : string) :
  truthy_t (destination p) = false ->
  isUrl inputFileName = false ->
  path_parse_ext inputFileName = "" ->
  distFile path_parse_ext p inputFileName = ".js" ++ inputFileName.
Proof.
  intros Hdest Hurl Hext. unfold distFile. rewrite Hdest, Hurl, Hext.
  destruct inputFileName; reflexivity.
Qed.

Lemma distFile_without_extension_witness :
  distFile (fun _ => "") {| destination := Some ""; checkRequired := false; exact := false |}
    "swagger" = ".jsswagger".
Proof.
  apply (distFile_without_extension (fun _ => "")); reflexivity.
Defined.

(** ** Reference Resolver *)

(** X6. A pointer whose pattern follows other text, such as the name of a
    file, resolves like the local pointer: the text before the first [#] is
    ignored. *)
Theorem definitionTypeName_after_prefix (before name : string) :
  ~ In "#"%char (chars before) ->
  dot_star name = name -> name <> "" ->
  definitionTypeName (Some (JStr (before ++ "#/definitions/" ++ name))) = Return (Some name) /\
  definitionTypeName (Some (JStr (before ++ "#/components/schemas/" ++ name)))
    = Return (Some name).
Proof.
  intros Hhash Hline Hne.
  assert (H : ref_match (before ++ "#/definitions/" ++ name) = Some (Some name, None) /\
              ref_match (before ++ "#/components/schemas/" ++ name) = Some (None, Some name)).
  { induction before as [|b before IH].
    - split.
      + change ("" ++ "#/definitions/" ++ name) with ("#/definitions/" ++ name).
        rewrite ref_match_eq, strip_prefix_app, Hline. reflexivity.
      + change ("" ++ "#/components/schemas/" ++ name)
          with ("#/components/schemas/" ++ name).
        rewrite ref_match_eq.
        change (strip_prefix "#/definitions/" ("#/components/schemas/" ++ name))
          with (@None string).
        rewrite strip_prefix_app, Hline. reflexivity.
    - assert (Hb : ascii_is "#" b = false).
      { unfold ascii_is. destruct (Ascii.eqb "#" b) eqn:E; [|reflexivity].
        apply Ascii.eqb_eq in E. subst. exfalso. apply Hhash. now left. }
      assert (Hrest : ~ In "#"%char (chars before)) by (intro H; apply Hhash; now right).
      destruct (IH Hrest) as [IH1 IH2].
      split; rewrite ref_match_eq; cbn [append strip_prefix]; rewrite Hb; assumption. }
  destruct H as [H1 H2]. unfold definitionTypeName. rewrite H1, H2.
  destruct name; [congruence|]. split; reflexivity.
Qed.

Lemma definitionTypeName_after_prefix_witness :
  definitionTypeName (Some (JStr "common.yaml#/definitions/Pet")) = Return (Some "Pet") /\
  definitionTypeName (Some (JStr "common.yaml#/components/schemas/Pet")) = Return (Some "Pet").
Proof.
  apply (definitionTypeName_after_prefix "common.yaml" "Pet").
  - simpl. intuition discriminate.
  - reflexivity.
  - discriminate.
Defined.

(** ** Type Synthesizer *)

Lemma typeMapping_text (t text : string) :
  assoc t typeMapping = Some text -> truthy_t (Some text) = true.
Proof.
  unfold typeMapping. cbn [assoc].
  repeat (destruct (String.eqb _ t); [intro H; inversion H; reflexivity|]).
  discriminate.
Qed.

(** X7. A node whose [type] is in the primitive table (and is neither
    [array] nor a [string] with an [enum]) synthesizes to the text of the
    table, whether or not the node also has a [$ref]: in [typeFor] the type
    comes first. *)
Theorem typeFor_mapped_type (program : options) (property : json) (t text : string) :
  get property "type" = Some (JStr t) ->
  assoc t typeMapping = Some text ->
  t <> "array" ->
  (t = "string" -> get property "enum" = None) ->
  typeFor program property = Return (Some text).
Proof.
  intros Htype Htext Harray Henum. rewrite typeFor_eq. unfold typeFor_body.
  destruct property as [| | | | |fs]; try discriminate.
  rewrite Htype. cbn [is_str].
  destruct (String.eqb t "array") eqn:Ea; [apply String.eqb_eq in Ea; contradiction|].
  assert (Hs : String.eqb t "string" && js_has "enum" (JObj fs) = false).
  { destruct (String.eqb t "string") eqn:Es; [|reflexivity].
    apply String.eqb_eq in Es. rewrite js_has_get, (Henum Es). reflexivity. }
  rewrite Hs. unfold typeMapping_get. cbn [to_string bind]. rewrite Htext.
  cbn [bind]. now rewrite (typeMapping_text _ _ Htext).
Qed.

Lemma typeFor_mapped_type_witness :
  typeFor {| destination := None; checkRequired := false; exact := false |}
    (JObj [("type", JStr "integer"); ("$ref", JStr "#/definitions/Pet")]) =
  Return (Some "number").
Proof.
  apply (typeFor_mapped_type _ _ "integer" "number");
    try reflexivity; discriminate.
Defined.

(** X8. An array whose items hold a [$ref] (and no [oneOf]) synthesizes to
    the array of the resolved name, whatever else the items hold; a name that
    resolves to [undefined] is printed by name. *)
Theorem typeFor_array_items_ref (program : options) (property : json)
    (ifs : list (string * json)) (pointer : json) (name : tyval) :
  get property "type" = Some (JStr "array") ->
  get property "items" = Some (JObj ifs) ->
  get (JObj ifs) "oneOf" = None ->
  get (JObj ifs) "$ref" = Some pointer ->
  definitionTypeName (Some pointer) = Return name ->
  typeFor program property = Return (Some ("Array<" ++ tpl name ++ ">")).
Proof.
  intros Htype Hitems Hone Href Hname. rewrite typeFor_eq. unfold typeFor_body.
  destruct property as [| | | | |fs]; try discriminate.
  rewrite Htype. cbn [is_str String.eqb Ascii.eqb Bool.eqb].
  rewrite field_get, Hitems, field_get, Hone, js_has_get, Href, Hname.
  reflexivity.
Qed.

Lemma typeFor_array_items_ref_witness :
  typeFor {| destination := None; checkRequired := false; exact := false |}
    (JObj [("type", JStr "array");
           ("items", JObj [("type", JStr "object"); ("$ref", JStr "#/definitions/")])]) =
  Return (Some "Array<undefined>").
Proof.
  apply (typeFor_array_items_ref _ _ [("type", JStr "object"); ("$ref", JStr "#/definitions/")]
           (JStr "#/definitions/") None); reflexivity.
Defined.

(** X9. An array whose items are an object without [oneOf] and [$ref] and
    with a [type] other than [object] synthesizes to the array of the
    table's text for that type - and, for a type the table does not hold,
    to [Array<undefined>], without an error. *)
Theorem typeFor_array_of_primitive (program : options) (property : json)
    (ifs : list (string * json)) (mapped : tyval) :
  get property "type" = Some (JStr "array") ->
  get property "items" = Some (JObj ifs) ->
  get (JObj ifs) "oneOf" = None ->
  get (JObj ifs) "$ref" = None ->
  is_str (get (JObj ifs) "type") "object" = false ->
  typeMapping_get (get (JObj ifs) "type") = Return mapped ->
  typeFor program property = Return (Some ("Array<" ++ tpl mapped ++ ">")).
Proof.
  intros Htype Hitems Hone Href Hobj Hmap. rewrite typeFor_eq. unfold typeFor_body.
  destruct property as [| | | | |fs]; try discriminate.
  rewrite Htype. cbn [is_str String.eqb Ascii.eqb Bool.eqb].
  rewrite field_get, Hitems, field_get, Hone, js_has_get, Href, Hobj, Hmap.
  reflexivity.
Qed.

Lemma typeFor_array_of_primitive_witness :
  typeFor {| destination := None; checkRequired := false; exact := false |}
    (JObj [("type", JStr "array"); ("items", JObj [("type", JStr "file")])]) =
  Return (Some "Array<undefined>").
Proof.
  apply (typeFor_array_of_primitive _ _ [("type", JStr "file")] None); reflexivity.
Defined.

(** X10. An array whose items are a [oneOf] list of alternatives, none of
    them of type [object], synthesizes to the array of the union of the
    alternatives' types, in the order of the list; an alternative whose
    type is [undefined] leaves an empty place in the union. *)
Theorem typeFor_array_oneOf (program : options) (property : json)
    (ifs : list (string * json)) (alternatives : list json) (parts : list tyval) :
  get property "type" = Some (JStr "array") ->
  get property "items" = Some (JObj ifs) ->
  get (JObj ifs) "oneOf" = Some (JArr alternatives) ->
  Forall2 (fun e part => is_str (get e "type") "object" = false /\
                         typeFor program e = Return part) alternatives parts ->
  typeFor program property =
  Return (Some ("Array<" ++ join_vals " | " parts ++ ">")).
Proof.
  intros Htype Hitems Hone Hparts. rewrite typeFor_eq. unfold typeFor_body.
  destruct property as [| | | | |fs]; try discriminate.
  rewrite Htype. cbn [is_str String.eqb Ascii.eqb Bool.eqb].
  rewrite field_get, Hitems, field_get, Hone.
  rewrite (mapM_Forall2 _ alternatives parts); [reflexivity|].
  eapply Forall2_impl; [|exact Hparts].
  intros e part [Hobj He]. rewrite Hobj.
  destruct e; exact He.
Qed.

Lemma typeFor_array_oneOf_witness :
  typeFor {| destination := None; checkRequired := false; exact := false |}
    (JObj [("type", JStr "array");
           ("items", JObj [("oneOf", JArr [ JObj [("type", JStr "string")];
                                            JObj [("$ref", JStr "#/definitions/Pet")];
                                            JObj [("type", JStr "integer")] ])])]) =
  Return (Some "Array<string | Pet | number>").
Proof.
  apply (typeFor_array_oneOf _ _
           [("oneOf", JArr [ JObj [("type", JStr "string")];
                             JObj [("$ref", JStr "#/definitions/Pet")];
                             JObj [("type", JStr "integer")] ])]
           [ JObj [("type", JStr "string")];
             JObj [("$ref", JStr "#/definitions/Pet")];
             JObj [("type", JStr "integer")] ]
           [Some "string"; Some "Pet"; Some "number"]); try reflexivity.
  repeat constructor.
Defined.

(** X11. In a [oneOf] list an alternative of type [object] is read through
    its [items]: when it is the first alternative and has no [items] entry,
    the call raises a TypeError, whatever properties the alternative
    declares. *)
Theorem typeFor_array_oneOf_object (program : options) (property : json)
    (ifs efs : list (string * json)) (rest : list json) :
  get property "type" = Some (JStr "array") ->
  get property "items" = Some (JObj ifs) ->
  get (JObj ifs) "oneOf" = Some (JArr (JObj efs :: rest)) ->
  get (JObj efs) "type" = Some (JStr "object") ->
  get (JObj efs) "items" = None ->
  typeFor program property = Throw TypeError.
Proof.
  intros Htype Hitems Hone Hobj Hnone. rewrite typeFor_eq. unfold typeFor_body.
  destruct property as [| | | | |fs]; try discriminate.
  rewrite Htype. cbn [is_str String.eqb Ascii.eqb Bool.eqb].
  rewrite field_get, Hitems, field_get, Hone.
  cbn [mapM]. rewrite Hobj. cbn [is_str String.eqb Ascii.eqb Bool.eqb].
  rewrite field_get, Hnone. reflexivity.
Qed.

Lemma typeFor_array_oneOf_object_witness :
  typeFor {| destination := None; checkRequired := false; exact := false |}
    (JObj [("type", JStr "array");
           ("items", JObj [("oneOf", JArr [
              JObj [("type", JStr "object");
                    ("properties", JObj [("id", JObj [("type", JStr "integer")])])] ])])]) =
  Throw TypeError.
Proof.
  apply (typeFor_array_oneOf_object _ _
           [("oneOf", JArr [
              JObj [("type", JStr "object");
                    ("properties", JObj [("id", JObj [("type", JStr "integer")])])] ])]
           [("type", JStr "object");
            ("properties", JObj [("id", JObj [("type", JStr "integer")])])] []);
    reflexivity.
Defined.

(** ** Required properties *)

(** X12. When [required] is a string and not a list, a property counts as
    required exactly when its name occurs somewhere in that string. *)
Theorem isRequired_text (propertyName : string) (definition : json) (s : string) :
  get definition "required" = Some (JStr s) ->
  s <> "" ->
  exists required,
    isRequired propertyName definition = Return required /\
    (required = true <-> exists before after, s = before ++ propertyName ++ after).
Proof.
  intros Hreq Hs. exists (contains propertyName s). split.
  - unfold isRequired. rewrite Hreq. cbn [truthy].
    destruct definition; try discriminate.
    destruct s; [congruence|reflexivity].
  - apply contains_occurrence.
Qed.

Lemma isRequired_text_witness :
  exists required,
    isRequired "id" (JObj [("required", JStr "identity")]) = Return required /\
    (required = true <-> exists before after, "identity" = before ++ "id" ++ after).
Proof.
  apply (isRequired_text "id" (JObj [("required", JStr "identity")]) "identity").
  - reflexivity.
  - discriminate.
Defined.

(** X13. With [checkRequired] on, an object schema with properties whose
    [required] is truthy but neither a list nor a string (the boolean
    [true], a number, an object) has no property list: the key of its first
    property cannot be computed, and the call raises a TypeError. *)
Theorem propertiesList_required_not_list (program : options)
    (fs : list (string * json)) (p : string * json) (props : list (string * json))
    (required : json) :
  checkRequired program = true ->
  get (JObj fs) "allOf" = None ->
  truthy_v (get (JObj fs) "$ref") = false ->
  (get (JObj fs) "type" = None \/ get (JObj fs) "type" = Some (JStr "object")) ->
  get (JObj fs) "properties" = Some (JObj (p :: props)) ->
  get (JObj fs) "required" = Some required ->
  truthy required = true ->
  (forall names, required <> JArr names) ->
  (forall s, required <> JStr s) ->
  propertiesList program (JObj fs) = Throw TypeError.
Proof.
  intros Hcheck Hall Href Htype Hprops Hreq Htruthy Hlist Hstr.
  rewrite propertiesList_eq. unfold propertiesList_body.
  rewrite field_get, Hall, Href.
  assert (Hobj : js_has "type" (JObj fs)
                 && negb (is_str (get (JObj fs) "type") "object") = false).
  { rewrite js_has_get. destruct Htype as [H|H]; rewrite H; reflexivity. }
  rewrite Hobj, field_get, Hprops. cbn [truthy negb mapM].
  unfold property_entry, propertyKeyForDefinition, isRequired.
  rewrite Hcheck, Hreq, Htruthy.
  destruct required; try reflexivity.
  - exfalso. now apply (Hstr s).
  - exfalso. now apply (Hlist elems).
Qed.

Lemma propertiesList_required_not_list_witness :
  propertiesList {| destination := None; checkRequired := true; exact := false |}
    (JObj [ ("required", JBool true);
            ("properties", JObj [("id", JObj [("type", JStr "integer")])]) ]) =
  Throw TypeError.
Proof.
  apply (propertiesList_required_not_list _ _ ("id", JObj [("type", JStr "integer")]) []
           (JBool true)); try reflexivity; try discriminate.
  now left.
Defined.

(** ** Property-List Builder: the order of the rules *)

(** X14. A definition with an [allOf] list has the list of its members'
    property lists, in the order of the members, whatever else it holds
    ([$ref], [type], [properties]). *)
Theorem propertiesList_allOf (program : options) (fs : list (string * json))
    (members : list json) (results : list plist) :
  get (JObj fs) "allOf" = Some (JArr members) ->
  Forall2 (fun member result => propertiesList program member = Return result)
          members results ->
  propertiesList program (JObj fs) = Return (PArr results).
Proof.
  intros Hall Hmembers. rewrite propertiesList_eq. unfold propertiesList_body.
  rewrite field_get, Hall. now rewrite (mapM_Forall2 _ _ _ Hmembers).
Qed.

Lemma propertiesList_allOf_witness :
  propertiesList {| destination := None; checkRequired := false; exact := false |}
    (JObj [ ("type", JStr "string");
            ("allOf", JArr [ JObj [("$ref", JStr "#/definitions/Base")];
                             JObj [("type", JStr "integer")] ]) ]) =
  Return (PArr [PObj [("$ref", Some "Base")]; PText (Some "number")]).
Proof.
  apply (propertiesList_allOf _ _ [ JObj [("$ref", JStr "#/definitions/Base")];
                                    JObj [("type", JStr "integer")] ]).
  - reflexivity.
  - repeat constructor.
Defined.

(** X15. A definition without [allOf] that holds a [$ref] string has the
    merge marker of the resolved name for property list; its own [type] and
    [properties] are not read. *)
Theorem propertiesList_ref_marker (program : options) (fs : list (string * json))
    (pointer : string) (name : tyval) :
  get (JObj fs) "allOf" = None ->
  get (JObj fs) "$ref" = Some (JStr pointer) ->
  pointer <> "" ->
  definitionTypeName (Some (JStr pointer)) = Return name ->
  propertiesList program (JObj fs) = Return (PObj [("$ref", name)]).
Proof.
  intros Hall Href Hne Hname. rewrite propertiesList_eq. unfold propertiesList_body.
  rewrite field_get, Hall, Href. cbn [truthy_v truthy].
  destruct pointer; [congruence|]. cbn [String.eqb negb]. now rewrite Hname.
Qed.

Lemma propertiesList_ref_marker_witness :
  propertiesList {| destination := None; checkRequired := false; exact := false |}
    (JObj [ ("$ref", JStr "#/definitions/Base");
            ("type", JStr "object");
            ("properties", JObj [("extra", JObj [("type", JStr "string")])]) ]) =
  Return (PObj [("$ref", Some "Base")]).
Proof.
  apply (propertiesList_ref_marker _ _ "#/definitions/Base" (Some "Base"));
    try reflexivity. discriminate.
Defined.

(** ** Definition Collector: one definition per schema *)

Lemma mapM_Forall2_inv {E X Y} (f : X -> outcome E Y) (l : list X) (ys : list Y) :
  mapM f l = Return ys -> Forall2 (fun x y => f x = Return y) l ys.
Proof.
  revert ys. induction l as [|x l IH]; simpl; intros ys H.
  - inversion H. constructor.
  - destruct (f x) as [y| |] eqn:Ey; simpl in H; try discriminate.
    destruct (mapM f l) as [ys'| |]; simpl in H; try discriminate.
    inversion H. constructor; [exact Ey | now apply IH].
Qed.

Lemma generatorArray_select (program : options) (swagger : json) :
  swagger <> JNull ->
  generatorArray program swagger =
  match selected_definitions swagger with
  | Some defs =>
      if truthy defs then
        mapM (fun kv =>
                lift (props <- propertiesList program (snd kv) ;;
                      imps <- importsList (snd kv) ;;
                      Return {| title := stripBrackets (removeGenericsBug (fst kv));
                                properties := props;
                                imports := imps |}))
             (own_entries defs)
      else Throw (Error "There is no definition")
  | None => Throw (Error "There is no definition")
  end.
Proof. destruct swagger; [congruence | reflexivity ..]. Qed.

Lemma collected_entry (program : options) (kv : string * json) (d : generated) :
  lift (props <- propertiesList program (snd kv) ;;
        imps <- importsList (snd kv) ;;
        Return {| title := stripBrackets (removeGenericsBug (fst kv));
                  properties := props;
                  imports := imps |}) = Return d <->
  collected program kv d.
Proof.
  unfold collected. split.
  - destruct (propertiesList program (snd kv)) as [props| |]; simpl; try discriminate.
    destruct (importsList (snd kv)) as [imps| |]; simpl; try discriminate.
    intro H. inversion H. now simpl.
  - intros (Ht & Hp & Hi). rewrite Hp, Hi. simpl. destruct d; simpl in *. now subst.
Qed.

Lemma generatorArray_entries (program : options) (swagger : json) (results : list generated) :
  generatorArray program swagger = Return results <->
  exists defs,
    selected_definitions swagger = Some defs /\ truthy defs = true /\
    Forall2 (collected program) (own_entries defs) results.
Proof.
  assert (swagger = JNull \/ swagger <> JNull) as [->|Hnull]
    by (destruct swagger; [now left | right; discriminate ..]).
  - split; [discriminate|]. intros (defs & H & _). discriminate.
  - rewrite (generatorArray_select _ _ Hnull). split.
    + destruct (selected_definitions swagger) as [defs|]; [|discriminate].
      destruct (truthy defs) eqn:Ht; [|discriminate].
      intro H. exists defs. repeat split; try assumption.
      apply mapM_Forall2_inv in H.
      eapply Forall2_impl; [|exact H]. intros kv d. apply collected_entry.
    + intros (defs & -> & -> & H). apply mapM_Forall2.
      eapply Forall2_impl; [|exact H]. intros kv d. apply collected_entry.
Qed.

Lemma filter_string_id (keep : ascii -> bool) (s : string) :
  (forall c, In c (chars s) -> keep c = true) -> filter_string keep s = s.
Proof.
  induction s as [|c s IH]; simpl; intro H; [reflexivity|].
  rewrite (H c (or_introl eq_refl)), IH; [reflexivity|].
  intros d Hd. apply H. now right.
Qed.

Lemma removeGenericsBug_id (s : string) :
  guillemet_free s -> removeGenericsBug s = s.
Proof.
  intros [Hl Hr]. unfold removeGenericsBug.
  rewrite (filter_string_id _ s).
  - apply filter_string_id. intros c Hc. unfold ascii_is.
    destruct (Ascii.eqb c "187") eqn:E; [|reflexivity].
    apply Ascii.eqb_eq in E. now subst.
  - intros c Hc. unfold ascii_is.
    destruct (Ascii.eqb c "171") eqn:E; [|reflexivity].
    apply Ascii.eqb_eq in E. now subst.
Qed.

Lemma removeGenericsBug_guillemet_free (s : string) :
  guillemet_free (removeGenericsBug s).
Proof.
  unfold guillemet_free, chars, removeGenericsBug.
  rewrite !filter_string_chars. split; rewrite !filter_In; unfold ascii_is.
  - intros ((_ & H) & _). now rewrite Ascii.eqb_refl in H.
  - intros (_ & H). now rewrite Ascii.eqb_refl in H.
Qed.

Lemma title_characters (name : string) :
  forallb title_character (chars (stripBrackets (removeGenericsBug name))) = true.
Proof.
  apply forallb_forall. intros c. unfold chars, stripBrackets, removeGenericsBug.
  rewrite !filter_string_chars, !filter_In. intros (((_ & Hl) & Hr) & Hb).
  unfold title_character.
  destruct (ascii_is c "171"); [discriminate|].
  destruct (ascii_is c "187"); [discriminate|].
  now rewrite !orb_false_r.
Qed.

Lemma title_character_guillemet_free (s : string) :
  forallb title_character (chars s) = true -> guillemet_free s.
Proof.
  intro H. rewrite forallb_forall in H. split; intro Hin; apply H in Hin;
    unfold title_character, ascii_is in Hin; cbn in Hin; discriminate.
Qed.

(** X16. A run of the Definition Collector that returns gives one definition
    per entry of the selected map of schemas, in the enumeration order of
    that map: the title is the entry's name without guillemets, brackets
    and apostrophes, the property list and the imports are those of the
    entry's schema. It returns exactly when the map is truthy and every
    schema has a property list and a list of imports. *)
Theorem generatorArray_one_per_schema (program : options) (swagger : json)
    (results : list generated) :
  generatorArray program swagger = Return results <->
  exists defs,
    selected_definitions swagger = Some defs /\ truthy defs = true /\
    Forall2 (collected program) (own_entries defs) results.
Proof. apply generatorArray_entries. Qed.

Lemma generatorArray_one_per_schema_witness :
  generatorArray {| destination := None; checkRequired := false; exact := false |}
    (JObj [("definitions",
            JObj [ ("Page[Pet]", JObj [("type", JStr "object")]);
                   ("Id", JObj [("type", JStr "integer")]) ])]) =
  Return [ {| title := "PagePet"; properties := PObj []; imports := [] |};
           {| title := "Id"; properties := PText (Some "number"); imports := [] |} ].
Proof.
  apply (proj2 (generatorArray_one_per_schema _ _ _)).
  eexists. split; [reflexivity|]. split; [reflexivity|].
  repeat constructor.
Defined.

(** X17. No title of a collected definition holds a bracket, an apostrophe
    or a guillemet. *)
Theorem generatorArray_titles_clean (program : options) (swagger : json)
    (results : list generated) :
  generatorArray program swagger = Return results ->
  Forall (fun d => forallb title_character (chars (title d)) = true) results.
Proof.
  intro H. apply generatorArray_entries in H as (defs & _ & _ & H).
  induction H as [|kv d entries results (Ht & _) _ IH]; constructor; [|exact IH].
  rewrite Ht. apply title_characters.
Qed.

Lemma generatorArray_titles_clean_witness :
  Forall (fun d => forallb title_character (chars (title d)) = true)
    [ {| title := "PagePet"; properties := PObj []; imports := [] |} ].
Proof.
  apply (generatorArray_titles_clean
           {| destination := None; checkRequired := false; exact := false |}
           (JObj [("definitions",
                   JObj [ (String "171" ("Page['Pet']" ++ String "187" ""),
                           JObj [("type", JStr "object")]) ])])).
  reflexivity.
Defined.

(** X18. The file a collected definition is written to is named by its
    title, unchanged, under the output directory: the name the import line
    of the index file refers to. *)
Theorem fileName_of_title (program : options) (swagger : json)
    (results : list generated) (dist : string) :
  generatorArray program swagger = Return results ->
  Forall (fun d => exists base,
            fileName dist d = dist ++ "/" ++ base ++ ".js" /\
            index_import d = "import type { " ++ base ++ " as _" ++ base
                             ++ " } from './" ++ base ++ "';")
         results.
Proof.
  intro H. apply generatorArray_entries in H as (defs & _ & _ & H).
  induction H as [|kv d entries results (Ht & _) _ IH]; constructor; [|exact IH].
  exists (title d). split; [|reflexivity]. unfold fileName.
  rewrite removeGenericsBug_id; [reflexivity|].
  apply title_character_guillemet_free. rewrite Ht. apply title_characters.
Qed.

Lemma fileName_of_title_witness :
  Forall (fun d => exists base,
            fileName "./types" d = "./types" ++ "/" ++ base ++ ".js" /\
            index_import d = "import type { " ++ base ++ " as _" ++ base
                             ++ " } from './" ++ base ++ "';")
    [ {| title := "PagePet"; properties := PObj []; imports := [] |} ].
Proof.
  apply (fileName_of_title
           {| destination := None; checkRequired := false; exact := false |}
           (JObj [("definitions",
                   JObj [ ("Page[Pet]", JObj [("type", JStr "object")]) ])])).
  reflexivity.
Defined.

(** X19. When [definitions] is truthy the collectors read it and nothing
    else: the schemas under [components] and every other entry of the
    document are ignored. *)
Theorem definitions_first (program : options) (fields : list (string * json))
    (defs : json) :
  get (JObj fields) "definitions" = Some defs ->
  truthy defs = true ->
  generatorArray program (JObj fields) =
    generatorArray program (JObj [("definitions", defs)]) /\
  generate program (JObj fields) = generate program (JObj [("definitions", defs)]).
Proof.
  intros Hdefs Ht. unfold generatorArray, generate.
  rewrite Hdefs. cbn [truthy_v]. rewrite Ht.
  assert (H : get (JObj [("definitions", defs)]) "definitions" = Some defs) by reflexivity.
  rewrite H. cbn [truthy_v]. rewrite Ht. cbn iota. rewrite Ht. now split.
Qed.

Lemma definitions_first_witness :
  let defs := JObj [("Id", JObj [("type", JStr "integer")])] in
  let program := {| destination := None; checkRequired := false; exact := false |} in
  let swagger :=
    JObj [ ("components", JObj [("schemas", JObj [("Other", JObj [("type", JStr "string")])])]);
           ("definitions", defs) ] in
  generatorArray program swagger = generatorArray program (JObj [("definitions", defs)]) /\
  generate program swagger = generate program (JObj [("definitions", defs)]).
Proof.
  intros defs program swagger.
  apply (definitions_first program _ defs); reflexivity.
Defined.

(** X20. No file name and no text of a run holds a guillemet: each one is
    the result of [removeGenericsBug]. *)
Theorem declarations_guillemet_free (program : options) (swagger : json)
    (files : list (string * string)) :
  declarations program swagger = Return files ->
  Forall (fun file => guillemet_free (fst file) /\ guillemet_free (snd file)) files.
Proof.
  unfold declarations.
  destruct (generatorArray program swagger) as [results| |]; simpl; try discriminate.
  apply mapM_Forall. intros d file.
  destruct (generateTypeFile program d) as [text| |]; simpl; try discriminate.
  intro H. inversion H. simpl. split; apply removeGenericsBug_guillemet_free.
Qed.

Lemma declarations_guillemet_free_witness :
  Forall (fun file => guillemet_free (fst file) /\ guillemet_free (snd file))
    [ ("Page", "export type Page = {a:string};") ].
Proof.
  apply (declarations_guillemet_free
           {| destination := None; checkRequired := false; exact := false |}
           (JObj [("definitions",
                   JObj [ (String "171" "Page",
                           JObj [("type", JStr "object");
                                 ("properties",
                                  JObj [(String "187" "a",
                                         JObj [("type", JStr "string")])])]) ])])).
  vm_compute. reflexivity.
Defined.

(** ** The single-file generator *)

Lemma mapM_cons {E X Y} (f : X -> outcome E Y) (x : X) (l : list X) :
  mapM f (x :: l) = (y <- f x ;; ys <- mapM f l ;; Return (y :: ys)).
Proof. reflexivity. Qed.

Lemma generate_select (program : options) (swagger : json) :
  swagger <> JNull ->
  generate program swagger =
  match selected_definitions swagger with
  | Some defs =>
      if truthy defs then
        g <- mapM (fun kv =>
                     lift (props <- propertiesList program (snd kv) ;;
                           Return (stripBrackets (fst kv), props)))
                  (own_entries defs) ;;
        mapM (fun definition =>
                lift (text <- propertiesTemplate program (snd definition) ;;
                      expression <- replace_dquotes text ;;
                      Return ("export type " ++ fst definition ++ " = "
                              ++ expression ++ ";")))
             g
      else Throw (Error "There is no definition")
  | None => Throw (Error "There is no definition")
  end.
Proof. destruct swagger; [congruence | reflexivity ..]. Qed.

(** X21. [generate] and the Definition Collector raise an [Error] in the
    same runs and with the same message: rendering never adds one. *)
Theorem generate_error (program : options) (swagger : json) (message : string) :
  generate program swagger = Throw (Error message) <->
  generatorArray program swagger = Throw (Error message).
Proof.
  assert (swagger = JNull \/ swagger <> JNull) as [->|Hnull]
    by (destruct swagger; [now left | right; discriminate ..]).
  - split; discriminate.
  - rewrite (generate_select _ _ Hnull), (generatorArray_select _ _ Hnull).
    destruct (selected_definitions swagger) as [defs|];
      [|split; intro H; inversion H; reflexivity].
    destruct (truthy defs); [|split; intro H; inversion H; reflexivity]. split.
    + intro H. exfalso.
      match type of H with
      | bind ?m _ = _ => destruct m as [g|e|] eqn:Eg
      end; simpl in H; try discriminate.
      * now apply mapM_lift_no_error in H.
      * inversion H; subst. now apply mapM_lift_no_error in Eg.
    + intro H. now apply mapM_lift_no_error in H.
Qed.

(** X22. For a document whose schema names hold no guillemet, and whose
    collected definitions all have a declaration text, [generate] returns
    one declaration per definition, in order, and the text of every file is
    the definition's import statements followed by that declaration. *)
Theorem generate_declarations (program : options) (swagger : json)
    (results : list generated) :
  (forall defs, selected_definitions swagger = Some defs ->
                Forall (fun kv => guillemet_free (fst kv)) (own_entries defs)) ->
  generatorArray program swagger = Return results ->
  Forall (fun d => exists text, generateTypeFile program d = Return text) results ->
  exists declared,
    generate program swagger = Return declared /\
    Forall2 (fun d declaration =>
               generateTypeFile program d = Return (importTemplates d ++ declaration))
            results declared.
Proof.
  intros Hnames H Htexts.
  apply generatorArray_entries in H as (defs & Hsel & Ht & H).
  specialize (Hnames defs Hsel).
  assert (Hnull : swagger <> JNull) by (intros ->; discriminate).
  rewrite (generate_select _ _ Hnull), Hsel, Ht.
  assert (Hg : mapM (fun kv =>
                       lift (props <- propertiesList program (snd kv) ;;
                             Return (stripBrackets (fst kv), props)))
                    (own_entries defs) =
               Return (map (fun d => (title d, properties d)) results)).
  { apply mapM_Forall2. clear Hsel Ht Htexts.
    induction H as [|kv d entries results (Htitle & Hprops & _) _ IH]; simpl.
    - constructor.
    - inversion Hnames as [|? ? Hfree Hrest]; subst. constructor; [|now apply IH].
      rewrite Hprops. simpl. rewrite Htitle, (removeGenericsBug_id _ Hfree).
      reflexivity. }
  rewrite Hg. cbn [bind]. clear Hg H Hnames.
  induction Htexts as [|d results (text & Htext) _ (declared & Hd & Hall)].
  - exists []. split; [reflexivity|constructor].
  - apply generateTypeFile_returns in Htext as Hr.
    destruct Hr as (rendered & Hrender & ->).
    cbn [map]. rewrite mapM_cons. cbn [fst snd title properties].
    rewrite Hrender. cbn [bind replace_dquotes lift]. rewrite Hd. cbn [bind].
    eexists. split; [reflexivity|]. constructor; [exact Htext|exact Hall].
Qed.

Lemma generate_declarations_witness :
  let program := {| destination := None; checkRequired := false; exact := false |} in
  let swagger :=
    JObj [("definitions",
           JObj [ ("Pet", JObj [("type", JStr "object");
                                ("properties",
                                 JObj [("owner", JObj [("$ref", JStr "#/definitions/Owner")])])]);
                  ("Owner", JObj [("type", JStr "string")]) ])] in
  exists declared,
    generate program swagger = Return declared /\
    Forall2 (fun d declaration =>
               generateTypeFile program d = Return (importTemplates d ++ declaration))
            [ {| title := "Pet"; properties := PObj [("owner", Some "Owner")];
                 imports := [Some "Owner"] |};
              {| title := "Owner"; properties := PText (Some "string"); imports := [] |} ]
            declared.
Proof.
  intros program swagger.
  apply (generate_declarations program swagger).
  - intros defs Hsel. inversion Hsel. repeat constructor; vm_compute; intuition congruence.
  - reflexivity.
  - repeat constructor; eexists; reflexivity.
Defined.

(** ** Type Synthesizer: references and arrays of objects *)

(** X23. A node without [type] that refers to a definition synthesizes to
    the name of that definition, whatever else the node holds. *)
Theorem typeFor_ref (program : options) (fs : list (string * json)) (name : string) :
  get (JObj fs) "type" = None ->
  get (JObj fs) "$ref" = Some (JStr ("#/definitions/" ++ name)) ->
  dot_star name = name -> name <> "" ->
  typeFor program (JObj fs) = Return (Some name).
Proof.
  intros Htype Href Hline Hne. rewrite typeFor_eq. unfold typeFor_body.
  rewrite Htype, Href. cbn [is_str andb].
  change (typeMapping_get None) with (@Return type_error tyval None).
  cbn [bind truthy_t]. now apply definitionTypeName_definitions.
Qed.

Lemma typeFor_ref_witness :
  typeFor {| destination := None; checkRequired := false; exact := false |}
    (JObj [("description", JStr "the owner"); ("$ref", JStr "#/definitions/Owner")]) =
  Return (Some "Owner").
Proof.
  apply (typeFor_ref _ _ "Owner"); try reflexivity. discriminate.
Defined.

(** X24. An array whose items are an object schema (no [oneOf], no [$ref],
    [type] equal to [object]) synthesizes to the array of the rendering of
    the items' property list, every double quote removed. *)
Theorem typeFor_array_of_object (program : options) (property : json)
    (ifs : list (string * json)) (pl : plist) (text : string) :
  get property "type" = Some (JStr "array") ->
  get property "items" = Some (JObj ifs) ->
  get (JObj ifs) "oneOf" = None ->
  get (JObj ifs) "$ref" = None ->
  get (JObj ifs) "type" = Some (JStr "object") ->
  propertiesList program (JObj ifs) = Return pl ->
  propertiesTemplate program pl = Return (Some text) ->
  typeFor program property = Return (Some ("Array<" ++ strip_dquotes text ++ ">")).
Proof.
  intros Htype Hitems Hone Href Hobj Hpl Htext. rewrite typeFor_eq. unfold typeFor_body.
  destruct property as [| | | | |fs]; try discriminate.
  rewrite Htype. cbn [is_str String.eqb Ascii.eqb Bool.eqb].
  rewrite field_get, Hitems, field_get, Hone, js_has_get, Href, Hobj.
  cbn [is_str String.eqb Ascii.eqb Bool.eqb].
  rewrite Hpl. cbn [bind]. rewrite Htext. reflexivity.
Qed.

Lemma typeFor_array_of_object_witness :
  typeFor {| destination := None; checkRequired := false; exact := true |}
    (JObj [("type", JStr "array");
           ("items", JObj [("type", JStr "object");
                           ("properties", JObj [("id", JObj [("type", JStr "integer")])])])]) =
  Return (Some "Array<{|id:number|}>").
Proof.
  apply (typeFor_array_of_object _ _
           [("type", JStr "object");
            ("properties", JObj [("id", JObj [("type", JStr "integer")])])]
           (PObj [("id", Some "number")])
           ("{|id" ++ String dquote (":" ++ String dquote "number|}")));
    reflexivity.
Defined.

(** * Runs over a store *)

Lemma extends_refl (h : Store.heap) : extends h h.
Proof. exists []. now rewrite app_nil_r. Qed.

Lemma extends_trans (h1 h2 h3 : Store.heap) :
  extends h1 h2 -> extends h2 h3 -> extends h1 h3.
Proof. intros [e1 ->] [e2 ->]. exists (e1 ++ e2)%list. now rewrite app_assoc. Qed.

Lemma extends_app (h extra : Store.heap) : extends h (h ++ extra)%list.
Proof. now exists extra. Qed.

Lemma extends_nth (h h' : Store.heap) (l : nat) (c : Store.cell) :
  extends h h' -> nth_error h l = Some c -> nth_error h' l = Some c.
Proof.
  intros [extra ->] H. rewrite nth_error_app1; [exact H|].
  apply nth_error_Some. congruence.
Qed.

Lemma doc_at_extends (h h' : Store.heap) :
  extends h h' ->
  forall n j, json_size j <= n -> forall v, doc_at h v j -> doc_at h' v j.
Proof.
  intro Hext. induction n as [|n IH]; intros j Hn v Hd.
  - destruct j; simpl in Hn; lia.
  - inversion Hd; subst; try constructor.
    + eapply doc_arr; [eapply extends_nth; eassumption|].
      assert (Hsub : forall e, In e elems -> json_size e <= n).
      { intros e He. apply json_size_elem in He. lia. }
      clear Hd H Hn. induction H0 as [|x e vs elems (y & -> & Hy) _ IHF]; constructor.
      * exists y. split; [reflexivity|]. apply IH; [apply Hsub; now left|exact Hy].
      * apply IHF. intros e' He'. apply Hsub. now right.
    + eapply doc_obj; [eapply extends_nth; eassumption|].
      assert (Hsub : forall e, In e fields -> json_size (snd e) <= n).
      { intros [k e] He. apply json_size_entry in He. simpl. lia. }
      clear Hd H Hn. induction H0 as [|f e fs fields (Hk & y & Hy & Hd) _ IHF]; constructor.
      * split; [exact Hk|]. exists y. split; [exact Hy|].
        apply IH; [apply Hsub; now left|exact Hd].
      * apply IHF. intros e' He'. apply Hsub. now right.
Qed.

Lemma doc_at_mono (h h' : Store.heap) (v : Store.hval) (j : json) :
  extends h h' -> doc_at h v j -> doc_at h' v j.
Proof. intros Hext. now apply (doc_at_extends h h' Hext (json_size j)). Qed.

Lemma val_at_mono (h h' : Store.heap) (v : Store.hvalue) (j : value) :
  extends h h' -> val_at h v j -> val_at h' v j.
Proof.
  intros Hext. destruct v, j; simpl; try tauto. now apply doc_at_mono.
Qed.

Lemma plist_at_extends (h h' : Store.heap) :
  extends h h' ->
  forall n p, plist_size p <= n -> forall v, plist_at h v p -> plist_at h' v p.
Proof.
  intro Hext. induction n as [|n IH]; intros p Hn v Hp.
  - inversion Hp; subst; try constructor.
    + eapply extends_nth; eassumption.
    + simpl in Hn. lia.
  - inversion Hp; subst; try constructor.
    + eapply extends_nth; eassumption.
    + eapply plist_arr; [eapply extends_nth; eassumption|].
      simpl in Hn. apply le_S_n in Hn.
      clear Hp H. induction H0 as [|x m vs ms Hx _ IHF]; constructor.
      * apply IH; [simpl in Hn; lia|exact Hx].
      * apply IHF. simpl in Hn. lia.
Qed.

Lemma plist_at_mono (h h' : Store.heap) (v : Store.hvalue) (p : plist) :
  extends h h' -> plist_at h v p -> plist_at h' v p.
Proof. intros Hext. now apply (plist_at_extends h h' Hext (plist_size p)). Qed.

(** ** The calls of the store, one by one *)

Lemma sim_ret {E A B} (R : Store.heap -> A -> B -> Prop) (h : Store.heap) (a : A) (b : B) :
  R h a b -> sim (E := E) R h (Store.ret a) (Return b).
Proof. intro H. split; [apply extends_refl|exact H]. Qed.

Lemma sim_reading {E A B} (R : Store.heap -> A -> B -> Prop) (h : Store.heap)
    (m : Store.heap -> outcome E A) (p : outcome E B) :
  match m h, p with
  | Return a, Return b => R h a b
  | Throw e, Throw e' => e = e'
  | Unmodelled, Unmodelled => True
  | _, _ => False
  end ->
  sim R h (Store.reading m) p.
Proof. intro H. split; [apply extends_refl|exact H]. Qed.

Lemma sim_bind {E A B A' B'} (R : Store.heap -> A -> B -> Prop)
    (R' : Store.heap -> A' -> B' -> Prop) (h : Store.heap)
    (m : Store.St E A) (p : outcome E B) (k : A -> Store.St E A') (kp : B -> outcome E B') :
  sim R h m p ->
  (forall h' a b, extends h h' -> p = Return b -> R h' a b -> sim R' h' (k a) (kp b)) ->
  sim R' h (Store.bindS m k) (bind p kp).
Proof.
  unfold sim, Store.bindS. intros [Hext Hm] Hk.
  destruct (m h) as [[a|e|] h1]; destruct p as [b|e'|]; simpl in *; try contradiction.
  - destruct (Hk h1 a b Hext eq_refl Hm) as [Hext' Hk']. split; [|exact Hk'].
    eapply extends_trans; eassumption.
  - now split.
  - now split.
Qed.

(** A read on the side of the store only. *)
Lemma sim_read {E A A' B'} (R' : Store.heap -> A' -> B' -> Prop) (h : Store.heap)
    (f : Store.heap -> A) (k : A -> Store.St E A') (p : outcome E B') :
  sim R' h (k (f h)) p ->
  sim R' h (Store.bindS (Store.reading (fun h => Return (f h))) k) p.
Proof. intro H. exact H. Qed.

(** A call that touches no object, the same on both sides. *)
Lemma sim_pure {E A A' B'} (R' : Store.heap -> A' -> B' -> Prop) (h : Store.heap)
    (m : Store.heap -> outcome E A) (p : outcome E A)
    (k : A -> Store.St E A') (kp : A -> outcome E B') :
  m h = p ->
  (forall a, p = Return a -> sim R' h (k a) (kp a)) ->
  sim R' h (Store.bindS (Store.reading m) k) (bind p kp).
Proof.
  intros Hm Hk. unfold sim, Store.bindS, Store.reading. rewrite Hm.
  destruct p as [a|e|]; simpl.
  - apply (Hk a eq_refl).
  - split; [apply extends_refl|reflexivity].
  - split; [apply extends_refl|exact I].
Qed.

(** A read whose result is known. *)
Lemma sim_reads {E A A' B'} (R' : Store.heap -> A' -> B' -> Prop) (h : Store.heap)
    (m : Store.heap -> outcome E A) (a : A) (k : A -> Store.St E A') (p : outcome E B') :
  m h = Return a ->
  sim R' h (k a) p ->
  sim R' h (Store.bindS (Store.reading m) k) p.
Proof.
  intros Hm H. unfold sim, Store.bindS, Store.reading. rewrite Hm. exact H.
Qed.

Lemma sim_alloc {E A' B'} (R' : Store.heap -> A' -> B' -> Prop) (h : Store.heap)
    (c : Store.cell) (k : Store.hval -> Store.St E A') (p : outcome E B') :
  sim R' (h ++ [c])%list (k (Store.HRef (length h))) p ->
  sim R' h (Store.bindS (Store.alloc c) k) p.
Proof.
  unfold sim, Store.bindS, Store.alloc. intros [Hext H]. split; [|exact H].
  eapply extends_trans; [apply extends_app|exact Hext].
Qed.

Lemma sim_alloc_ret {E B} (R : Store.heap -> Store.hvalue -> B -> Prop) (h : Store.heap)
    (c : Store.cell) (b : B) :
  R (h ++ [c])%list (Some (Store.HRef (length h))) b ->
  sim (E := E) R h (Store.bindS (Store.alloc c) (fun a => Store.ret (Some a))) (Return b).
Proof. intro H. split; [apply extends_app|exact H]. Qed.

Lemma sim_weaken {E A B} (R R' : Store.heap -> A -> B -> Prop) (h : Store.heap)
    (m : Store.St E A) (p : outcome E B) :
  (forall h' a b, extends h h' -> R h' a b -> R' h' a b) ->
  sim R h m p -> sim R' h m p.
Proof.
  unfold sim. intros HR [Hext H]. split; [exact Hext|].
  destruct (fst (m h)), p; try exact H. now apply HR.
Qed.

Lemma sim_mapS {E A B A' B'} (R : Store.heap -> A' -> B' -> Prop)
    (f : A -> Store.St E A') (g : B -> outcome E B') :
  (forall h h' a b, extends h h' -> R h a b -> R h' a b) ->
  forall (xs : list A) (ys : list B) (h : Store.heap),
    Forall2 (fun x y => forall h', extends h h' -> sim R h' (f x) (g y)) xs ys ->
    sim (fun h' => Forall2 (R h')) h (Store.mapS f xs) (mapM g ys).
Proof.
  intros Hmono xs.
  induction xs as [|x xs IH]; intros ys h H; inversion H as [|? y ? ys' Hxy Hrest]; subst.
  - apply sim_ret. constructor.
  - change (Store.mapS f (x :: xs))
      with (Store.bindS (f x) (fun b => Store.bindS (Store.mapS f xs)
                                          (fun bs => Store.ret (b :: bs)))).
    rewrite mapM_cons.
    eapply sim_bind; [apply Hxy, extends_refl|].
    intros h1 a b Hext1 _ Hab.
    eapply sim_bind.
    + apply IH. eapply Forall2_impl; [|exact Hrest].
      intros x' y' Hx' h' Hext'. apply Hx'. eapply extends_trans; eassumption.
    + intros h2 bs bs' Hext2 _ Hbs. apply sim_ret. constructor; [|exact Hbs].
      eapply Hmono; eassumption.
Qed.

Lemma sim_liftS {A B} (R : Store.heap -> A -> B -> Prop) (h : Store.heap)
    (m : Store.St type_error A) (p : M B) :
  sim R h m p -> sim R h (Store.liftS m) (lift p).
Proof.
  unfold sim, Store.liftS. simpl. intros [Hext H]. split; [exact Hext|].
  destruct (fst (m h)), p; simpl in *; try contradiction; try exact H.
  now subst.
Qed.

(** ** Reads of the document *)

Lemma mapM_Forall2_eq {E X Y Z} (f : X -> outcome E Z) (g : Y -> outcome E Z)
    (xs : list X) (ys : list Y) :
  Forall2 (fun x y => f x = g y) xs ys -> mapM f xs = mapM g ys.
Proof.
  induction 1 as [|x y xs ys Hxy _ IH]; [reflexivity|].
  rewrite !mapM_cons. now rewrite Hxy, IH.
Qed.

Lemma truthy_sim (h : Store.heap) (v : Store.hval) (j : json) :
  doc_at h v j -> Store.truthy v = truthy j.
Proof. now destruct 1. Qed.

Lemma truthy_v_sim (h : Store.heap) (v : Store.hvalue) (j : value) :
  val_at h v j -> Store.truthy_v v = truthy_v j.
Proof. destruct v, j; simpl; try tauto. apply truthy_sim. Qed.

Lemma is_str_sim (h : Store.heap) (v : Store.hvalue) (j : value) (lit : string) :
  val_at h v j -> Store.is_str v lit = is_str j lit.
Proof. destruct v, j; simpl; try tauto. now destruct 1. Qed.

Lemma assoc_sim (h : Store.heap) (k : string) (fs : list (string * Store.hvalue))
    (fields : list (string * json)) :
  Forall2 (fun f e => fst f = fst e /\ exists x, snd f = Some x /\ doc_at h x (snd e))
          fs fields ->
  match assoc k fs, assoc k fields with
  | Some (Some x), Some y => doc_at h x y
  | None, None => True
  | _, _ => False
  end.
Proof.
  induction 1 as [|[k1 v1] [k2 j2] fs fields (Hk & x & Hx & Hd) _ IH]; simpl; [exact I|].
  simpl in Hk, Hx. subst. now destruct (String.eqb k2 k).
Qed.

Lemma get_sim (h : Store.heap) (v : Store.hval) (j : json) (k : string) :
  doc_at h v j -> val_at h (Store.get h v k) (get j k).
Proof.
  destruct 1 as [| | | |l vs elems Hl _|l fs fields Hl Hfs];
    unfold Store.get; simpl; try exact I.
  - now rewrite Hl.
  - rewrite Hl. apply (assoc_sim h k) in Hfs.
    destruct (assoc k fs) as [[x|]|], (assoc k fields); simpl; tauto.
Qed.

Lemma js_has_sim (h : Store.heap) (v : Store.hval) (j : json) (k : string) :
  doc_at h v j -> Store.js_has h k v = js_has k j.
Proof.
  destruct 1 as [| | | |l vs elems Hl _|l fs fields Hl Hfs];
    unfold Store.js_has; simpl; try reflexivity.
  - now rewrite Hl.
  - rewrite Hl. apply (assoc_sim h k) in Hfs. unfold has_key.
    destruct (assoc k fs) as [[x|]|], (assoc k fields); simpl; tauto.
Qed.

Lemma indexed_sim (h : Store.heap) (vs : list Store.hvalue) (elems : list json) (i : nat) :
  Forall2 (fun v j => exists x, v = Some x /\ doc_at h x j) vs elems ->
  Forall2 (entry_at h) (indexed i vs) (indexed i elems).
Proof.
  intro H. revert i. induction H as [|v j vs elems Hv _ IH]; intro i; simpl; constructor.
  - split; [reflexivity|exact Hv].
  - apply IH.
Qed.

Lemma code_units_sim (h : Store.heap) (s : string) :
  Forall2 (fun v j => exists x, v = Some x /\ doc_at h x j)
          (Store.code_units s) (code_units s).
Proof.
  induction s as [|c s IH]; simpl; constructor; [|exact IH].
  eexists. split; [reflexivity|constructor].
Qed.

Lemma own_entries_sim (h : Store.heap) (v : Store.hval) (j : json) :
  doc_at h v j -> Forall2 (entry_at h) (Store.own_entries h v) (own_entries j).
Proof.
  destruct 1 as [| | |s|l vs elems Hl Hvs|l fs fields Hl Hfs]; simpl; try constructor.
  - apply indexed_sim, code_units_sim.
  - rewrite Hl. now apply indexed_sim.
  - rewrite Hl. exact Hfs.
Qed.

Lemma to_string_sim (h : Store.heap) :
  forall fuel j, json_size j <= fuel ->
  forall v, doc_at h v j -> Store.to_string fuel h v = to_string j.
Proof.
  induction fuel as [|fuel IH]; intros j Hn v Hd.
  - destruct j; simpl in Hn; lia.
  - destruct Hd as [|[]| | |l vs elems Hl Hvs|l fs fields Hl Hfs]; try reflexivity.
    + cbn [Store.to_string to_string]. rewrite Hl.
      assert (Hsub : forall e, In e elems -> json_size e <= fuel).
      { intros e He. apply json_size_elem in He. lia. }
      rewrite (mapM_Forall2_eq _ (fun e => match e with
                                           | JNull => Return ""
                                           | _ => to_string e
                                           end) vs elems); [reflexivity|].
      clear Hl Hn. induction Hvs as [|x e vs elems (y & -> & Hy) _ IHF]; constructor.
      * assert (He : json_size e <= fuel) by (apply Hsub; now left).
        destruct Hy; try reflexivity; now apply IH; try constructor; try econstructor; eauto.
      * apply IHF. intros e' He'. apply Hsub. now right.
    + cbn [Store.to_string to_string]. rewrite Hl.
      apply (assoc_sim h "toString") in Hfs. unfold has_key.
      destruct (assoc "toString" fs) as [[x|]|], (assoc "toString" fields);
        simpl; tauto.
Qed.

Lemma template_sim (h : Store.heap) (fuel : nat) (v : Store.hvalue) (j : value) :
  val_at h v j ->
  (forall y, j = Some y -> json_size y <= fuel) ->
  Store.template fuel h v = match j with
                            | None => Return "undefined"
                            | Some y => to_string y
                            end.
Proof.
  destruct v as [x|], j as [y|]; simpl; try tauto.
  intros Hd Hn. apply to_string_sim; [now apply Hn|exact Hd].
Qed.

Lemma typeMapping_get_sim (h : Store.heap) (fuel : nat) (v : Store.hvalue) (j : value) :
  val_at h v j ->
  (forall y, j = Some y -> json_size y <= fuel) ->
  Store.typeMapping_get fuel h v = typeMapping_get j.
Proof.
  intros Hv Hn. unfold Store.typeMapping_get, typeMapping_get.
  now rewrite (template_sim h fuel v j Hv Hn).
Qed.

Lemma definitionTypeName_sim (h : Store.heap) (v : Store.hvalue) (j : value) :
  val_at h v j -> Store.definitionTypeName v = definitionTypeName j.
Proof. destruct v, j; simpl; try tauto. now destruct 1. Qed.

Lemma isRequired_sim (h : Store.heap) (name : string) (v : Store.hval) (j : json) :
  doc_at h v j -> Store.isRequired h name v = isRequired name j.
Proof.
  intro Hd. unfold Store.isRequired, isRequired.
  assert (Hreq := get_sim h v j "required" Hd).
  destruct Hd; try reflexivity;
    destruct (Store.get h _ "required") as [r|], (get _ "required") as [r'|];
    simpl in Hreq; try tauto;
    rewrite (truthy_sim h r r' Hreq);
    destruct Hreq as [| | | |l' vs' names Hl' Hvs'|l' fs' fields' Hl' _]; try reflexivity.
  all: try (destruct (truthy (JArr names)); [|reflexivity]; rewrite Hl'; f_equal;
            clear Hl'; induction Hvs' as [|x e vs' names (y & -> & Hy) _ IHF];
            [reflexivity|]; simpl; rewrite IHF; f_equal; now destruct Hy).
  all: try (simpl; now rewrite Hl').
Qed.

Lemma propertyKeyForDefinition_sim (program : options) (h : Store.heap) (name : string)
    (v : Store.hval) (j : json) :
  doc_at h v j ->
  Store.propertyKeyForDefinition program h name v = propertyKeyForDefinition program name j.
Proof.
  intro Hd. unfold Store.propertyKeyForDefinition, propertyKeyForDefinition.
  now rewrite (isRequired_sim h name v j Hd).
Qed.

(** ** Reads of a property list *)

Lemma assoc_text_value (k : string) (es : list (string * tyval)) :
  assoc k (map (fun e => (fst e, Store.text_value (snd e))) es) =
  option_map Store.text_value (assoc k es).
Proof.
  induction es as [|[k' t] es IH]; simpl; [reflexivity|].
  now destruct (String.eqb k' k).
Qed.

Lemma member_ref_sim (h : Store.heap) (o : Store.hval) (p : plist) :
  plist_at h (Some o) p -> Store.get h o "$ref" = Store.text_value (member_ref p).
Proof.
  intro H. inversion H as [t Ht|l es Hl|l vs ms Hl Hvs]; subst; unfold Store.get; simpl.
  - destruct t; simpl in Ht; inversion Ht. reflexivity.
  - rewrite Hl, assoc_text_value. now destruct (assoc "$ref" es) as [[s|]|].
  - now rewrite Hl.
Qed.

Lemma stringify_entries_sim (es : list (string * tyval)) :
  Store.stringify_entries (map (fun e => (fst e, Store.text_value (snd e))) es) =
  Return (stringify_entries es).
Proof.
  induction es as [|[k [s|]] es IH]; simpl; [reflexivity| |exact IH].
  now rewrite IH.
Qed.

Lemma stringify_sim (h : Store.heap) :
  forall fuel p, plist_size p <= fuel ->
  forall v, plist_at h v p -> Store.stringify fuel h v = Return (stringify p).
Proof.
  induction fuel as [|fuel IH]; intros p Hn v Hp;
    inversion Hp as [t|l es Hl|l vs ms Hl Hvs]; subst.
  - now destruct t.
  - cbn [Store.stringify]. rewrite Hl, stringify_entries_sim. reflexivity.
  - simpl in Hn. lia.
  - now destruct t.
  - cbn [Store.stringify]. rewrite Hl, stringify_entries_sim. reflexivity.
  - cbn [Store.stringify stringify]. rewrite Hl.
    rewrite (mapM_Forall2 _ vs (map stringify ms)); [reflexivity|].
    simpl in Hn. apply le_S_n in Hn. clear Hl Hp.
    induction Hvs as [|x m vs ms Hx _ IHF]; simpl; constructor.
    + apply IH; [simpl in Hn; lia|exact Hx].
    + apply IHF. simpl in Hn. lia.
Qed.

Lemma JSON_stringify_sim (h : Store.heap) (fuel : nat) (v : Store.hvalue) (p : plist) :
  plist_size p <= fuel -> plist_at h v p ->
  Store.JSON_stringify fuel h v = Return (JSON_stringify p).
Proof.
  intros Hn Hp. assert (Hs := stringify_sim h fuel p Hn v Hp).
  inversion Hp as [t|l es Hl|l vs ms Hl Hvs]; subst.
  - destruct t; [|reflexivity]. destruct fuel; reflexivity.
  - unfold Store.JSON_stringify. now rewrite Hs.
  - unfold Store.JSON_stringify. now rewrite Hs.
Qed.

Lemma truthy_text_value (t : tyval) : Store.truthy_v (Store.text_value t) = truthy_t t.
Proof. destruct t as [[|c s]|]; reflexivity. Qed.

Lemma template_text_value (fuel : nat) (h : Store.heap) (t : tyval) :
  Store.template fuel h (Store.text_value t) = Return (tpl t).
Proof. destruct t; [destruct fuel|]; reflexivity. Qed.

Lemma render_member_sim (program : options) (h : Store.heap) (fuel : nat)
    (v : Store.hvalue) (p : plist) :
  plist_size p <= fuel -> plist_at h v p ->
  Store.render_member program fuel h v = render_member program p.
Proof.
  intros Hn Hp. destruct v as [o|].
  - unfold Store.render_member.
    rewrite (member_ref_sim h o p Hp), truthy_text_value, template_text_value.
    rewrite (stringify_sim h fuel p Hn _ Hp). unfold render_member.
    inversion Hp as [t|l es Hl|l vs ms Hl Hvs]; subst.
    + destruct t as [s|]; [|discriminate]. destruct (truthy_t _); reflexivity.
    + destruct (truthy_t _); reflexivity.
    + destruct (truthy_t _); reflexivity.
  - inversion Hp as [t Ht| |]. destruct t; [discriminate|reflexivity].
Qed.

Lemma update_last (h : Store.heap) (c0 c : Store.cell) (extra : Store.heap) :
  Store.update (length h) c (h ++ c0 :: extra)%list = (h ++ c :: extra)%list.
Proof. induction h as [|c' h IH]; simpl; [reflexivity|]. now rewrite IH. Qed.

Lemma nth_error_last (h : Store.heap) (c : Store.cell) (extra : Store.heap) :
  nth_error (h ++ c :: extra)%list (length h) = Some c.
Proof. induction h as [|c' h IH]; simpl; [reflexivity|exact IH]. Qed.

Lemma propertiesTemplate_sim (program : options) (h : Store.heap) (fuel : nat)
    (v : Store.hvalue) (p : plist) :
  plist_size p <= fuel -> plist_at h v p ->
  sim (fun _ a b => a = b) h (Store.propertiesTemplate program fuel v)
      (propertiesTemplate program p).
Proof.
  intros Hn Hp. inversion Hp as [t Ht|l es Hl|l vs ms Hl Hvs]; subst.
  - destruct t as [s|]; simpl Store.text_value.
    + apply sim_ret. reflexivity.
    + unfold Store.propertiesTemplate, propertiesTemplate.
      apply sim_read. simpl. destruct (exact program); apply sim_reading; reflexivity.
  - unfold Store.propertiesTemplate, propertiesTemplate.
    apply sim_read. cbn [Store.cell_at]. rewrite Hl.
    eapply sim_reads; [now apply (JSON_stringify_sim h fuel _ (PObj es))|].
    simpl. destruct (exact program); apply sim_ret; reflexivity.
  - unfold Store.propertiesTemplate, propertiesTemplate.
    apply sim_read. cbn [Store.cell_at]. rewrite Hl.
    eapply (sim_pure _ _ _ (mapM (render_member program) ms)).
    + apply mapM_Forall2_eq.
      assert (Hsum : list_sum (map plist_size ms) <= fuel) by (simpl in Hn; lia).
      clear Hl Hp Hn.
      induction Hvs as [|x m vs ms Hx _ IHF]; constructor.
      * apply render_member_sim; [simpl in Hsum; lia|exact Hx].
      * apply IHF. simpl in Hsum. lia.
    + intros rendered _.
      unfold sim, Store.bindS, Store.alloc, Store.reading, Store.write, Store.ret.
      destruct (Array_sort refs_last rendered) as [sorted| |]; simpl.
      * rewrite update_last. split; [apply extends_app|reflexivity].
      * split; [apply extends_app|reflexivity].
      * split; [apply extends_app|exact I].
Qed.

(** ** The Type Synthesizer and the Property-List Builder *)

Lemma json_null_case {A} (j : json) (a b : A) :
  match j with JNull => a | _ => b end = if is_null j then a else b.
Proof. now destruct j. Qed.

Lemma json_object_case {A} (j : json) (a b : A) :
  match j with JObj _ | JArr _ => a | _ => b end = if is_object j then a else b.
Proof. now destruct j. Qed.

Lemma is_null_sim (h : Store.heap) (v : Store.hval) (j : json) :
  doc_at h v j -> Store.is_null v = is_null j.
Proof. now destruct 1. Qed.

Lemma is_object_sim (h : Store.heap) (v : Store.hval) (j : json) :
  doc_at h v j -> Store.is_object v = is_object j.
Proof. now destruct 1. Qed.

Lemma Forall2_eq {X} (xs ys : list X) : Forall2 eq xs ys -> xs = ys.
Proof. induction 1; congruence. Qed.

Lemma Forall2_in_right {X Y} (R : X -> Y -> Prop) (P : Y -> Prop) (xs : list X) (ys : list Y) :
  Forall2 R xs ys -> (forall y, In y ys -> P y) ->
  Forall2 (fun x y => R x y /\ P y) xs ys.
Proof.
  induction 1 as [|x y xs ys Hxy _ IH]; intro HP; constructor.
  - split; [exact Hxy|]. apply HP. now left.
  - apply IH. intros y' Hy'. apply HP. now right.
Qed.

Lemma sim_reading_eq {E A} (h : Store.heap) (m : Store.heap -> outcome E A)
    (p : outcome E A) :
  m h = p -> sim (fun _ a b => a = b) h (Store.reading m) p.
Proof. intros <-. apply sim_reading. now destruct (m h). Qed.

Lemma sim_throw {E A B} (R : Store.heap -> A -> B -> Prop) (h : Store.heap) (e : E) :
  sim R h (Store.reading (fun _ => Throw e)) (Throw e).
Proof. now apply sim_reading. Qed.

(** A property list is no deeper than the document it is built from. *)
Ltac settle_size H :=
  repeat (match type of H with
          | context [bind ?m _] => destruct m eqn:?
          | context [match ?x with _ => _ end] => destruct x eqn:?
          end; cbn [bind] in H; try discriminate);
  inversion H; simpl; lia.

Lemma propertiesList_size (program : options) :
  forall n j, json_size j <= n ->
  forall p, propertiesList program j = Return p -> plist_size p <= json_size j.
Proof.
  induction n as [|n IH]; intros j Hn p H.
  - destruct j; simpl in Hn; lia.
  - rewrite propertiesList_eq in H. unfold propertiesList_body in H.
    rewrite json_object_case in H. destruct (is_object j); [|discriminate].
    rewrite field_get in H.
    destruct (get j "allOf") as [allOf|] eqn:Eall.
    + apply json_size_get in Eall.
      destruct allOf as [| | | |members|]; try discriminate.
      destruct (mapM (propertiesList program) members) as [results| |] eqn:Em;
        simpl in H; try discriminate.
      inversion H. subst p. apply mapM_Forall2_inv in Em. simpl in Eall |- *.
      assert (Hsub : forall m, In m members -> json_size m <= n).
      { intros m Hm. apply json_size_elem in Hm. simpl in Hm. lia. }
      assert (Hsum : list_sum (map plist_size results) <= list_sum (map json_size members)).
      { clear Eall H. induction Em as [|m r members results Hr _ IHF]; simpl; [lia|].
        assert (plist_size r <= json_size m) by (apply IH; [apply Hsub; now left|exact Hr]).
        assert (list_sum (map plist_size results) <= list_sum (map json_size members))
          by (apply IHF; intros m' Hm'; apply Hsub; now right).
        lia. }
      lia.
    + destruct (truthy_v (get j "$ref")); [settle_size H|].
      destruct (js_has "type" j && negb (is_str (get j "type") "object")); [settle_size H|].
      rewrite field_get in H. destruct (get j "properties") as [properties|];
        [|settle_size H].
      destruct (negb (truthy properties)); [settle_size H|].
      destruct properties as [| | |s|elems|[|prop props]]; settle_size H.
Qed.

(** [Object.assign] does not look at the values it copies. *)
Section AssignMap.
Context {X Y : Type}.
Variable g : X -> Y.
Let F (e : string * X) : string * Y := (fst e, g (snd e)).

Lemma assoc_map (k : string) (o : list (string * X)) :
  assoc k (map F o) = option_map g (assoc k o).
Proof.
  induction o as [|[k' x] o IH]; simpl; [reflexivity|].
  now destruct (String.eqb k' k).
Qed.

Lemma has_key_map (k : string) (o : list (string * X)) :
  has_key k (map F o) = has_key k o.
Proof. unfold has_key. rewrite assoc_map. now destruct (assoc k o). Qed.

Lemma obj_update_map (k : string) (x : X) (o : list (string * X)) :
  obj_update k (g x) (map F o) = map F (obj_update k x o).
Proof.
  induction o as [|[k' x'] o IH]; simpl; [reflexivity|].
  destruct (String.eqb k' k); simpl; [reflexivity|]. now rewrite IH.
Qed.

Lemma obj_insert_index_map (i : N) (k : string) (x : X) (o : list (string * X)) :
  obj_insert_index i k (g x) (map F o) = map F (obj_insert_index i k x o).
Proof.
  induction o as [|[k' x'] o IH]; simpl; [reflexivity|].
  destruct (array_index k') as [n|]; [|reflexivity].
  destruct (n <? i)%N; simpl; [|reflexivity]. now rewrite IH.
Qed.

Lemma obj_set_map (o : list (string * X)) (k : string) (x : X) :
  obj_set (map F o) k (g x) = map F (obj_set o k x).
Proof.
  unfold obj_set. rewrite has_key_map. destruct (has_key k o).
  - apply obj_update_map.
  - destruct (array_index k); [apply obj_insert_index_map|].
    now rewrite map_app.
Qed.

Lemma assign_entries_map (source target : list (string * X)) :
  fold_left assign_entry (map F source) (map F target) =
  map F (fold_left assign_entry source target).
Proof.
  revert target. induction source as [|[k x] source IH]; intro target; simpl; [reflexivity|].
  unfold assign_entry at 2 4. simpl.
  destruct (String.eqb k "__proto__"); [apply IH|].
  rewrite obj_set_map. apply IH.
Qed.

Lemma Object_assign_map (target : list (string * X)) (sources : list (list (string * X))) :
  Object_assign (map F target) (map (map F) sources) = map F (Object_assign target sources).
Proof.
  unfold Object_assign. revert target.
  induction sources as [|source sources IH]; intro target; simpl; [reflexivity|].
  rewrite assign_entries_map. apply IH.
Qed.
End AssignMap.

Lemma Object_assign_run {E} (h : Store.heap) (fs : list (string * Store.hvalue))
    (extra : Store.heap) (sources : list (list (string * Store.hvalue))) :
  Store.Object_assign (E := E) (Store.HRef (length h)) sources (h ++ Store.CObj fs :: extra)%list =
  (Return (Store.HRef (length h)),
   (h ++ Store.CObj (Object_assign fs sources) :: extra)%list).
Proof.
  unfold Store.Object_assign, Store.bindS, Store.reading, Store.write, Store.ret.
  cbn [Store.cell_at]. rewrite nth_error_last, update_last. reflexivity.
Qed.

(** The entries of a properties value that is truthy, whatever its shape:
    those of its own keys. *)
Lemma mapMi_indexed {E X Y} (f : string -> X -> outcome E Y) (i : nat) (l : list X) :
  mapMi f i l = mapM (fun kv => f (fst kv) (snd kv)) (indexed i l).
Proof.
  revert i. induction l as [|x l IH]; intro i; [reflexivity|].
  simpl indexed. rewrite mapM_cons. simpl. now rewrite IH.
Qed.

Lemma properties_entries (program : options) (definition properties : json) :
  truthy properties = true ->
  match properties with
  | JObj [] => Return (PObj [])
  | JObj props =>
      entries <- mapM (fun kv => property_entry program (typeFor program) definition
                                   (fst kv) (snd kv)) props ;;
      Return (merge_entries entries)
  | JArr elems =>
      entries <- mapMi (property_entry program (typeFor program) definition) 0 elems ;;
      Return (merge_entries entries)
  | JStr _ =>
      _ <- propertyKeyForDefinition program (index_key 0) definition ;;
      Throw TypeError
  | _ => Return (PObj [])
  end =
  if (length (own_entries properties) =? 0)%nat then Return (PObj [])
  else
    entries <- mapM (fun kv => property_entry program (typeFor program) definition
                                 (fst kv) (snd kv)) (own_entries properties) ;;
    Return (merge_entries entries).
Proof.
  intro Ht. destruct properties as [| | |s|elems|[|prop props]]; try reflexivity.
  - destruct s as [|c s]; [discriminate|]. simpl own_entries. simpl indexed.
    cbn [length Nat.eqb]. rewrite mapM_cons. unfold property_entry at 1. cbn [fst snd].
    rewrite typeFor_string.
    now destruct (propertyKeyForDefinition program (index_key 0) definition).
  - destruct elems as [|e elems]; [reflexivity|].
    simpl own_entries. simpl indexed. cbn [length Nat.eqb].
    now rewrite mapMi_indexed.
Qed.

Lemma indexed_size (e : string * json) (l : list json) (i : nat) :
  In e (indexed i l) -> In (snd e) l.
Proof.
  revert i. induction l as [|x l IH]; intros i; simpl; [tauto|].
  intros [<-|H]; [now left|right; eapply IH; exact H].
Qed.

Lemma own_entries_size (properties : json) (e : string * json) :
  In e (own_entries properties) -> json_size (snd e) <= json_size properties.
Proof.
  destruct properties as [| | |s|elems|fields]; simpl own_entries; try (simpl; tauto).
  - intro H. apply indexed_size in H. revert H.
    induction s as [|c s IH]; simpl; [tauto|].
    intros [<-|H]; [simpl; lia|now apply IH].
  - intro H. apply indexed_size in H. apply json_size_elem in H. lia.
  - destruct e as [k x]. intro H. apply json_size_entry in H. simpl snd. lia.
Qed.

Section EngineSim.
Variable program : options.
Variable fuel : nat.
Variable tf : Store.hvalue -> Store.St type_error tyval.
Variable pl : Store.hvalue -> Store.St type_error Store.hvalue.
Hypothesis Htf : forall j, json_size j <= fuel -> forall h v, doc_at h v j ->
  sim (fun _ a b => a = b) h (tf (Some v)) (typeFor program j).
Hypothesis Hpl : forall j, json_size j <= fuel -> forall h v, doc_at h v j ->
  sim plist_at h (pl (Some v)) (propertiesList program j).
Hypothesis Hpl_none : 1 <= fuel -> forall h,
  sim plist_at h (pl None) (Throw TypeError).

(** The rendering of the property list of a sub-document, as [typeFor]
    uses it for the items of an array. *)
Lemma child_sim (h : Store.heap) (v : Store.hvalue) (m : M plist) (k : string -> tyval) :
  (forall p, m = Return p -> plist_size p <= fuel) ->
  sim plist_at h (pl v) m ->
  sim (fun _ a b => a = b) h
    (Store.bindS (pl v) (fun p =>
       Store.bindS (Store.propertiesTemplate program (S fuel) p) (fun text =>
         Store.bindS (Store.reading (fun _ => replace_dquotes text)) (fun s =>
           Store.ret (k s)))))
    (p <- m ;; text <- propertiesTemplate program p ;; s <- replace_dquotes text ;;
     Return (k s)).
Proof.
  intros Hn Hm. eapply sim_bind; [exact Hm|].
  intros h1 a p _ Hreturn Hp. eapply sim_bind.
  - apply propertiesTemplate_sim; [|exact Hp]. apply Hn in Hreturn. lia.
  - intros h2 text text' _ _ <-. apply sim_pure; [reflexivity|].
    intros s _. now apply sim_ret.
Qed.

Lemma typeFor_body_sim (j : json) (h : Store.heap) (v : Store.hval) :
  json_size j <= S fuel -> doc_at h v j ->
  sim (fun _ a b => a = b) h
    (Store.typeFor_body program (S fuel) tf pl (Some v))
    (typeFor_body program (typeFor program) (propertiesList program) j).
Proof.
  intros Hn Hd. unfold Store.typeFor_body, typeFor_body.
  rewrite json_null_case, (is_null_sim h v j Hd).
  destruct (is_null j); [apply sim_throw|].
  apply sim_read.
  rewrite (is_str_sim h _ _ "array" (get_sim h v j "type" Hd)).
  destruct (is_str (get j "type") "array").
  - apply sim_read. rewrite field_get.
    pose proof (get_sim h v j "items" Hd) as Hitems.
    destruct (Store.get h v "items") as [iv|], (get j "items") as [ij|] eqn:Eij;
      simpl in Hitems; try contradiction; [|apply sim_throw].
    rewrite json_object_case, (is_object_sim h iv ij Hitems).
    destruct (is_object ij); [|apply sim_throw]. cbn [negb].
    assert (Hsi : json_size ij <= fuel) by (apply json_size_get in Eij; lia).
    apply sim_read. cbn [fst snd]. rewrite field_get.
    rewrite (js_has_sim h iv ij "oneOf" Hitems), js_has_get.
    pose proof (get_sim h iv ij "oneOf" Hitems) as Hone.
    destruct (Store.get h iv "oneOf") as [ov|], (get ij "oneOf") as [oj|] eqn:Eoj;
      simpl in Hone; try contradiction.
    + apply sim_read.
      assert (Hso : json_size oj <= fuel) by (apply json_size_get in Eoj; lia).
      destruct Hone as [| | | |l vs alts Hl Hvs|l fs fields Hl _];
        cbn [Store.cell_at]; rewrite ?Hl; try apply sim_throw.
      eapply sim_bind.
      * apply (sim_mapS (fun _ a b => a = b)); [now intros|].
        apply (Forall2_in_right _ (fun e => json_size e <= fuel)) in Hvs.
        2:{ intros e He. apply json_size_elem in He. lia. }
        eapply Forall2_impl; [|exact Hvs].
        intros x e [(y & -> & Hy) He] h' Hext. cbv beta.
        assert (Hy' : doc_at h' y e) by (eapply doc_at_mono; eassumption).
        rewrite json_null_case, (is_null_sim h' y e Hy').
        destruct (is_null e); [apply sim_throw|].
        apply sim_read.
        rewrite (is_str_sim h' _ _ "object" (get_sim h' y e "type" Hy')).
        destruct (is_str (get e "type") "object"); [|now apply Htf].
        apply sim_read. rewrite field_get.
        pose proof (get_sim h' y e "items" Hy') as Hei.
        destruct (Store.get h' y "items") as [eiv|], (get e "items") as [eij|] eqn:Eei;
          simpl in Hei; try contradiction.
        -- apply json_size_get in Eei.
           apply (child_sim h' (Some eiv) _ Some).
           ++ intros p Hp. apply (propertiesList_size program _ _ (le_n _)) in Hp. lia.
           ++ apply Hpl; [lia|exact Hei].
        -- assert (Hpos : 1 <= fuel) by (destruct e; simpl in He; lia).
           apply (child_sim h' None _ Some); [discriminate|].
           now apply Hpl_none.
      * intros h' parts parts' _ _ Hparts. apply Forall2_eq in Hparts. subst.
        now apply sim_ret.
    + apply sim_read. cbn [fst snd].
      rewrite (js_has_sim h iv ij "$ref" Hitems).
      destruct (js_has "$ref" ij).
      * apply sim_pure; [apply (definitionTypeName_sim h), get_sim, Hitems|].
        intros name _. now apply sim_ret.
      * apply sim_read.
        rewrite (is_str_sim h _ _ "object" (get_sim h iv ij "type" Hitems)).
        destruct (is_str (get ij "type") "object").
        -- apply (child_sim h (Some iv) _ (fun child => Some ("Array<" ++ child ++ ">")));
             [|now apply Hpl].
           intros p Hp. apply (propertiesList_size program _ _ (le_n _)) in Hp. lia.
        -- apply sim_pure.
           ++ apply typeMapping_get_sim; [apply get_sim, Hitems|].
              intros y Hy. apply json_size_get in Hy. lia.
           ++ intros mapped _. now apply sim_ret.
  - apply sim_read. cbn [fst snd].
    rewrite (is_str_sim h _ _ "string" (get_sim h v j "type" Hd)),
      (js_has_sim h v j "enum" Hd).
    destruct (is_str (get j "type") "string" && js_has "enum" j).
    + apply sim_read.
      pose proof (get_sim h v j "enum" Hd) as Henum.
      destruct (Store.get h v "enum") as [ev|], (get j "enum") as [ej|] eqn:Eej;
        simpl in Henum; try contradiction; [|apply sim_throw].
      destruct Henum as [| | | |l vs values Hl Hvs|l fs fields Hl _];
        cbn [Store.cell_at]; rewrite ?Hl; try apply sim_throw.
      apply sim_pure.
      * apply mapM_Forall2_eq.
        apply (Forall2_in_right _ (fun e => json_size e <= S fuel)) in Hvs.
        2:{ intros e He. apply json_size_elem in He. apply json_size_get in Eej. lia. }
        eapply Forall2_impl; [|exact Hvs].
        intros x e [(y & -> & Hy) He]. cbv beta.
        now rewrite (template_sim h (S fuel) (Some y) (Some e) Hy)
          by (intros ? [= <-]; exact He).
      * intros literals _. now apply sim_ret.
    + apply sim_pure.
      * apply typeMapping_get_sim; [apply get_sim, Hd|].
        intros y Hy. apply json_size_get in Hy. lia.
      * intros mapped _. destruct (truthy_t mapped); [now apply sim_ret|].
        apply sim_reading_eq. apply (definitionTypeName_sim h), get_sim, Hd.
Qed.
(** The entries of a property list, computed one by one. *)
Lemma property_entry_sim (j : json) (h : Store.heap) (v : Store.hval)
    (kv : string * Store.hvalue) (kv' : string * json) :
  doc_at h v j -> entry_at h kv kv' -> json_size (snd kv') <= fuel ->
  sim (fun _ a b => a = (fst b, Store.text_value (snd b))) h
    (Store.property_entry program tf v kv)
    (property_entry program (typeFor program) j (fst kv') (snd kv')).
Proof.
  intros Hd [Hk (x & Hx & Hxd)] Hn. unfold Store.property_entry, property_entry.
  apply sim_pure.
  - rewrite Hk. now apply propertyKeyForDefinition_sim.
  - intros key _. eapply sim_bind.
    + rewrite Hx. now apply Htf.
    + intros h' text text' _ _ <-. now apply sim_ret.
Qed.

Lemma entries_sim (j : json) (h : Store.heap) (v : Store.hval)
    (keys : list (string * Store.hvalue)) (props : list (string * json)) :
  doc_at h v j ->
  Forall2 (entry_at h) keys props ->
  (forall e, In e props -> json_size (snd e) <= fuel) ->
  sim plist_at h
    (Store.bindS (Store.alloc (Store.CObj [])) (fun target =>
       Store.bindS (Store.mapS (Store.property_entry program tf v) keys) (fun entries =>
         Store.bindS (Store.Object_assign target (map (fun e => [e]) entries)) (fun merged =>
           Store.ret (Some merged)))))
    (entries <- mapM (fun kv => property_entry program (typeFor program) j (fst kv) (snd kv))
                     props ;;
     Return (merge_entries entries)).
Proof.
  intros Hd Hkeys Hn.
  assert (Hmap : sim (fun h' => Forall2 (fun a b => a = (fst b, Store.text_value (snd b))))
                     (h ++ [Store.CObj []])%list
                     (Store.mapS (Store.property_entry program tf v) keys)
                     (mapM (fun kv => property_entry program (typeFor program) j
                                        (fst kv) (snd kv)) props)).
  { apply (sim_mapS (fun _ a b => a = (fst b, Store.text_value (snd b)))); [now intros|].
    apply (Forall2_in_right _ (fun e => json_size (snd e) <= fuel)) in Hkeys; [|exact Hn].
    eapply Forall2_impl; [|exact Hkeys].
    intros kv kv' [[Hk (x & Hx & Hxd)] He] h' Hext.
    apply property_entry_sim; [| |exact He].
    - eapply doc_at_mono; [|exact Hd]. eapply extends_trans; [apply extends_app|exact Hext].
    - split; [exact Hk|]. exists x. split; [exact Hx|].
      eapply doc_at_mono; [|exact Hxd].
      eapply extends_trans; [apply extends_app|exact Hext]. }
  destruct Hmap as [[extra Hext] Hres].
  unfold sim.
  replace (Store.bindS (Store.alloc (Store.CObj [])) _ h)
    with (match Store.mapS (Store.property_entry program tf v) keys
                  (h ++ [Store.CObj []])%list with
          | (Return entries, h2) =>
              Store.bindS (Store.Object_assign (Store.HRef (length h))
                             (map (fun e => [e]) entries))
                          (fun merged => Store.ret (Some merged)) h2
          | (Throw e, h2) => (Throw e, h2)
          | (Unmodelled, h2) => (Unmodelled, h2)
          end) by reflexivity.
  destruct (Store.mapS (Store.property_entry program tf v) keys (h ++ [Store.CObj []])%list)
    as [[entries|e|] h2];
    destruct (mapM (fun kv => property_entry program (typeFor program) j (fst kv) (snd kv))
                   props) as [entries'| |];
    cbn [fst snd bind] in *; try contradiction; subst h2; rewrite <- app_assoc; simpl app.
  - unfold Store.bindS. rewrite Object_assign_run. cbn [fst snd Store.ret].
    split; [apply extends_app|].
    apply plist_obj. rewrite nth_error_last. do 2 f_equal.
    assert (He : entries = map (fun e => (fst e, Store.text_value (snd e))) entries').
    { clear - Hres. induction Hres as [|a b entries entries' -> _ IH]; simpl; congruence. }
    rewrite He, map_map, <- (Object_assign_map Store.text_value), map_map.
    reflexivity.
  - split; [apply extends_app|exact Hres].
  - split; [apply extends_app|exact I].
Qed.

Lemma propertiesList_body_sim (j : json) (h : Store.heap) (v : Store.hval) :
  json_size j <= S fuel -> doc_at h v j ->
  sim plist_at h
    (Store.propertiesList_body program (S fuel) tf pl (Some v))
    (propertiesList_body program (typeFor program) (propertiesList program) j).
Proof.
  intros Hn Hd. unfold Store.propertiesList_body, propertiesList_body.
  rewrite json_object_case, (is_object_sim h v j Hd).
  destruct (is_object j); [|apply sim_throw]. cbn [negb].
  apply sim_read. cbn [fst snd]. rewrite field_get.
  rewrite (js_has_sim h v j "allOf" Hd), js_has_get.
  pose proof (get_sim h v j "allOf" Hd) as Hall.
  destruct (Store.get h v "allOf") as [av|], (get j "allOf") as [aj|] eqn:Eaj;
    simpl in Hall; try contradiction.
  - apply sim_read. apply json_size_get in Eaj.
    destruct Hall as [| | | |l vs members Hl Hvs|l fs fields Hl _];
      cbn [Store.cell_at]; rewrite ?Hl; try apply sim_throw.
    eapply sim_bind.
    + apply (sim_mapS plist_at); [intros; eapply plist_at_mono; eassumption|].
      apply (Forall2_in_right _ (fun e => json_size e <= fuel)) in Hvs.
      2:{ intros e He. apply json_size_elem in He. lia. }
      eapply Forall2_impl; [|exact Hvs].
      intros x e [(y & -> & Hy) He] h' Hext.
      apply Hpl; [exact He|]. eapply doc_at_mono; eassumption.
    + intros h' results results' _ _ Hresults. apply sim_alloc_ret.
      eapply plist_arr; [apply nth_error_last|].
      eapply Forall2_impl; [|exact Hresults].
      intros a b Hab. eapply plist_at_mono; [apply extends_app|exact Hab].
  - apply sim_read.
    rewrite (truthy_v_sim h _ _ (get_sim h v j "$ref" Hd)).
    destruct (truthy_v (get j "$ref")).
    + apply sim_pure; [apply (definitionTypeName_sim h), get_sim, Hd|].
      intros name _. apply sim_alloc_ret. apply plist_obj, nth_error_last.
    + apply sim_read. cbn [fst snd].
      rewrite (js_has_sim h v j "type" Hd),
        (is_str_sim h _ _ "object" (get_sim h v j "type" Hd)).
      destruct (js_has "type" j && negb (is_str (get j "type") "object")).
      * eapply sim_bind; [now apply typeFor_body_sim|].
        intros h' text text' _ _ <-. apply sim_ret. constructor.
      * apply sim_read. apply sim_read. rewrite field_get.
        pose proof (get_sim h v j "properties" Hd) as Hprops.
        destruct (Store.get h v "properties") as [pv|], (get j "properties") as [pj|] eqn:Epj;
          simpl in Hprops; try contradiction.
        2:{ apply sim_alloc_ret. apply (plist_obj _ _ []), nth_error_last. }
        cbn [Store.truthy_v]. rewrite (truthy_sim h pv pj Hprops).
        destruct (truthy pj) eqn:Et; cbn [negb orb].
        2:{ apply sim_alloc_ret. apply (plist_obj _ _ []), nth_error_last. }
        rewrite (properties_entries program j pj Et).
        pose proof (own_entries_sim h pv pj Hprops) as Hkeys.
        rewrite (Forall2_length Hkeys).
        destruct (length (own_entries pj) =? 0)%nat.
        -- apply sim_alloc_ret. apply (plist_obj _ _ []), nth_error_last.
        -- apply entries_sim; [exact Hd|exact Hkeys|].
           intros e He. apply json_size_get in Epj.
           assert (json_size (snd e) <= json_size pj); [|lia].
           now apply own_entries_size.
Qed.
End EngineSim.

Lemma engine_sim (program : options) (fuel : nat) :
  (forall j, json_size j <= fuel -> forall h v, doc_at h v j ->
     sim (fun _ a b => a = b) h (Store.typeFor program fuel (Some v)) (typeFor program j)) /\
  (forall j, json_size j <= fuel -> forall h v, doc_at h v j ->
     sim plist_at h (Store.propertiesList program fuel (Some v)) (propertiesList program j)) /\
  (1 <= fuel -> forall h,
     sim plist_at h (Store.propertiesList program fuel None) (Throw TypeError)).
Proof.
  induction fuel as [|fuel (Htf & Hpl & Hnone)].
  - split; [|split]; try lia; intros j Hn; destruct j; simpl in Hn; lia.
  - split; [|split].
    + intros j Hn h v Hd. rewrite typeFor_eq.
      now apply (typeFor_body_sim program fuel _ _ Htf Hpl Hnone).
    + intros j Hn h v Hd. rewrite propertiesList_eq.
      now apply (propertiesList_body_sim program fuel _ _ Htf Hpl Hnone).
    + intros _ h. apply sim_throw.
Qed.

(** ** The Import Resolver *)

Lemma reduceM_Forall2_eq {X X' Y} (f : Y -> X -> M Y) (g : Y -> X' -> M Y)
    (xs : list X) (ys : list X') :
  Forall2 (fun x y => forall acc, f acc x = g acc y) xs ys ->
  forall acc, reduceM f xs acc = reduceM g ys acc.
Proof.
  induction 1 as [|x y xs ys Hxy _ IH]; intro acc; simpl; [reflexivity|].
  rewrite Hxy. destruct (g acc y); simpl; try reflexivity. apply IH.
Qed.

Lemma items_ref_sim (h : Store.heap) (v : Store.hval) (j : json) :
  doc_at h v j ->
  val_at h (match Store.get h v "items" with
            | Some items => Store.get h items "$ref"
            | None => None
            end)
           (match get j "items" with
            | Some items => get items "$ref"
            | None => None
            end).
Proof.
  intro Hd. pose proof (get_sim h v j "items" Hd) as Hitems.
  destruct (Store.get h v "items"), (get j "items"); simpl in Hitems; try contradiction.
  - now apply get_sim.
  - exact I.
Qed.

Lemma sim_alloc_val {E B} (R : Store.heap -> Store.hval -> B -> Prop) (h : Store.heap)
    (c : Store.cell) (b : B) :
  R (h ++ [c])%list (Store.HRef (length h)) b ->
  sim (E := E) R h (Store.alloc c) (Return b).
Proof. intro H. split; [apply extends_app|exact H]. Qed.

Lemma importsList_sim (h : Store.heap) (v : Store.hval) (j : json) :
  doc_at h v j ->
  sim imports_at h (Store.importsList (Some v)) (importsList j).
Proof.
  intro Hd. unfold Store.importsList, importsList.
  rewrite json_null_case, (is_null_sim h v j Hd).
  destruct (is_null j); [apply sim_throw|].
  apply sim_read.
  pose proof (get_sim h v j "properties" Hd) as Hprops.
  destruct (Store.get h v "properties") as [pv|], (get j "properties") as [pj|];
    simpl in Hprops; try contradiction.
  2:{ apply sim_alloc_val. exists (length h). split; [reflexivity|apply nth_error_last]. }
  cbn [truthy_v]. rewrite (truthy_sim h pv pj Hprops).
  destruct (truthy pj); cbn [negb].
  2:{ apply sim_alloc_val. exists (length h). split; [reflexivity|apply nth_error_last]. }
  unfold sim, Store.bindS, Store.reading.
  match goal with
  | |- context [reduceM ?f (map snd (Store.own_entries h pv)) []] =>
      match goal with
      | |- context [reduceM ?g (map snd (own_entries pj)) []] =>
          assert (Heq : reduceM f (map snd (Store.own_entries h pv)) [] =
                        reduceM g (map snd (own_entries pj)) [])
      end
  end.
  { apply reduceM_Forall2_eq.
    pose proof (own_entries_sim h pv pj Hprops) as Hkeys.
    induction Hkeys as [|kv kv' keys props [_ (x & Hx & Hxd)] _ IH]; simpl; constructor;
      [|exact IH].
    intro acc. rewrite Hx.
    rewrite (truthy_sim h x _ Hxd).
    rewrite (truthy_v_sim h _ _ (get_sim h x _ "$ref" Hxd)).
    rewrite (definitionTypeName_sim h _ _ (get_sim h x _ "$ref" Hxd)).
    rewrite (is_str_sim h _ _ "array" (get_sim h x _ "type" Hxd)).
    rewrite (truthy_v_sim h _ _ (get_sim h x _ "items" Hxd)).
    rewrite (truthy_v_sim h _ _ (items_ref_sim h x _ Hxd)).
    rewrite (definitionTypeName_sim h _ _ (items_ref_sim h x _ Hxd)).
    reflexivity. }
  rewrite Heq.
  destruct (reduceM _ (map snd (own_entries pj)) []) as [names| |]; simpl.
  - split; [apply extends_app|].
    exists (length h). split; [reflexivity|apply nth_error_last].
  - split; [apply extends_refl|reflexivity].
  - split; [apply extends_refl|exact I].
Qed.

(** ** The Definition Collector *)

Lemma generated_at_mono (h h' : Store.heap) (v : Store.hvalue) (d : generated) :
  extends h h' -> generated_at h v d -> generated_at h' v d.
Proof.
  intros Hext (l & props & imps & -> & Hl & Hp & Hi).
  exists l, props, imps. repeat split.
  - eapply extends_nth; eassumption.
  - eapply plist_at_mono; eassumption.
  - eapply extends_nth; eassumption.
Qed.

Lemma sim_bind_ret {E A B A'} (R : Store.heap -> A -> B -> Prop)
    (R' : Store.heap -> A' -> B -> Prop) (h : Store.heap)
    (m : Store.St E A) (p : outcome E B) (k : A -> Store.St E A') :
  sim R h m p ->
  (forall h' a b, extends h h' -> R h' a b -> sim R' h' (k a) (Return b)) ->
  sim R' h (Store.bindS m k) p.
Proof.
  intros Hm Hk. replace p with (bind p Return) by (now destruct p).
  eapply sim_bind; [exact Hm|]. intros h' a b Hext _ Hab. now apply Hk.
Qed.

Lemma selected_sim (h : Store.heap) (v : Store.hval) (j : json) :
  doc_at h v j ->
  val_at h (if Store.truthy_v (Store.get h v "definitions") then Store.get h v "definitions"
            else match Store.get h v "components" with
                 | Some components =>
                     if Store.truthy components then Store.get h components "schemas"
                     else None
                 | None => None
                 end)
           (selected_definitions j).
Proof.
  intro Hd. unfold selected_definitions.
  rewrite (truthy_v_sim h _ _ (get_sim h v j "definitions" Hd)).
  destruct (truthy_v (get j "definitions")); [now apply get_sim|].
  pose proof (get_sim h v j "components" Hd) as Hc.
  destruct (Store.get h v "components") as [cv|], (get j "components") as [cj|];
    simpl in Hc; try contradiction; [|exact I].
  rewrite (truthy_sim h cv cj Hc). destruct (truthy cj); [now apply get_sim|exact I].
Qed.

Lemma selected_size (j defs : json) :
  selected_definitions j = Some defs -> json_size defs < json_size j.
Proof.
  unfold selected_definitions.
  destruct (truthy_v (get j "definitions")); [apply json_size_get|].
  destruct (get j "components") as [c|] eqn:Ec; [|discriminate].
  destruct (truthy c); [|discriminate].
  intro H. apply json_size_get in H. apply json_size_get in Ec. lia.
Qed.

Lemma generatorArray_sim (program : options) (fuel : nat) (h : Store.heap)
    (v : Store.hval) (j : json) :
  json_size j <= fuel -> doc_at h v j ->
  sim results_at h (Store.generatorArray program fuel v) (generatorArray program j).
Proof.
  intros Hn Hd. unfold Store.generatorArray.
  rewrite (is_null_sim h v j Hd).
  destruct (is_null j) eqn:Enull.
  { destruct j; try discriminate. apply sim_throw. }
  rewrite generatorArray_select by (intros ->; discriminate).
  apply sim_read.
  pose proof (selected_sim h v j Hd) as Hsel.
  match type of Hsel with val_at _ ?x _ => destruct x as [dv|] end;
    destruct (selected_definitions j) as [dj|] eqn:Edj; simpl in Hsel; try contradiction.
  2:{ apply sim_throw. }
  cbn [Store.truthy_v]. rewrite (truthy_sim h dv dj Hsel).
  destruct (truthy dj); [|apply sim_throw].
  apply sim_read. apply selected_size in Edj.
  destruct (engine_sim program fuel) as (_ & Hpl & _).
  eapply sim_bind_ret.
  - apply (sim_mapS generated_at); [intros; eapply generated_at_mono; eassumption|].
    pose proof (own_entries_sim h dv dj Hsel) as Hkeys.
    apply (Forall2_in_right _ (fun e => json_size (snd e) <= fuel)) in Hkeys.
    2:{ intros e He. apply own_entries_size in He. lia. }
    eapply Forall2_impl; [|exact Hkeys].
    intros kv kv' [[Hk (x & Hx & Hxd)] He] h' Hext. cbv beta.
    apply sim_liftS. rewrite Hx, Hk.
    assert (Hxd' : doc_at h' x (snd kv')) by (eapply doc_at_mono; eassumption).
    eapply sim_bind; [now apply Hpl|].
    intros h1 props props' Hext1 _ Hprops.
    eapply sim_bind; [apply importsList_sim; eapply doc_at_mono; eassumption|].
    intros h2 imps imps' Hext2 _ (l & -> & Hl).
    apply sim_alloc_ret.
    exists (length h2), props, l. cbn [title properties imports]. repeat split.
    + apply nth_error_last.
    + eapply plist_at_mono; [|exact Hprops].
      eapply extends_trans; [exact Hext2|apply extends_app].
    + eapply extends_nth; [apply extends_app|exact Hl].
  - intros h' records results _ Hrecords. apply sim_alloc_val.
    exists (length h'), records. repeat split; [apply nth_error_last|].
    eapply Forall2_impl; [|exact Hrecords].
    intros a b Hab. eapply generated_at_mono; [apply extends_app|exact Hab].
Qed.

(** ** The Emitter: declaration text *)

Lemma texts_of_text_values (names : list tyval) :
  Store.texts_of (map Store.text_value names) = Return names.
Proof.
  unfold Store.texts_of. apply mapM_Forall2.
  induction names as [|[s|] names IH]; simpl; constructor; auto.
Qed.

Lemma generateTypeFile_sim (program : options) (fuel : nat) (h : Store.heap)
    (v : Store.hval) (d : generated) :
  plist_size (properties d) <= fuel ->
  generated_at h (Some v) d ->
  sim (fun _ a b => a = b) h (Store.generateTypeFile program fuel v)
      (generateTypeFile program d).
Proof.
  intros Hn (l & props & imps & Hv & Hl & Hp & Hi). inversion Hv. subst v. clear Hv.
  unfold Store.generateTypeFile, generateTypeFile.
  assert (Htitle : forall h', extends h h' ->
            Store.get h' (Store.HRef l) "title" = Some (Store.HStr (title d)) /\
            Store.get h' (Store.HRef l) "properties" = props /\
            Store.importTemplates h' (Store.HRef l) = Return (importTemplates d)).
  { intros h' Hext. unfold Store.importTemplates, Store.get. cbn [Store.cell_at].
    rewrite (extends_nth h h' _ _ Hext Hl). cbn.
    rewrite (extends_nth h h' _ _ Hext Hi), texts_of_text_values.
    repeat split; now destruct props. }
  destruct (Htitle h (extends_refl h)) as (Ht & Hprops & _).
  eapply sim_reads.
  { rewrite Ht. now destruct fuel. }
  apply sim_read. rewrite Hprops.
  eapply sim_bind; [now apply propertiesTemplate_sim|].
  intros h1 text text' Hext1 _ <-.
  apply sim_pure; [reflexivity|]. intros expression _.
  eapply sim_reads; [apply (Htitle h1 Hext1)|].
  now apply sim_ret.
Qed.

Lemma Forall2_in_left {X Y} (R : X -> Y -> Prop) (xs : list X) (ys : list Y) (y : Y) :
  Forall2 R xs ys -> In y ys -> exists x, In x xs /\ R x y.
Proof.
  induction 1 as [|x y' xs ys Hxy _ IH]; simpl; [tauto|].
  intros [<-|H].
  - exists x. split; [now left|exact Hxy].
  - destruct (IH H) as (x' & Hx' & Hr). exists x'. split; [now right|exact Hr].
Qed.

Lemma run_sim (program : options) (fuel : nat) (h : Store.heap) (v : Store.hval) (j : json) :
  json_size j <= fuel -> doc_at h v j ->
  sim (fun _ a b => a = b) h (Store.run program fuel v) (declarations program j).
Proof.
  intros Hn Hd. unfold Store.run, declarations.
  eapply sim_bind; [now apply generatorArray_sim|].
  intros h1 a results Hext1 Hresults (l & vs & -> & Hl & Hvs).
  eapply sim_reads; [cbn [Store.cell_at]; now rewrite Hl|].
  assert (Hsizes : forall d, In d results -> plist_size (properties d) <= fuel).
  { apply generatorArray_entries in Hresults as (defs & Hsel & _ & Hcollected).
    apply selected_size in Hsel.
    intros d Hin. apply (Forall2_in_left _ _ _ _ Hcollected) in Hin as (kv & Hkv & _ & Hprops & _).
    apply own_entries_size in Hkv.
    apply (propertiesList_size program _ _ (le_n _)) in Hprops. lia. }
  eapply (sim_weaken (fun _ => Forall2 eq)); [intros h' x y _ Hxy; now apply Forall2_eq|].
  apply (sim_mapS (fun _ a b => a = b)); [now intros|].
  apply (Forall2_in_right _ (fun d => plist_size (properties d) <= fuel)) in Hvs;
    [|exact Hsizes].
  eapply Forall2_impl; [|exact Hvs].
  intros x d [Hx Hd'] h' Hext. cbv beta.
  apply (generated_at_mono h1 h' _ _ Hext) in Hx.
  destruct Hx as (l' & props & imps & -> & Hl' & Hp & Hi). cbn [Store.is_null].
  eapply sim_reads.
  { unfold Store.get. cbn [Store.cell_at]. rewrite Hl'. reflexivity. }
  eapply sim_bind.
  - apply sim_liftS, generateTypeFile_sim; [exact Hd'|].
    exists l', props, imps. now repeat split.
  - intros h2 text text' _ _ <-. now apply sim_ret.
Qed.

(** ** Two runs over the same document *)

Lemma sim_outcome {E A} (h : Store.heap) (m : Store.St E A) (p : outcome E A) :
  sim (fun _ a b => a = b) h m p -> fst (m h) = p /\ extends h (snd (m h)).
Proof.
  intros [Hext H]. split; [|exact Hext].
  destruct (fst (m h)), p; try contradiction; congruence.
Qed.

(** C9. Generation is deterministic, for the runs of one process over one
    parsed document. The document is held in the store as a tree of
    objects, and the run (definition collection, then the rendering of
    every declaration text) is started a second time in the store the
    first run leaves behind. Two successive collections return arrays that
    hold the same definitions: the same titles, property lists and imports.
    The second run ends like the first, with the same file names and the
    same declaration texts, or with the same exception. The store has only
    grown: every write of the engine went to an object that the run itself
    had allocated, and the document is what it was. The outcome is the one
    the value model of the engine computes, so the fuel of the store model
    has not run out. *)
Theorem generation_deterministic (program : options) (fuel : nat) (h : Store.heap)
    (content : Store.hval) (doc : json) :
  doc_at h content doc ->
  json_size doc <= fuel ->
  let collect := Store.generatorArray program fuel content in
  let run := Store.run program fuel content in
  (forall first second h1 h2,
     collect h = (Return first, h1) -> collect h1 = (Return second, h2) ->
     exists results, results_at h1 first results /\ results_at h2 second results) /\
  fst (run (snd (run h))) = fst (run h) /\
  extends h (snd (run h)) /\
  doc_at (snd (run h)) content doc /\
  fst (run h) = declarations program doc.
Proof.
  intros Hd Hn collect run. split; [|split; [|split; [|split]]].
  - intros first second h1 h2 H1 H2.
    destruct (generatorArray_sim program fuel h content doc Hn Hd) as [Hext1 Hr1].
    fold collect in Hext1, Hr1. rewrite H1 in Hext1, Hr1. cbn [fst snd] in Hext1, Hr1.
    destruct (generatorArray program doc) as [results| |] eqn:Epure; try contradiction.
    pose proof (doc_at_mono h h1 content doc Hext1 Hd) as Hd1.
    destruct (generatorArray_sim program fuel h1 content doc Hn Hd1) as [_ Hr2].
    fold collect in Hr2. rewrite H2, Epure in Hr2. cbn [fst snd] in Hr2.
    now exists results.
  - destruct (sim_outcome _ _ _ (run_sim program fuel h content doc Hn Hd)) as [H1 Hext].
    fold run in H1, Hext.
    pose proof (doc_at_mono h _ content doc Hext Hd) as Hd1.
    destruct (sim_outcome _ _ _ (run_sim program fuel _ content doc Hn Hd1)) as [H2 _].
    fold run in H2. congruence.
  - apply (sim_outcome _ _ _ (run_sim program fuel h content doc Hn Hd)).
  - eapply doc_at_mono; [|exact Hd].
    apply (sim_outcome _ _ _ (run_sim program fuel h content doc Hn Hd)).
  - apply (sim_outcome _ _ _ (run_sim program fuel h content doc Hn Hd)).
Qed.

Lemma generation_deterministic_witness :
  let program := {| destination := None; checkRequired := true; exact := true |} in
  let doc :=
    JObj [("definitions", JObj [
      ("Pet", JObj [ ("type", JStr "object");
                     ("required", JArr [JStr "id"]);
                     ("properties", JObj [ ("id", JObj [("type", JStr "integer")]);
                                           ("owner", JObj [("$ref", JStr "#/definitions/Owner")]) ]) ]);
      ("Dog", JObj [("allOf", JArr [ JObj [("$ref", JStr "#/definitions/Pet")];
                                     JObj [("properties",
                                            JObj [("name", JObj [("type", JStr "string")])])] ])]) ])] in
  let h :=
    [ Store.CObj [("type", Some (Store.HStr "integer"))];
      Store.CObj [("$ref", Some (Store.HStr "#/definitions/Owner"))];
      Store.CObj [("id", Some (Store.HRef 0)); ("owner", Some (Store.HRef 1))];
      Store.CArr [Some (Store.HStr "id")];
      Store.CObj [ ("type", Some (Store.HStr "object"));
                   ("required", Some (Store.HRef 3));
                   ("properties", Some (Store.HRef 2)) ];
      Store.CObj [("$ref", Some (Store.HStr "#/definitions/Pet"))];
      Store.CObj [("type", Some (Store.HStr "string"))];
      Store.CObj [("name", Some (Store.HRef 6))];
      Store.CObj [("properties", Some (Store.HRef 7))];
      Store.CArr [Some (Store.HRef 5); Some (Store.HRef 8)];
      Store.CObj [("allOf", Some (Store.HRef 9))];
      Store.CObj [("Pet", Some (Store.HRef 4)); ("Dog", Some (Store.HRef 10))];
      Store.CObj [("definitions", Some (Store.HRef 11))] ] in
  let collect := Store.generatorArray program 20 (Store.HRef 12) in
  let run := Store.run program 20 (Store.HRef 12) in
  (forall first second h1 h2,
     collect h = (Return first, h1) -> collect h1 = (Return second, h2) ->
     exists results, results_at h1 first results /\ results_at h2 second results) /\
  fst (run (snd (run h))) = fst (run h) /\
  extends h (snd (run h)) /\
  doc_at (snd (run h)) (Store.HRef 12) doc /\
  fst (run h) = declarations program doc.
Proof.
  intros program doc h.
  apply (generation_deterministic program 20 h (Store.HRef 12) doc).
  - repeat (econstructor; simpl; try reflexivity).
  - vm_compute. lia.
Defined.

(** The run of the witness: the texts, and the store after it. The object
    that [Object.assign] filled and the array that [sort] ordered are new
    cells; the thirteen cells of the document are unchanged. *)
Example run_example :
  let program := {| destination := None; checkRequired := false; exact := false |} in
  let h :=
    [ Store.CObj [("type", Some (Store.HStr "string"))];
      Store.CObj [("name", Some (Store.HRef 0))];
      Store.CObj [("properties", Some (Store.HRef 1))];
      Store.CObj [("$ref", Some (Store.HStr "#/definitions/Pet"))];
      Store.CArr [Some (Store.HRef 3); Some (Store.HRef 2)];
      Store.CObj [("allOf", Some (Store.HRef 4))];
      Store.CObj [("Dog", Some (Store.HRef 5))];
      Store.CObj [("definitions", Some (Store.HRef 6))] ] in
  Store.run program 10 (Store.HRef 7) h =
  (Return [("Dog", "export type Dog = {name:string} & Pet;")],
   (h ++ [ Store.CObj [("$ref", Some (Store.HStr "Pet"))];
           Store.CObj [("name", Some (Store.HStr "string"))];
           Store.CArr [Some (Store.HRef 8); Some (Store.HRef 9)];
           Store.CArr [];
           Store.CObj [ ("title", Some (Store.HStr "Dog"));
                        ("properties", Some (Store.HRef 10));
                        ("imports", Some (Store.HRef 11)) ];
           Store.CArr [Some (Store.HRef 12)];
           Store.CArr [ Some (Store.HStr (String "{" (String dquote
                          ("name" ++ String dquote (":" ++ String dquote
                          ("string" ++ String dquote "}"))))));
                        Some (Store.HStr "& Pet") ] ])%list).
Proof. vm_compute. reflexivity. Qed.
